(** * Kiosk front end: the presence-gated dialogue loop

    A shallow embedding of the browser script of the reception kiosk
    (the dialogue loop, the amplitude gates, the presence monitor, the
    streaming channel handlers and the subtitle formatter), and the
    properties of it that the design document states; then of the
    recorder, the loops that open the channel and load the avatar's
    model, the avatar's expressions and the settings page, with further
    properties read off the code.

    JavaScript numbers are IEEE 754 binary64 values: they are modelled by
    Rocq's primitive floats, whose operations are the same.  JavaScript
    strings are sequences of UTF-16 code units: they are modelled by lists
    of code units. *)

From Stdlib Require Import List Bool Arith NArith ZArith Lia.
From Stdlib Require Ascii String.
From Stdlib Require Import Floats QArith Qround Qpower.
Import ListNotations.
Close Scope Q_scope.

Set Implicit Arguments.
Set Warnings "-inexact-float".

(* ------------------------------------------------------------------ *)
(** ** Subtitle formatter: [formatSubtitle]                            *)
(* ------------------------------------------------------------------ *)

Module Subtitle.

(** A UTF-16 code unit. *)
Definition char16 := N.
Definition jsstring := list char16.

(** The characters matched by [\s] (and stripped by [trim]): the
    ECMAScript WhiteSpace and LineTerminator code points. *)
Definition is_space (c : char16) : bool :=
  ((9 <=? c) && (c <=? 13) || (c =? 32) || (c =? 160) || (c =? 5760)
   || (8192 <=? c) && (c <=? 8202) || (c =? 8232) || (c =? 8233)
   || (c =? 8239) || (c =? 8287) || (c =? 12288) || (c =? 65279))%N.

Definition SP : char16 := 32%N.

Fixpoint drop_space (s : jsstring) : jsstring :=
  match s with
  | [] => []
  | c :: s' => if is_space c then drop_space s' else s
  end.

(** [String.prototype.trim]. *)
Definition trim (s : jsstring) : jsstring :=
  rev (drop_space (rev (drop_space s))).

(** [s.split(/\s+/)]: the substrings between the maximal whitespace runs.
    [inrun] says that the previous character belonged to a separator,
    [cur] is the substring being read, reversed.  A separator at the
    start or at the end of [s] yields an empty first or last substring,
    and the empty string yields one empty substring, as in ECMAScript. *)
Fixpoint split_go (inrun : bool) (cur : jsstring) (s : jsstring)
  : list jsstring :=
  match s with
  | [] => [rev cur]
  | c :: s' =>
      if is_space c
      then if inrun then split_go true [] s'
           else rev cur :: split_go true [] s'
      else split_go false (c :: cur) s'
  end.

Definition split_ws (s : jsstring) : list jsstring := split_go false [] s.

(** The loop body of [formatSubtitle]; the state is [(lines, current)]. *)
Definition wrap_step (maxCharsPerLine : nat)
  (st : list jsstring * jsstring) (w : jsstring) : list jsstring * jsstring :=
  let '(lines, current) := st in
  if length current =? 0 then (lines, w)
  else if length (current ++ SP :: w) <=? maxCharsPerLine
       then (lines, current ++ SP :: w)
       else (lines ++ [current], w).

(** [(text || '').trim().split(/\s+/)]: [None] is a null or undefined
    argument. *)
Definition words (text : option jsstring) : list jsstring :=
  split_ws (trim (match text with Some s => s | None => [] end)).

Definition formatSubtitle (text : option jsstring) (maxCharsPerLine : nat)
  : list jsstring :=
  let '(lines, current) :=
    fold_left (wrap_step maxCharsPerLine) (words text) ([], []) in
  let lines := if length current =? 0 then lines else lines ++ [current] in
  firstn 3 lines.

(** The default of the second parameter. *)
Definition DEFAULT_MAX_CHARS : nat := 44.

(** The words of a line joined by single spaces. *)
Fixpoint join_sp (g : list jsstring) : jsstring :=
  match g with
  | [] => []
  | [w] => w
  | w :: g' => w ++ SP :: join_sp g'
  end.

(** The whitespace-separated words of a string, read off directly: the
    maximal runs of characters that are not whitespace. *)
Fixpoint tokens_go (cur : jsstring) (s : jsstring) : list jsstring :=
  match s with
  | [] => match cur with [] => [] | _ => [rev cur] end
  | c :: s' =>
      if is_space c
      then match cur with
           | [] => tokens_go [] s'
           | _ => rev cur :: tokens_go [] s'
           end
      else tokens_go (c :: cur) s'
  end.

Definition tokens (s : jsstring) : list jsstring := tokens_go [] s.

(** The last character of [s], when there is one, is not whitespace. *)
Fixpoint ends_ok (s : jsstring) : bool :=
  match s with
  | [] => true
  | [c] => negb (is_space c)
  | _ :: s' => ends_ok s'
  end.

(** A word: not empty, and free of whitespace. *)
Definition is_word (w : jsstring) : Prop :=
  w <> [] /\ forallb (fun c => negb (is_space c)) w = true.

(** A line respects the limit unless it is made of one word. *)
Definition fits (maxCharsPerLine : nat) (g : list jsstring) : Prop :=
  1 < length g -> length (join_sp g) <= maxCharsPerLine.

(** An ASCII literal as a string of code units. *)
Definition of_string (s : String.string) : jsstring :=
  map Ascii.N_of_ascii (String.list_ascii_of_string s).

(** [l1] is an initial segment of [l2]. *)
Definition prefix_of {A} (l1 l2 : list A) : Prop := exists r, l2 = l1 ++ r.

End Subtitle.

(* ------------------------------------------------------------------ *)
(** ** Audio: the amplitude gates and the PCM decoder                  *)
(* ------------------------------------------------------------------ *)

Module Audio.

Local Open Scope float_scope.

(** An array length as a JavaScript number. *)
Definition float_of_nat (n : nat) : float :=
  PrimFloat.of_uint63 (Uint63.of_Z (Z.of_nat n)).

(** [let sum = 0; for (i...) sum += data[i] * data[i];] *)
Definition sum_squares (data : list float) : float :=
  fold_left (fun sum x => sum + x * x) data 0.

(** [Math.sqrt(sum / data.length)] *)
Definition rms_of (data : list float) : float :=
  PrimFloat.sqrt (sum_squares data / float_of_nat (length data)).

(** What [decodeAudioData] resolves to: an [AudioBuffer] has at least one
    channel; [channel0] is [getChannelData(0)]. *)
Record DecodedAudio := {
  channel0 : list float;
  otherChannels : list (list float)
}.

(** As the design document words the gate: all the samples of the
    decoded unit, those of every channel. *)
Definition all_samples (audioBuffer : DecodedAudio) : list float :=
  channel0 audioBuffer ++ concat (otherChannels audioBuffer).

Definition QUIET_RMS : float := 0.008.

(** [checkAudioVolume].  The argument is the outcome of
    [blob.arrayBuffer()], [new AudioContext()] and [decodeAudioData]:
    [None] when one of them throws or rejects, which the [catch] turns
    into [true]. *)
Definition checkAudioVolume (decoded : option DecodedAudio) : bool :=
  match decoded with
  | Some audioBuffer =>
      let rms := rms_of (channel0 audioBuffer) in
      if rms <? QUIET_RMS then false else true
  | None => true
  end.

(** *** The energy trigger of [startWebSocketStreaming] *)

Definition RMS_THRESHOLD : float := 0.02.
Definition REQUIRED_FRAMES : nat := 3.

(** [sampleRms]: the window is what [getFloatTimeDomainData] wrote into
    [dataArr]. *)
Definition sampleRms (dataArr : list float) : float := rms_of dataArr.

(** One run of [check]: the new value of [consecutive], and whether the
    promise is resolved. *)
Definition check (consecutive : nat) (dataArr : list float) : nat * bool :=
  let rms := sampleRms dataArr in
  let consecutive := if RMS_THRESHOLD <=? rms then S consecutive else 0%nat in
  (consecutive, (REQUIRED_FRAMES <=? consecutive)%nat).

(** The polling loop: [check] runs once per animation frame, on the
    window sampled at that frame, until it resolves.  The result is the
    number of windows sampled up to the one that resolves the promise;
    [None] when none of the given windows does. *)
Fixpoint await_trigger (consecutive : nat) (windows : list (list float))
  : option nat :=
  match windows with
  | [] => None
  | dataArr :: rest =>
      let '(consecutive', resolved) := check consecutive dataArr in
      if resolved then Some 1%nat
      else option_map S (await_trigger consecutive' rest)
  end.

(** [recorder.start(120)] comes after the awaited promise: the recorder
    emits only once the trigger has resolved. *)
Definition emitting (windows : list (list float)) : bool :=
  match await_trigger 0 windows with Some _ => true | None => false end.

(** A window reaches the trigger threshold. *)
Definition loud (dataArr : list float) : bool :=
  RMS_THRESHOLD <=? sampleRms dataArr.

(** *** The PCM decoder [playPcmChunk] *)

(** One element of an [Int16Array] over little-endian bytes. *)
Definition int16_of_bytes (lo hi : Byte.byte) : Z :=
  let u := (Z.of_N (Byte.to_N lo) + 256 * Z.of_N (Byte.to_N hi))%Z in
  if (u <? 32768)%Z then u else (u - 65536)%Z.

(** [new Int16Array(arrayBuffer)]: a [RangeError] ([None]) when the byte
    length is odd. *)
Fixpoint Int16Array (arrayBuffer : list Byte.byte) : option (list Z) :=
  match arrayBuffer with
  | [] => Some []
  | [_] => None
  | lo :: hi :: rest =>
      option_map (cons (int16_of_bytes lo hi)) (Int16Array rest)
  end.

Definition float_of_Z (v : Z) : float :=
  if (v <? 0)%Z then - PrimFloat.of_uint63 (Uint63.of_Z (- v))
  else PrimFloat.of_uint63 (Uint63.of_Z v).

(** Storing into a [Float32Array] rounds to binary32 ([Math.fround]). *)
Definition fround (x : float) : float :=
  match Prim2SF x with
  | S754_finite s m e =>
      SF2Prim (SpecFloat.binary_normalize 24 128
                 (SpecFloat.cond_Zopp s (Zpos m)) e s)
  | _ => x
  end.

(** [float32[i] = int16[i] / 32768.0] *)
Definition sample_of_int16 (v : Z) : float := fround (float_of_Z v / 32768).

Record AudioBuffer := {
  numberOfChannels : nat;
  bufferLength : nat;
  sampleRate : float;
  channelData : list float
}.

(** [avatarController && avatarController.analyser]: there is none, or
    it is a node of the context [audioCtx] the function is given, or a
    node of another context. *)
Inductive Analyser := NoAnalyser | OwnAnalyser | ForeignAnalyser.

(** How a call ends.  [lipsync] says that the source was routed through
    the avatar's analyser and [avatarController.isPlaying] was set. *)
Inductive PlayResult :=
| Started (b : AudioBuffer) (lipsync : bool)
                              (* [src.start()] on a source holding [b] *)
| StartThrew (b : AudioBuffer) (lipsync : bool)
                              (* [src.start()] threw: caught and warned *)
| NoContext                   (* [audioCtx] is null: logged, nothing played *)
| Threw.                      (* an exception: the returned promise rejects *)

Section Playback.

(** The sample rates [createBuffer] accepts depend on the browser. *)
Variable supportedRate : float -> bool.

(** Whether [start()] throws on the source holding a buffer. *)
Variable startThrows : AudioBuffer -> bool.

(** [audioCtx.createBuffer(1, length, sampleRate)] followed by
    [getChannelData(0).set(float32)]: a [NotSupportedError] for a length
    of zero or a rate out of the browser's range. *)
Definition createBuffer (length : nat) (rate : float) (float32 : list float)
  : option AudioBuffer :=
  if (length =? 0)%nat || negb (supportedRate rate) then None
  else Some {| numberOfChannels := 1; bufferLength := length;
               sampleRate := rate; channelData := float32 |}.

(** [playPcmChunk(arrayBuffer, sampleRate, audioCtx)]; [sampleRate] is
    the number [createBuffer] is given.  After the buffer is made the
    source is connected: to the avatar's analyser when there is one,
    which throws an [InvalidAccessError] when the analyser belongs to
    another context, else to the destination; then [src.start()] runs
    inside its own [try]. *)
Definition playPcmChunk (arrayBuffer : list Byte.byte) (sampleRate : float)
  (audioCtx : bool) (analyser : Analyser) : PlayResult :=
  if negb audioCtx then NoContext
  else match Int16Array arrayBuffer with
       | None => Threw
       | Some int16 =>
           let float32 := map sample_of_int16 int16 in
           match createBuffer (length float32) sampleRate float32 with
           | None => Threw
           | Some audioBuffer =>
               match analyser with
               | ForeignAnalyser => Threw
               | OwnAnalyser =>
                   if startThrows audioBuffer
                   then StartThrew audioBuffer true
                   else Started audioBuffer true
               | NoAnalyser =>
                   if startThrows audioBuffer
                   then StartThrew audioBuffer false
                   else Started audioBuffer false
               end
           end
       end.

(** The buffer the call makes of a chunk, when it gets that far. *)
Definition chunk_buffer (arrayBuffer : list Byte.byte) (sampleRate : float)
  : option AudioBuffer :=
  match Int16Array arrayBuffer with
  | None => None
  | Some int16 =>
      let float32 := map sample_of_int16 int16 in
      createBuffer (length float32) sampleRate float32
  end.

(** The buffers started by a sequence of chunks played straight to the
    destination, in order; a chunk whose call throws starts none. *)
Fixpoint play_all (chunks : list (list Byte.byte)) (sampleRate : float)
  : list AudioBuffer :=
  match chunks with
  | [] => []
  | arrayBuffer :: rest =>
      match playPcmChunk arrayBuffer sampleRate true NoAnalyser with
      | Started b _ => b :: play_all rest sampleRate
      | _ => play_all rest sampleRate
      end
  end.

End Playback.

(** The number of bytes of a sequence of chunks. *)
Definition total_bytes (chunks : list (list Byte.byte)) : nat :=
  list_sum (map (@length Byte.byte) chunks).

(** The exact value of a finite float. *)
Definition Q_of_float (x : float) : option Q :=
  match Prim2SF x with
  | S754_zero _ => Some 0%Q
  | S754_finite s m e =>
      Some (inject_Z (SpecFloat.cond_Zopp s (Zpos m)) * Qpower 2 e)%Q
  | _ => None
  end.

(** [AudioBuffer.duration], in seconds, as an exact quotient. *)
Definition duration (b : AudioBuffer) : option Q :=
  match Q_of_float (sampleRate b) with
  | Some r => Some (inject_Z (Z.of_nat (bufferLength b)) / r)%Q
  | None => None
  end.

(** [f] holds of the [2 ^ k] integers from [lo] on. *)
Fixpoint all_in (k : nat) (lo : Z) (f : Z -> bool) : bool :=
  match k with
  | O => f lo
  | S k' => all_in k' lo f && all_in k' (lo + 2 ^ Z.of_nat k')%Z f
  end.

(** The stored sample is exactly [v / 32768], and lies in [[-1, 1)]. *)
Definition sample_exact (v : Z) : bool :=
  match Q_of_float (sample_of_int16 v) with
  | Some q => Qeq_bool q (v # 32768) && Qle_bool (-1) q && negb (Qle_bool 1 q)
  | None => false
  end.

Definition is_int16 (v : Z) : Prop := (-32768 <= v < 32768)%Z.

Fixpoint total_duration (bs : list AudioBuffer) : option Q :=
  match bs with
  | [] => Some 0%Q
  | b :: bs' =>
      match duration b, total_duration bs' with
      | Some d, Some t => Some (d + t)%Q
      | _, _ => None
      end
  end.

End Audio.

(* ------------------------------------------------------------------ *)
(** ** The dialogue turn: [loopOnce]                                   *)
(* ------------------------------------------------------------------ *)

Module Turn.
Import Audio.

(** [currentPhase] *)
Inductive Phase := idle | listening | processing | answering.

(** The encoded unit [recordChunk] resolves to. *)
Definition Blob := list Byte.byte.

(** The fields of the backend's reply that [loopOnce] reads. *)
Record Reply := {
  user_text : option Subtitle.jsstring;
  answer_text : option Subtitle.jsstring;
  audio_url : option Subtitle.jsstring
}.

(** Truthiness of an optional string: missing and empty are falsy. *)
Definition truthy (s : option Subtitle.jsstring) : bool :=
  match s with
  | Some (_ :: _) => true
  | _ => false
  end.

(** The globals [loopOnce] reads and writes, and what it has done that
    can be seen from outside: the blobs handed to [sendAudioToBackend]
    (newest first), the number of error toasts shown, and the number of
    callbacks a finished turn has left registered (of [audioEl.onended]
    and the 30 s safety timer, the one that did not resolve the wait). *)
Record World := {
  busy : bool;
  currentPhase : Phase;
  isPlayingAudio : bool;
  sent : list Blob;
  toasts : nat;
  leftover : nat
}.

Definition initial : World :=
  {| busy := false; currentPhase := idle; isPlayingAudio := false;
     sent := []; toasts := 0; leftover := 0 |}.

Definition set_busy (b : bool) (w : World) : World :=
  {| busy := b; currentPhase := currentPhase w;
     isPlayingAudio := isPlayingAudio w; sent := sent w;
     toasts := toasts w; leftover := leftover w |}.

Definition set_phase (p : Phase) (w : World) : World :=
  {| busy := busy w; currentPhase := p;
     isPlayingAudio := isPlayingAudio w; sent := sent w;
     toasts := toasts w; leftover := leftover w |}.

Definition set_playing (b : bool) (w : World) : World :=
  {| busy := busy w; currentPhase := currentPhase w;
     isPlayingAudio := b; sent := sent w;
     toasts := toasts w; leftover := leftover w |}.

(** [sendAudioToBackend(blob)]: the request is issued. *)
Definition send (blob : Blob) (w : World) : World :=
  {| busy := busy w; currentPhase := currentPhase w;
     isPlayingAudio := isPlayingAudio w; sent := blob :: sent w;
     toasts := toasts w; leftover := leftover w |}.

(** [showToast(..., 'error')] *)
Definition showToast (w : World) : World :=
  {| busy := busy w; currentPhase := currentPhase w;
     isPlayingAudio := isPlayingAudio w; sent := sent w;
     toasts := S (toasts w); leftover := leftover w |}.

Definition set_leftover (n : nat) (w : World) : World :=
  {| busy := busy w; currentPhase := currentPhase w;
     isPlayingAudio := isPlayingAudio w; sent := sent w;
     toasts := toasts w; leftover := n |}.

(** The [catch] block, and the [finally] block. *)
Definition catch_block (w : World) : World := showToast w.
Definition finally_block (w : World) : World :=
  set_busy false (set_phase idle w).

(** Where a suspended activation of [loopOnce] waits. *)
Inductive Pc :=
| AwaitRecord                     (* [await recordChunk(6000)] *)
| AwaitVolume (audioBlob : Blob)  (* [await checkAudioVolume(audioBlob)] *)
| AwaitBackend (audioBlob : Blob) (* [await sendAudioToBackend(audioBlob)] *)
| AwaitPlay                       (* [await audioEl.play()] *)
| AwaitEnded.                     (* the wait for [onended] or the timer *)

(** How the awaited promise settles.  [domThrows] says whether the
    synchronous code that follows the await throws (a missing element,
    a reply that is not an object). *)
Inductive Outcome :=
| RecordResolved (audioBlob : Blob)
| RecordRejected
| VolumeChecked (decoded : option DecodedAudio)
| BackendReplied (data : Reply) (domThrows : bool)
| BackendFailed
| PlaySettled (ok : bool)
| PlaybackOver (domThrows : bool).

(** A call of [loopOnce] up to its first await: [None] when the call
    returns at once. *)
Definition loopOnce (w : World) : option Pc * World :=
  if busy w then (None, w)
  else (Some AwaitRecord, set_phase listening (set_busy true w)).

(** An activation continues with the outcome of its await, up to the
    next await ([Some pc]) or to its end ([None], after [finally]).
    The result is [None] when the outcome is not one of this await. *)
Definition resume (pc : Pc) (o : Outcome) (w : World)
  : option (option Pc * World) :=
  match pc, o with
  | AwaitRecord, RecordResolved audioBlob =>
      Some (Some (AwaitVolume audioBlob), w)
  | AwaitRecord, RecordRejected =>
      Some (None, finally_block (catch_block w))
  | AwaitVolume audioBlob, VolumeChecked decoded =>
      let hasAudio := checkAudioVolume decoded in
      if negb hasAudio
      then Some (None, finally_block (set_busy false w))
      else Some (Some (AwaitBackend audioBlob),
                 send audioBlob (set_phase processing w))
  | AwaitBackend _, BackendReplied data domThrows =>
      if domThrows then Some (None, finally_block (catch_block w))
      else if truthy (audio_url data)
           then Some (Some AwaitPlay,
                      set_phase answering (set_playing true w))
           else Some (None, finally_block w)
  | AwaitBackend _, BackendFailed =>
      Some (None, finally_block (catch_block w))
  | AwaitPlay, PlaySettled ok =>
      Some (Some AwaitEnded, if ok then w else showToast w)
  | AwaitEnded, PlaybackOver domThrows =>
      let w := set_phase idle (set_playing false w) in
      let w := set_leftover (S (leftover w)) w in
      Some (None, finally_block (if domThrows then catch_block w else w))
  | _, _ => None
  end.

(** The number of awaits an activation still has ahead, at most. *)
Definition rank (pc : Pc) : nat :=
  match pc with
  | AwaitRecord => 5
  | AwaitVolume _ => 4
  | AwaitBackend _ => 3
  | AwaitPlay => 2
  | AwaitEnded => 1
  end.

(** The page: the globals and the suspended activations of [loopOnce]. *)
Record Sys := {
  world : World;
  turns : list Pc
}.

Definition boot : Sys := {| world := initial; turns := [] |}.

Inductive Event :=
| CallLoopOnce                      (* a start attempt *)
| Resume (i : nat) (o : Outcome)    (* the [i]-th activation continues *)
| Leftover.                         (* a leftover callback runs *)

Fixpoint replace_nth {A} (i : nat) (a : A) (l : list A) : list A :=
  match l, i with
  | [], _ => []
  | _ :: l', O => a :: l'
  | b :: l', S i' => b :: replace_nth i' a l'
  end.

Fixpoint remove_nth {A} (i : nat) (l : list A) : list A :=
  match l, i with
  | [], _ => []
  | _ :: l', O => l'
  | b :: l', S i' => b :: remove_nth i' l'
  end.

(** One turn of the event loop.  An event that cannot happen in the
    state leaves it as it is. *)
Definition step (s : Sys) (e : Event) : Sys :=
  match e with
  | CallLoopOnce =>
      match loopOnce (world s) with
      | (Some pc, w) => {| world := w; turns := turns s ++ [pc] |}
      | (None, w) => {| world := w; turns := turns s |}
      end
  | Resume i o =>
      match nth_error (turns s) i with
      | Some pc =>
          match resume pc o (world s) with
          | Some (Some pc', w) =>
              {| world := w; turns := replace_nth i pc' (turns s) |}
          | Some (None, w) =>
              {| world := w; turns := remove_nth i (turns s) |}
          | None => s
          end
      | None => s
      end
  | Leftover =>
      match leftover (world s) with
      | O => s
      | S n =>
          {| world := set_leftover n
                        (set_phase idle (set_playing false (world s)));
             turns := turns s |}
      end
  end.

Definition run (s : Sys) (events : list Event) : Sys :=
  fold_left step events s.

(** A decoded unit of eight silent samples, and the globals of a page
    that listens. *)
Definition silence : DecodedAudio :=
  {| channel0 := repeat 0%float 8; otherChannels := [] |}.
Definition listening_world : World :=
  set_phase listening (set_busy true initial).

(** Mutual exclusion: no activation while [busy] is clear, exactly one
    while it is set. *)
Definition exclusive (s : Sys) : Prop :=
  (busy (world s) = false /\ turns s = [])
  \/ (busy (world s) = true /\ exists pc, turns s = [pc]).

End Turn.

(* ------------------------------------------------------------------ *)
(** ** The presence monitor: [faceMesh.onResults]                      *)
(* ------------------------------------------------------------------ *)

Module Presence.

Local Open Scope float_scope.

(** A normalized landmark. *)
Record Point := { px : float; py : float }.

Record Roi := { top : float; left : float; width : float; height : float }.

(** [window.__presenceCfg]: a key that is missing or null is [None];
    otherwise it holds the number its value converts to where the code
    uses it (in a comparison, as a delay), NaN for a value that is no
    number. *)
Record Cfg := {
  nearThreshold : option float;
  mediumThreshold : option float;
  attentionTolerancePx : option float;
  roi : option Roi;
  holdMs : option float
}.

(** The configuration when the fetch fails or has no presence key. *)
Definition no_cfg : Cfg :=
  {| nearThreshold := None; mediumThreshold := None;
     attentionTolerancePx := None; roi := None; holdMs := None |}.

(** [a ?? b] *)
Definition nullish {A} (a : option A) (b : A) : A :=
  match a with Some v => v | None => b end.

Definition nearTh (pcfg : Cfg) : float := nullish (nearThreshold pcfg) 0.10.
Definition medTh (pcfg : Cfg) : float := nullish (mediumThreshold pcfg) 0.07.
Definition tol (pcfg : Cfg) : float :=
  nullish (attentionTolerancePx pcfg) 80.
Definition holdOf (pcfg : Cfg) : float := nullish (holdMs pcfg) 20000.
(** [pcfg.roi || { top: 0, left: 0, width: 1, height: 1 }] *)
Definition roiOf (pcfg : Cfg) : Roi :=
  nullish (roi pcfg) {| top := 0; left := 0; width := 1; height := 1 |}.

(** [presenceVideo.videoWidth] and [videoHeight]. *)
Record Video := { videoWidth : float; videoHeight : float }.

Inductive Tier := far | medium | near.

(** What a frame's analysis reports: no face, or the landmarks 33, 263
    and 1 of the first face. *)
Inductive Results :=
| NoFace
| Face (leftEye rightEye nose : Point).

Section Frame.
Variable pcfg : Cfg.
Variable presenceVideo : Video.

Definition eyeDistanceNorm (leftEye rightEye : Point) : float :=
  let dx := (px rightEye - px leftEye) * videoWidth presenceVideo in
  let dy := (py rightEye - py leftEye) * videoHeight presenceVideo in
  let eyeDistancePixels := PrimFloat.sqrt (dx * dx + dy * dy) in
  eyeDistancePixels / videoWidth presenceVideo.

Definition tier_of (eyeDistanceNorm : float) : Tier :=
  if nearTh pcfg <=? eyeDistanceNorm then near
  else if medTh pcfg <=? eyeDistanceNorm then medium
  else far.

Definition horizOffset (leftEye rightEye nose : Point) : float :=
  PrimFloat.abs ((px leftEye + px rightEye) / 2 - px nose)
  * videoWidth presenceVideo.

Definition vertOffset (leftEye rightEye nose : Point) : float :=
  PrimFloat.abs ((py leftEye + py rightEye) / 2 - py nose)
  * videoHeight presenceVideo.

Definition attention_of (leftEye rightEye nose : Point) : bool :=
  (horizOffset leftEye rightEye nose <? tol pcfg)
  && (vertOffset leftEye rightEye nose <? tol pcfg).

Definition inRoi (nose : Point) : bool :=
  let roi := roiOf pcfg in
  let xMin := left roi in
  let xMax := left roi + width roi in
  let yMin := top roi in
  let yMax := top roi + height roi in
  (xMin <=? px nose) && (px nose <=? xMax)
  && (yMin <=? py nose) && (py nose <=? yMax).

Definition is_near_or_medium (t : Tier) : bool :=
  match t with near | medium => true | far => false end.

(** The condition of the branch that turns presence on. *)
Definition qualifies (r : Results) : bool :=
  match r with
  | NoFace => false
  | Face leftEye rightEye nose =>
      is_near_or_medium (tier_of (eyeDistanceNorm leftEye rightEye))
      && attention_of leftEye rightEye nose
      && inRoi nose
  end.

(** A number cut to a whole number, towards zero; 0 for NaN and the
    infinities. *)
Definition truncate (x : float) : Z :=
  match Prim2SF x with
  | S754_finite s m e =>
      SpecFloat.cond_Zopp s
        (if (0 <=? e)%Z then Zpos m * 2 ^ e else Zpos m / 2 ^ (- e))%Z
  | _ => 0%Z
  end.

(** The delay [setTimeout] waits for, in milliseconds: its argument
    converted to a 32-bit signed integer (cut to a whole number, then
    taken modulo 2^32), and zero when that is negative. *)
Definition timeout_delay (ms : float) : Z :=
  Z.max 0 ((truncate ms + 2 ^ 31) mod 2 ^ 32 - 2 ^ 31)%Z.

(** The closure's variables and the two globals.  [presenceTimer] is the
    time from which the pending timeout may fire, [None] when no timeout
    is pending. *)
Record State := {
  presenceDetected : bool;
  presenceTimer : option Z;
  lastTier : Tier;
  attention : bool;
  detectionCount : nat;
  clock : Z
}.

Definition boot : State :=
  {| presenceDetected := false; presenceTimer := None; lastTier := far;
     attention := false; detectionCount := 0; clock := 0 |}.

(** The callback, run at time [now]. *)
Definition onResults (now : Z) (st : State) (results : Results) : State :=
  match results with
  | Face leftEye rightEye nose =>
      let tier := tier_of (eyeDistanceNorm leftEye rightEye) in
      let attention := attention_of leftEye rightEye nose in
      if is_near_or_medium tier && attention && inRoi nose
      then {| presenceDetected := true;
              presenceTimer := Some (now + timeout_delay (holdOf pcfg))%Z;
              lastTier := tier; attention := attention;
              detectionCount := S (detectionCount st); clock := now |}
      else {| presenceDetected := presenceDetected st;
              presenceTimer := presenceTimer st;
              lastTier := tier; attention := attention;
              detectionCount := S (detectionCount st); clock := now |}
  | NoFace =>
      {| presenceDetected := presenceDetected st;
         presenceTimer := presenceTimer st;
         lastTier := lastTier st; attention := attention st;
         detectionCount := S (detectionCount st); clock := now |}
  end.

(** The timeout's callback. *)
Definition onHoldTimeout (now : Z) (st : State) : State :=
  {| presenceDetected := false; presenceTimer := None;
     lastTier := lastTier st; attention := attention st;
     detectionCount := detectionCount st; clock := now |}.

Inductive Event :=
| Frame (t : Z) (results : Results)   (* a frame analysed at time [t] *)
| HoldTimer (t : Z).                  (* the pending timeout fires at [t] *)

(** One event: [None] when it cannot happen (time does not go back, and
    a timeout fires only when pending and due). *)
Definition step (st : State) (e : Event) : option State :=
  match e with
  | Frame t results =>
      if (clock st <=? t)%Z then Some (onResults t st results) else None
  | HoldTimer t =>
      match presenceTimer st with
      | Some due =>
          if ((clock st <=? t) && (due <=? t))%Z
          then Some (onHoldTimeout t st) else None
      | None => None
      end
  end.

Fixpoint run (st : State) (events : list Event) : option State :=
  match events with
  | [] => Some st
  | e :: rest =>
      match step st e with
      | Some st' => run st' rest
      | None => None
      end
  end.

(** The time of the last qualifying frame among the events. *)
Fixpoint last_qualifying (acc : option Z) (events : list Event) : option Z :=
  match events with
  | [] => acc
  | Frame t results :: rest =>
      last_qualifying (if qualifies results then Some t else acc) rest
  | HoldTimer _ :: rest => last_qualifying acc rest
  end.

(** What the history [events] says about a state: a pending timeout was
    started by the last qualifying frame, and presence is on only while
    a timeout is pending. *)
Definition timer_inv (st : State) (lastq : option Z) : Prop :=
  (forall due, presenceTimer st = Some due ->
     exists tq, lastq = Some tq
                /\ due = (tq + timeout_delay (holdOf pcfg))%Z)
  /\ (presenceDetected st = true -> exists due, presenceTimer st = Some due).

End Frame.

(** A camera picture of 320 by 240, and a face close to it, centred and
    looking at the screen. *)
Definition camera : Video := {| videoWidth := 320; videoHeight := 240 |}.
Definition facing : Results :=
  Face {| px := 0.4; py := 0.5 |} {| px := 0.6; py := 0.5 |}
       {| px := 0.5; py := 0.5 |}.

End Presence.

(* ------------------------------------------------------------------ *)
(** ** The streaming channel: [wsStream.onmessage] and [onclose]       *)
(* ------------------------------------------------------------------ *)

Module Stream.
Import Audio.
Import String.

Local Open Scope string_scope.

(** [WebSocket.binaryType]: how the browser hands over a binary frame. *)
Inductive BinaryType := blob | arraybuffer.

(** A value found under a key of a parsed frame.  An object or an array
    carries the number it converts to. *)
Inductive JsValue :=
| JAbsent                       (* the key is missing: [undefined] *)
| JNull
| JBool (b : bool)
| JNumber (x : float)
| JString (s : string)
| JObject (asNumber : float).

(** A text frame after [JSON.parse]: the fields the handler reads, or
    [Unparsable] when [JSON.parse] throws (or gives [null], whose
    [type] cannot be read).  A value that is no object has no [type]: it
    is an [Obj] of a type the handler does not know.  [text], [emotion]
    and [gesture] are read as strings, [None] when missing. *)
Inductive TextMsg :=
| Unparsable
| Obj (type : string) (text emotion gesture : option string)
      (sampleRate : JsValue).

(** What arrives on the wire. *)
Inductive WireFrame :=
| TextFrame (m : TextMsg)
| BinaryFrame (payload : list Byte.byte).

(** [evt.data] *)
Inductive EventData :=
| StringData (m : TextMsg)
| BlobData (payload : list Byte.byte)
| ArrayBufferData (payload : list Byte.byte).

Inductive AvatarCall :=
| SetEmotion (name : string)
| PlayGesture (name : string).

Inductive StatusText := LISTENING_TEXT | IDLE_TEXT.

(** The handlers' variables, and what they have done that can be seen:
    the calls made on the avatar controller and the buffers whose
    playback was started, both oldest first.  [hasDialogueLog] says that
    the page holds the element [#dialogueLog]; [audioCtxSuspended] that
    the state of the handlers' audio context is 'suspended';
    [awaitingResume] holds, oldest first, the [emotion] of each
    [audio_start] whose handler waits on [audioCtx.resume()], and
    [awaitingRead] the binary frames whose handler waits on
    [evt.data.arrayBuffer()]. *)
Record State := {
  wsStream : bool;                 (* the handle is not null *)
  binaryType : BinaryType;
  recorderRecording : bool;
  tracksLive : bool;
  statusText : StatusText;
  currentAudioSampleRate : JsValue;
  avatarController : bool;         (* the controller is not null *)
  avatarCalls : list AvatarCall;
  started : list AudioBuffer;
  dialogueLog : list (string * option string);
  errorsLogged : nat;
  currentPhase : Turn.Phase;
  hasDialogueLog : bool;
  audioCtxSuspended : bool;
  awaitingResume : list (option string);
  awaitingRead : list (list Byte.byte)
}.

(** The state [startWebSocketStreaming] leaves once the channel is open
    and the recorder emits, on a page with its dialogue log and an audio
    context that runs. *)
Definition connected (avatar : bool) : State :=
  {| wsStream := true; binaryType := arraybuffer;
     recorderRecording := true; tracksLive := true;
     statusText := LISTENING_TEXT;
     currentAudioSampleRate := JNumber 16000%float;
     avatarController := avatar; avatarCalls := []; started := [];
     dialogueLog := []; errorsLogged := 0; currentPhase := Turn.idle;
     hasDialogueLog := true; audioCtxSuspended := false;
     awaitingResume := []; awaitingRead := [] |}.

Definition call_avatar (c : AvatarCall) (st : State) : State :=
  {| wsStream := wsStream st; binaryType := binaryType st;
     recorderRecording := recorderRecording st;
     tracksLive := tracksLive st; statusText := statusText st;
     currentAudioSampleRate := currentAudioSampleRate st;
     avatarController := avatarController st;
     avatarCalls := avatarCalls st ++ [c]; started := started st;
     dialogueLog := dialogueLog st; errorsLogged := errorsLogged st;
     currentPhase := currentPhase st; hasDialogueLog := hasDialogueLog st;
     audioCtxSuspended := audioCtxSuspended st;
     awaitingResume := awaitingResume st;
     awaitingRead := awaitingRead st |}.

Definition set_rate (r : JsValue) (st : State) : State :=
  {| wsStream := wsStream st; binaryType := binaryType st;
     recorderRecording := recorderRecording st;
     tracksLive := tracksLive st; statusText := statusText st;
     currentAudioSampleRate := r; avatarController := avatarController st;
     avatarCalls := avatarCalls st; started := started st;
     dialogueLog := dialogueLog st; errorsLogged := errorsLogged st;
     currentPhase := currentPhase st; hasDialogueLog := hasDialogueLog st;
     audioCtxSuspended := audioCtxSuspended st;
     awaitingResume := awaitingResume st;
     awaitingRead := awaitingRead st |}.

Definition start_buffer (b : AudioBuffer) (st : State) : State :=
  {| wsStream := wsStream st; binaryType := binaryType st;
     recorderRecording := recorderRecording st;
     tracksLive := tracksLive st; statusText := statusText st;
     currentAudioSampleRate := currentAudioSampleRate st;
     avatarController := avatarController st;
     avatarCalls := avatarCalls st; started := started st ++ [b];
     dialogueLog := dialogueLog st; errorsLogged := errorsLogged st;
     currentPhase := currentPhase st; hasDialogueLog := hasDialogueLog st;
     audioCtxSuspended := audioCtxSuspended st;
     awaitingResume := awaitingResume st;
     awaitingRead := awaitingRead st |}.

Definition log_message (role : string) (text : option string) (st : State) : State :=
  {| wsStream := wsStream st; binaryType := binaryType st;
     recorderRecording := recorderRecording st;
     tracksLive := tracksLive st; statusText := statusText st;
     currentAudioSampleRate := currentAudioSampleRate st;
     avatarController := avatarController st;
     avatarCalls := avatarCalls st; started := started st;
     dialogueLog := dialogueLog st ++ [(role, text)];
     errorsLogged := errorsLogged st; currentPhase := currentPhase st;
     hasDialogueLog := hasDialogueLog st;
     audioCtxSuspended := audioCtxSuspended st;
     awaitingResume := awaitingResume st;
     awaitingRead := awaitingRead st |}.

(** [console.error] in a [catch]. *)
Definition log_error (st : State) : State :=
  {| wsStream := wsStream st; binaryType := binaryType st;
     recorderRecording := recorderRecording st;
     tracksLive := tracksLive st; statusText := statusText st;
     currentAudioSampleRate := currentAudioSampleRate st;
     avatarController := avatarController st;
     avatarCalls := avatarCalls st; started := started st;
     dialogueLog := dialogueLog st; errorsLogged := S (errorsLogged st);
     currentPhase := currentPhase st; hasDialogueLog := hasDialogueLog st;
     audioCtxSuspended := audioCtxSuspended st;
     awaitingResume := awaitingResume st;
     awaitingRead := awaitingRead st |}.

Definition set_awaitingResume (l : list (option string)) (st : State) : State :=
  {| wsStream := wsStream st; binaryType := binaryType st;
     recorderRecording := recorderRecording st;
     tracksLive := tracksLive st; statusText := statusText st;
     currentAudioSampleRate := currentAudioSampleRate st;
     avatarController := avatarController st;
     avatarCalls := avatarCalls st; started := started st;
     dialogueLog := dialogueLog st; errorsLogged := errorsLogged st;
     currentPhase := currentPhase st; hasDialogueLog := hasDialogueLog st;
     audioCtxSuspended := audioCtxSuspended st; awaitingResume := l;
     awaitingRead := awaitingRead st |}.

Definition set_awaitingRead (l : list (list Byte.byte)) (st : State) : State :=
  {| wsStream := wsStream st; binaryType := binaryType st;
     recorderRecording := recorderRecording st;
     tracksLive := tracksLive st; statusText := statusText st;
     currentAudioSampleRate := currentAudioSampleRate st;
     avatarController := avatarController st;
     avatarCalls := avatarCalls st; started := started st;
     dialogueLog := dialogueLog st; errorsLogged := errorsLogged st;
     currentPhase := currentPhase st; hasDialogueLog := hasDialogueLog st;
     audioCtxSuspended := audioCtxSuspended st;
     awaitingResume := awaitingResume st; awaitingRead := l |}.

(** The handler stops at [await audioCtx.resume()]. *)
Definition await_resume (emotion : option string) (st : State) : State :=
  {| wsStream := wsStream st; binaryType := binaryType st;
     recorderRecording := recorderRecording st;
     tracksLive := tracksLive st; statusText := statusText st;
     currentAudioSampleRate := currentAudioSampleRate st;
     avatarController := avatarController st;
     avatarCalls := avatarCalls st; started := started st;
     dialogueLog := dialogueLog st; errorsLogged := errorsLogged st;
     currentPhase := currentPhase st; hasDialogueLog := hasDialogueLog st;
     audioCtxSuspended := audioCtxSuspended st;
     awaitingResume := awaitingResume st ++ [emotion];
     awaitingRead := awaitingRead st |}.

(** The handler stops at [await evt.data.arrayBuffer()]. *)
Definition await_read (arrayBuffer : list Byte.byte) (st : State) : State :=
  {| wsStream := wsStream st; binaryType := binaryType st;
     recorderRecording := recorderRecording st;
     tracksLive := tracksLive st; statusText := statusText st;
     currentAudioSampleRate := currentAudioSampleRate st;
     avatarController := avatarController st;
     avatarCalls := avatarCalls st; started := started st;
     dialogueLog := dialogueLog st; errorsLogged := errorsLogged st;
     currentPhase := currentPhase st; hasDialogueLog := hasDialogueLog st;
     audioCtxSuspended := audioCtxSuspended st;
     awaitingResume := awaitingResume st;
     awaitingRead := awaitingRead st ++ [arrayBuffer] |}.

(** [resume()] is fulfilled: the context runs. *)
Definition resumed (l : list (option string)) (st : State) : State :=
  {| wsStream := wsStream st; binaryType := binaryType st;
     recorderRecording := recorderRecording st;
     tracksLive := tracksLive st; statusText := statusText st;
     currentAudioSampleRate := currentAudioSampleRate st;
     avatarController := avatarController st;
     avatarCalls := avatarCalls st; started := started st;
     dialogueLog := dialogueLog st; errorsLogged := errorsLogged st;
     currentPhase := currentPhase st; hasDialogueLog := hasDialogueLog st;
     audioCtxSuspended := false; awaitingResume := l;
     awaitingRead := awaitingRead st |}.

(** Truthiness of an optional string. *)
Definition truthy (s : option string) : option string :=
  match s with
  | Some EmptyString => None
  | _ => s
  end.

(** Truthiness of a value. *)
Definition is_truthy (v : JsValue) : bool :=
  match v with
  | JAbsent | JNull => false
  | JBool b => b
  | JNumber x => negb (PrimFloat.is_nan x || PrimFloat.is_zero x)
  | JString s => negb (s =? "")
  | JObject _ => true
  end.

(** [obj.sampleRate || 16000] *)
Definition rate_or_default (r : JsValue) : JsValue :=
  if is_truthy r then r else JNumber 16000%float.

(** [evt.data.arrayBuffer()]: a method of [Blob]; an [ArrayBuffer] has
    none, and calling it throws a [TypeError]. *)
Definition arrayBuffer_method (d : EventData) : option (list Byte.byte) :=
  match d with
  | BlobData payload => Some payload
  | _ => None
  end.

Section Handlers.
Variable supportedRate : float -> bool.
Variable startThrows : AudioBuffer -> bool.

(** The number a string converts to. *)
Variable StringToNumber : string -> float.

(** The avatar controller, when there is one, has its analyser (it gets
    it once its model is loaded).  That analyser is a node of the
    controller's own audio context, not of the handlers'. *)
Variable avatarAnalyser : bool.

(** The number [createBuffer] makes of the rate it is given. *)
Definition ToNumber (v : JsValue) : float :=
  match v with
  | JAbsent => nan
  | JNull => 0%float
  | JBool b => if b then 1%float else 0%float
  | JNumber x => x
  | JString s => StringToNumber s
  | JObject asNumber => asNumber
  end.

(** The end of the [audio_start] branch, after the context runs. *)
Definition set_speaking (emotion : option string) (st : State) : State :=
  if avatarController st then
    match truthy emotion with
    | Some e => call_avatar (SetEmotion e) st
    | None => call_avatar (SetEmotion "happy") st
    end
  else st.

(** The binary branch once [evt.data.arrayBuffer()] has resolved. *)
Definition play_chunk (arrayBuffer : list Byte.byte) (st : State) : State :=
  match playPcmChunk supportedRate startThrows arrayBuffer
          (ToNumber (currentAudioSampleRate st)) true
          (if avatarController st && avatarAnalyser
           then ForeignAnalyser else NoAnalyser) with
  | Started b _ => start_buffer b st
  | StartThrew _ _ => st
  | NoContext => st
  | Threw => log_error st
  end.

(** The handler up to its first [await], or to its end. *)
Definition onmessage (st : State) (data : EventData) : State :=
  match data with
  | StringData Unparsable => log_error st
  | StringData (Obj type text emotion gesture sampleRate) =>
      if type =? "user_text" then
        if hasDialogueLog st then log_message "guest" text st
        else log_error st
      else if type =? "answer" then
        if hasDialogueLog st then
          let st := log_message "reception" text st in
          if avatarController st then
            let st := match truthy emotion with
                      | Some e => call_avatar (SetEmotion e) st
                      | None => st
                      end in
            match truthy gesture with
            | Some g => call_avatar (PlayGesture g) st
            | None => st
            end
          else st
        else log_error st
      else if type =? "audio_start" then
        let st := set_rate (rate_or_default sampleRate) st in
        if audioCtxSuspended st then await_resume emotion st
        else set_speaking emotion st
      else if type =? "audio_end" then
        if avatarController st
        then call_avatar (SetEmotion "neutral") st
        else st
      else st
  | _ =>
      match arrayBuffer_method data with
      | None => log_error st
      | Some arrayBuffer => await_read arrayBuffer st
      end
  end.

Definition onclose (st : State) : State :=
  {| wsStream := false; binaryType := binaryType st;
     recorderRecording := false; tracksLive := false;
     statusText := IDLE_TEXT;
     currentAudioSampleRate := currentAudioSampleRate st;
     avatarController := avatarController st;
     avatarCalls := avatarCalls st; started := started st;
     dialogueLog := dialogueLog st; errorsLogged := errorsLogged st;
     currentPhase := currentPhase st;
     hasDialogueLog := hasDialogueLog st;
     audioCtxSuspended := audioCtxSuspended st;
     awaitingResume := awaitingResume st;
     awaitingRead := awaitingRead st |}.

(** The browser wraps a frame according to [binaryType]. *)
Definition deliver (st : State) (f : WireFrame) : EventData :=
  match f with
  | TextFrame m => StringData m
  | BinaryFrame payload =>
      match binaryType st with
      | blob => BlobData payload
      | arraybuffer => ArrayBufferData payload
      end
  end.

Inductive Event :=
| Receive (f : WireFrame)
| Close
| ResumeSettled (ok : bool)   (* the oldest pending [resume()] settles *)
| ReadSettled (i : nat).      (* the pending read number [i] resolves *)

(** Nothing is delivered on a closed channel; a handler that waits goes
    on whenever what it waits for settles, closed channel or not.  A
    [resume()] that is fulfilled leaves the context running; one that is
    rejected ends the handler in its [catch]. *)
Definition step (st : State) (e : Event) : State :=
  match e with
  | Receive f => if wsStream st then onmessage st (deliver st f) else st
  | Close => if wsStream st then onclose st else st
  | ResumeSettled ok =>
      match awaitingResume st with
      | [] => st
      | emotion :: rest =>
          if ok then set_speaking emotion (resumed rest st)
          else log_error (set_awaitingResume rest st)
      end
  | ReadSettled i =>
      match nth_error (awaitingRead st) i with
      | None => st
      | Some arrayBuffer =>
          play_chunk arrayBuffer
            (set_awaitingRead (Turn.remove_nth i (awaitingRead st)) st)
      end
  end.

Definition run (st : State) (events : list Event) : State :=
  fold_left step events st.

End Handlers.

Definition audio_start (rate : float) : Event :=
  Receive (TextFrame (Obj "audio_start" None None None (JNumber rate))).
Definition audio_end : Event :=
  Receive (TextFrame (Obj "audio_end" None None None JAbsent)).

(** The last emotion the avatar was given. *)
Fixpoint last_emotion (acc : option string) (calls : list AvatarCall)
  : option string :=
  match calls with
  | [] => acc
  | SetEmotion e :: rest => last_emotion (Some e) rest
  | PlayGesture _ :: rest => last_emotion acc rest
  end.

End Stream.

(* ------------------------------------------------------------------ *)
(** ** The page: [startPresenceDetection] and [mainLoop]               *)
(* ------------------------------------------------------------------ *)

Module Kiosk.

(** The two mode switches at the head of the script. *)
Definition USE_WEBSOCKET_STREAM : bool := false.
Definition USE_WEBRTC_OPUS : bool := false.

(** With both switches off [mainLoop] runs its presence-gated loop. *)
Definition presence_gated_mode : bool :=
  negb USE_WEBRTC_OPUS && negb USE_WEBSOCKET_STREAM.

(** [faceMesh] is true once [onResults] is installed and the camera loop
    feeds it; [greetedRecently] is [window.__greetedRecently]. *)
Record State := {
  mainLoopStarted : bool;
  faceMesh : bool;
  greetedRecently : bool;
  presence : Presence.State;
  dialogue : Turn.Sys
}.

Definition loaded : State :=
  {| mainLoopStarted := false; faceMesh := false; greetedRecently := false;
     presence := Presence.boot; dialogue := Turn.boot |}.

(** [mainLoop()] up to its first pause. *)
Definition mainLoop (k : State) : State :=
  {| mainLoopStarted := true; faceMesh := faceMesh k;
     greetedRecently := greetedRecently k;
     presence := presence k; dialogue := dialogue k |}.

(** [startPresenceDetection()]: [cameraGranted] is whether the camera's
    [getUserMedia] resolves.  When it rejects, the function starts
    [mainLoop] and returns before the face mesh is created. *)
Definition startPresenceDetection (cameraGranted : bool) (k : State)
  : State :=
  if cameraGranted
  then let k := mainLoop k in
       {| mainLoopStarted := mainLoopStarted k; faceMesh := true;
          greetedRecently := greetedRecently k;
          presence := presence k; dialogue := dialogue k |}
  else mainLoop k.

Inductive Event :=
| Tick                               (* an iteration of [mainLoop] *)
| GreetWindowOver                    (* the 20 s greeting timer fires *)
| RetryClick                         (* the retry button of a toast *)
| Camera (e : Presence.Event)        (* a frame analysed, the hold timer *)
| Dialogue (i : nat) (o : Turn.Outcome)
| LeftoverCallback.

Section Page.
Variable pcfg : Presence.Cfg.
Variable presenceVideo : Presence.Video.

Definition set_dialogue (d : Turn.Sys) (k : State) : State :=
  {| mainLoopStarted := mainLoopStarted k; faceMesh := faceMesh k;
     greetedRecently := greetedRecently k;
     presence := presence k; dialogue := d |}.

Definition set_presence (p : Presence.State) (k : State) : State :=
  {| mainLoopStarted := mainLoopStarted k; faceMesh := faceMesh k;
     greetedRecently := greetedRecently k;
     presence := p; dialogue := dialogue k |}.

Definition set_greeted (b : bool) (k : State) : State :=
  {| mainLoopStarted := mainLoopStarted k; faceMesh := faceMesh k;
     greetedRecently := b;
     presence := presence k; dialogue := dialogue k |}.

Definition is_idle (p : Turn.Phase) : bool :=
  match p with Turn.idle => true | _ => false end.

(** One iteration of the loop of [mainLoop], after its 1.5 s pause. *)
Definition tick (k : State) : State :=
  if presence_gated_mode && mainLoopStarted k
     && Presence.presenceDetected (presence k)
     && is_idle (Turn.currentPhase (Turn.world (dialogue k)))
  then set_dialogue (Turn.step (dialogue k) Turn.CallLoopOnce)
         (set_greeted true k)
  else k.

Definition step (k : State) (e : Event) : State :=
  match e with
  | Tick => tick k
  | GreetWindowOver => set_greeted false k
  | RetryClick =>
      match Turn.toasts (Turn.world (dialogue k)) with
      | O => k
      | S _ => set_dialogue (Turn.step (dialogue k) Turn.CallLoopOnce) k
      end
  | Camera (Presence.Frame t r) =>
      if faceMesh k then
        match Presence.step pcfg presenceVideo (presence k)
                (Presence.Frame t r) with
        | Some p => set_presence p k
        | None => k
        end
      else k
  | Camera (Presence.HoldTimer t) =>
      match Presence.step pcfg presenceVideo (presence k)
              (Presence.HoldTimer t) with
      | Some p => set_presence p k
      | None => k
      end
  | Dialogue i o => set_dialogue (Turn.step (dialogue k) (Turn.Resume i o)) k
  | LeftoverCallback => set_dialogue (Turn.step (dialogue k) Turn.Leftover) k
  end.

Definition run (k : State) (events : list Event) : State :=
  fold_left step events k.

End Page.

(** The page after the camera was refused: the loop runs, no face mesh
    feeds the presence monitor, presence is off with no timer pending,
    and nothing has happened in the dialogue. *)
Definition dormant (k : State) : Prop :=
  mainLoopStarted k = true /\ faceMesh k = false /\
  Presence.presenceDetected (presence k) = false /\
  Presence.presenceTimer (presence k) = None /\
  dialogue k = Turn.boot.

End Kiosk.

(* ------------------------------------------------------------------ *)
(** ** Escaping text for the page: [escapeHtml]                        *)
(* ------------------------------------------------------------------ *)

Module Html.
Import Subtitle String.

(** [s.replace(/c/g, by)] for a single character [c]; none of the
    replacement strings used here holds a [$]. *)
Fixpoint replaceAll (c : char16) (by_ : jsstring) (s : jsstring) : jsstring :=
  match s with
  | [] => []
  | x :: s' =>
      if (x =? c)%N then by_ ++ replaceAll c by_ s'
      else x :: replaceAll c by_ s'
  end.

Definition AMP : char16 := 38%N.    (* ampersand *)
Definition LT : char16 := 60%N.     (* less than *)
Definition GT : char16 := 62%N.     (* greater than *)
Definition QUOT : char16 := 34%N.   (* double quote *)
Definition APOS : char16 := 39%N.   (* single quote *)

Definition escapeHtml (str : jsstring) : jsstring :=
  replaceAll APOS (of_string "&#039;"%string)
    (replaceAll QUOT (of_string "&quot;"%string)
       (replaceAll GT (of_string "&gt;"%string)
          (replaceAll LT (of_string "&lt;"%string)
             (replaceAll AMP (of_string "&amp;"%string) str)))).

(** What one character becomes. *)
Definition escape_char (x : char16) : jsstring :=
  if (x =? AMP)%N then of_string "&amp;"%string
  else if (x =? LT)%N then of_string "&lt;"%string
  else if (x =? GT)%N then of_string "&gt;"%string
  else if (x =? QUOT)%N then of_string "&quot;"%string
  else if (x =? APOS)%N then of_string "&#039;"%string
  else [x].

(** The characters that open or close markup or an attribute value. *)
Definition markup_char (x : char16) : bool :=
  ((x =? LT) || (x =? GT) || (x =? QUOT) || (x =? APOS))%N.

End Html.

(* ------------------------------------------------------------------ *)
(** ** The layout behind [formatSubtitle]                              *)
(* ------------------------------------------------------------------ *)

Module Layout.
Import Subtitle.

(** The loop of [formatSubtitle] read on words instead of characters:
    the lines made so far and the words of the line being filled. *)
Definition layout_step (maxCharsPerLine : nat)
  (st : list (list jsstring) * list jsstring) (w : jsstring)
  : list (list jsstring) * list jsstring :=
  let '(groups, g) := st in
  match g with
  | [] => (groups, [w])
  | _ =>
      if length (join_sp g ++ SP :: w) <=? maxCharsPerLine
      then (groups, g ++ [w])
      else (groups ++ [g], [w])
  end.

(** All the lines, before the cap to three. *)
Definition layout (maxCharsPerLine : nat) (ws : list jsstring)
  : list (list jsstring) :=
  let '(groups, g) := fold_left (layout_step maxCharsPerLine) ws ([], []) in
  match g with
  | [] => groups
  | _ => groups ++ [g]
  end.

(** Every line break is forced: the first word of a line would not have
    fitted at the end of the line before. *)
Fixpoint breaks_forced (maxCharsPerLine : nat)
  (groups : list (list jsstring)) : Prop :=
  match groups with
  | [] => True
  | g :: rest =>
      match rest with
      | (w :: _) :: _ => maxCharsPerLine < length (join_sp g ++ SP :: w)
      | _ => True
      end /\ breaks_forced maxCharsPerLine rest
  end.

(** What the loop on words keeps true. *)
Definition layout_inv (maxCharsPerLine : nat) (ws_done : list jsstring)
  (st : list (list jsstring) * list jsstring) : Prop :=
  let '(groups, g) := st in
  concat groups ++ g = ws_done /\
  Forall (fun g => g <> []) groups /\
  match g with
  | [] => groups = []
  | _ => breaks_forced maxCharsPerLine (groups ++ [g])
  end.

End Layout.

(* ------------------------------------------------------------------ *)
(** ** What a run of the dialogue shows: sends, toasts, status         *)
(* ------------------------------------------------------------------ *)

Module TurnObs.
Import Turn.

(** The outcomes after which [loopOnce] shows an error toast. *)
Definition failed (o : Outcome) : bool :=
  match o with
  | RecordRejected | BackendFailed => true
  | BackendReplied _ domThrows => domThrows
  | PlaySettled ok => negb ok
  | PlaybackOver domThrows => domThrows
  | _ => false
  end.

Definition failure (e : Event) : bool :=
  match e with
  | Resume _ o => failed o
  | _ => false
  end.

Definition failures (events : list Event) : nat :=
  length (filter failure events).

(** The start attempts of a run that find [busy] clear. *)
Fixpoint accepted (s : Sys) (events : list Event) : nat :=
  match events with
  | [] => 0
  | e :: rest =>
      (match e with
       | CallLoopOnce => if busy (world s) then 0 else 1
       | _ => 0
       end) + accepted (step s e) rest
  end.

(** An activation that has not yet reached [sendAudioToBackend]. *)
Definition unsent (pc : Pc) : nat :=
  match pc with
  | AwaitRecord | AwaitVolume _ => 1
  | _ => 0
  end.

(** The blobs a state holds: sent, or carried by an activation. *)
Definition holds (s : Sys) (b : Blob) : Prop :=
  In b (sent (world s)) \/ In (AwaitVolume b) (turns s)
  \/ In (AwaitBackend b) (turns s).

(** The phase and the playing flag that go with an activation's await. *)
Definition phase_of (turns : list Pc) : Phase :=
  match turns with
  | (AwaitRecord | AwaitVolume _) :: _ => listening
  | AwaitBackend _ :: _ => processing
  | (AwaitPlay | AwaitEnded) :: _ => answering
  | [] => idle
  end.

Definition playing_of (turns : list Pc) : bool :=
  match turns with
  | (AwaitPlay | AwaitEnded) :: _ => true
  | _ => false
  end.

Definition is_leftover (e : Event) : bool :=
  match e with Leftover => true | _ => false end.

(** [updateStatusFromState]: the class given to the status indicator. *)
Inductive StatusKey :=
| status_noface | status_answering | status_processing
| status_listening | status_idle.

Definition updateStatusFromState (presenceDetected : bool) (w : World)
  : StatusKey :=
  if negb presenceDetected then status_noface
  else match currentPhase w, isPlayingAudio w with
       | answering, _ | _, true => status_answering
       | processing, false => status_processing
       | listening, false => status_listening
       | idle, false => status_idle
       end.

(** What holds of the globals between two events. *)
Definition settled (s : Sys) : Prop :=
  match turns s with
  | [] => currentPhase (world s) = idle /\ isPlayingAudio (world s) = false
  | pc :: _ => unsent pc = 1 \/ (exists b, pc = AwaitBackend b) ->
               isPlayingAudio (world s) = false
  end.

Definition in_step (s : Sys) : Prop :=
  currentPhase (world s) = phase_of (turns s) /\
  isPlayingAudio (world s) = playing_of (turns s).

End TurnObs.

(* ------------------------------------------------------------------ *)
(** ** The bounded capture: [recordChunk]                              *)
(* ------------------------------------------------------------------ *)

Module Recorder.

Definition Blob := Turn.Blob.

(** Where an activation of [recordChunk] waits: for the microphone, or
    for its recorder to stop. *)
Inductive Capture := AwaitMic | Capturing.

(** How a call was settled. *)
Inductive Settled :=
| Resolved (blob : Blob)
| Rejected.

(** The globals [isRecording] and [chunks], the activations that wait,
    and the calls settled so far, oldest first. *)
Record State := {
  isRecording : bool;
  chunks : list Blob;
  captures : list Capture;
  settled : list Settled
}.

Definition boot : State :=
  {| isRecording := false; chunks := []; captures := []; settled := [] |}.

Inductive Event :=
| Call                              (* [recordChunk(durationMs)] *)
| Mic (i : nat) (granted : bool)    (* [getUserMedia] settles *)
| Data (i : nat) (data : Blob)      (* a [dataavailable] event *)
| Stop (i : nat) (last : Blob).     (* the recorder stops: the timer's
                                       [stop()] or the browser's; the
                                       last data, then [onstop] *)

(** [ondataavailable] *)
Definition ondataavailable (data : Blob) (chunks : list Blob) : list Blob :=
  match data with
  | [] => chunks
  | _ => chunks ++ [data]
  end.

Definition step (s : State) (e : Event) : State :=
  match e with
  | Call =>
      if isRecording s
      then {| isRecording := isRecording s; chunks := chunks s;
              captures := captures s;
              settled := settled s ++ [Rejected] |}
      else {| isRecording := true; chunks := [];
              captures := captures s ++ [AwaitMic];
              settled := settled s |}
  | Mic i granted =>
      match nth_error (captures s) i with
      | Some AwaitMic =>
          if granted
          then {| isRecording := isRecording s; chunks := chunks s;
                  captures := Turn.replace_nth i Capturing (captures s);
                  settled := settled s |}
          else {| isRecording := false; chunks := chunks s;
                  captures := Turn.remove_nth i (captures s);
                  settled := settled s ++ [Rejected] |}
      | _ => s
      end
  | Data i data =>
      match nth_error (captures s) i with
      | Some Capturing =>
          {| isRecording := isRecording s;
             chunks := ondataavailable data (chunks s);
             captures := captures s; settled := settled s |}
      | _ => s
      end
  | Stop i last =>
      match nth_error (captures s) i with
      | Some Capturing =>
          let chunks := ondataavailable last (chunks s) in
          {| isRecording := false; chunks := chunks;
             captures := Turn.remove_nth i (captures s);
             settled := settled s ++ [Resolved (concat chunks)] |}
      | _ => s
      end
  end.

Definition run (s : State) (events : list Event) : State :=
  fold_left step events s.

Definition is_call (e : Event) : bool :=
  match e with Call => true | _ => false end.

Definition calls (events : list Event) : nat :=
  length (filter is_call events).

(** The data of the events addressed to the first activation. *)
Fixpoint data_of (events : list Event) : list Blob :=
  match events with
  | [] => []
  | Data 0 d :: rest => d :: data_of rest
  | _ :: rest => data_of rest
  end.

(** Events that leave a lone capture running: more calls, more data. *)
Definition call_or_data (e : Event) : bool :=
  match e with
  | Call | Data 0 _ => true
  | _ => false
  end.

(** One capture at most, and [isRecording] set exactly while it lasts;
    every call settled but the one that lasts. *)
Definition sound (s : State) (n : nat) : Prop :=
  ((isRecording s = false /\ captures s = [])
   \/ (isRecording s = true /\ exists c, captures s = [c]))
  /\ length (settled s) + length (captures s) = n.

End Recorder.

(* ------------------------------------------------------------------ *)
(** ** Opening the streaming channel: [startWebSocketStreaming]        *)
(* ------------------------------------------------------------------ *)

Module Connect.
Import String.

(** What an attempt on one host comes to: the socket opens; it reports
    an error or stays silent for 1200 ms; or its constructor throws. *)
Inductive Attempt := Opened | Refused | CtorThrew.

(** The handle [wsStream], the hosts tried, and the hosts whose socket
    was closed again, both oldest first. *)
Record State := {
  wsStream : option string;
  tried : list string;
  closed : list string
}.

Definition idle_state : State :=
  {| wsStream := None; tried := []; closed := [] |}.

(** ['127.0.0.1', 'localhost'] *)
Definition candidates : list string := ["127.0.0.1"; "localhost"]%string.

Section Loop.
Variable attempt : string -> Attempt.

(** The [for] loop over the candidates, with its [break]. *)
Fixpoint try_hosts (hosts : list string) (st : State) : State :=
  match hosts with
  | [] => st
  | host :: rest =>
      match attempt host with
      | Opened =>
          {| wsStream := Some host; tried := tried st ++ [host];
             closed := closed st |}
      | Refused =>
          try_hosts rest
            {| wsStream := None; tried := tried st ++ [host];
               closed := closed st ++ [host] |}
      | CtorThrew =>
          try_hosts rest
            {| wsStream := None; tried := tried st ++ [host];
               closed := closed st |}
      end
  end.

(** How the function goes on after the loop. *)
Inductive Mode :=
| AlreadyOpen          (* [if (wsStream) return] *)
| Streaming            (* the handlers are set up *)
| PollingFallback.     (* [while (true)] over [loopOnce] *)

Definition startWebSocketStreaming (hosts : list string) (st : State)
  : Mode * State :=
  match wsStream st with
  | Some _ => (AlreadyOpen, st)
  | None =>
      let st' := try_hosts hosts st in
      match wsStream st' with
      | Some _ => (Streaming, st')
      | None => (PollingFallback, st')
      end
  end.

Definition opens (host : string) : bool :=
  match attempt host with Opened => true | _ => false end.

Definition refused (host : string) : bool :=
  match attempt host with Refused => true | _ => false end.

End Loop.

End Connect.

(* ------------------------------------------------------------------ *)
(** ** Loading the avatar's model: [AvatarController.loadAvatar]       *)
(* ------------------------------------------------------------------ *)

Module AvatarLoad.
Import String.

(** What loading one URL comes to: a VRM model; another glTF model, with
    the meshes met by [traverse], each with or without morph targets; or
    a failure (an error, or 15 s without an answer). *)
Inductive Loaded :=
| VrmModel
| GlbModel (meshesWithMorphTargets : list bool)
| LoadFailed.

Inductive SceneObject :=
| VrmScene (url : string)
| GlbScene (url : string)
| PlaceholderGroup.

(** The fields [loadAvatar] sets: [vrm], [morphTargetMesh] (the index of
    the mesh kept), [readyPlayerMeModel], [placeholder], and what was
    added to the scene, oldest first. *)
Record State := {
  vrm : option string;
  morphTargetMesh : option nat;
  readyPlayerMeModel : option string;
  placeholder : bool;
  scene : list SceneObject
}.

Definition fresh : State :=
  {| vrm := None; morphTargetMesh := None; readyPlayerMeModel := None;
     placeholder := false; scene := [] |}.

Definition defaultModels : list string :=
  ["models/avatar.glb"; "models/avatar.vrm";
   "https://models.readyplayer.me/64bfa15f0e72c63d7c3934a6.glb?morphTargets=ARKit&textureAtlas=1024";
   "https://cdn.glitch.global/29e07830-2317-4b15-a044-135e73c7f840/AvatarSample_B.vrm"
  ]%string.

(** [url ? [url, ...defaultModels] : defaultModels] *)
Definition urlsToTry (url : option string) : list string :=
  match url with
  | Some EmptyString | None => defaultModels
  | Some u => u :: defaultModels
  end.

(** [traverse]: every mesh with morph targets overwrites the one kept. *)
Fixpoint last_morph_mesh (i : nat) (kept : option nat) (meshes : list bool)
  : option nat :=
  match meshes with
  | [] => kept
  | m :: rest => last_morph_mesh (S i) (if m then Some i else kept) rest
  end.

Section Loop.
Variable load : string -> Loaded.

Fixpoint try_models (urls : list string) (st : State) : State :=
  match urls with
  | [] =>
      (* [createPlaceholderAvatar()] *)
      {| vrm := vrm st; morphTargetMesh := morphTargetMesh st;
         readyPlayerMeModel := readyPlayerMeModel st;
         placeholder := true; scene := scene st ++ [PlaceholderGroup] |}
  | modelUrl :: rest =>
      match load modelUrl with
      | VrmModel =>
          {| vrm := Some modelUrl; morphTargetMesh := morphTargetMesh st;
             readyPlayerMeModel := readyPlayerMeModel st;
             placeholder := placeholder st;
             scene := scene st ++ [VrmScene modelUrl] |}
      | GlbModel meshes =>
          {| vrm := vrm st;
             morphTargetMesh :=
               last_morph_mesh 0 (morphTargetMesh st) meshes;
             readyPlayerMeModel := Some modelUrl;
             placeholder := placeholder st;
             scene := scene st ++ [GlbScene modelUrl] |}
      | LoadFailed => try_models rest st
      end
  end.

Definition loadAvatar (url : option string) (st : State) : State :=
  try_models (urlsToTry url) st.

Definition loads (u : string) : bool :=
  match load u with LoadFailed => false | _ => true end.

End Loop.

(** What [updateLipsync] and [setEmotion] act on: the VRM model when
    there is one, else the mesh with morph targets, else the
    placeholder, else nothing. *)
Inductive Driver := ByVrm | ByMorphTargets | ByPlaceholder | ByNothing.

Definition driver (st : State) : Driver :=
  match vrm st, morphTargetMesh st, placeholder st with
  | Some _, _, _ => ByVrm
  | None, Some _, _ => ByMorphTargets
  | None, None, true => ByPlaceholder
  | None, None, false => ByNothing
  end.

End AvatarLoad.

(* ------------------------------------------------------------------ *)
(** ** The test button: [startWebRTCSession] and its click handler     *)
(* ------------------------------------------------------------------ *)

Module Session.

(** The global [pc] (not null), whether the one call that got past the
    guard is still waiting on one of its [await]s, whether the remote
    description was set, the button, and the counts of microphone
    requests and of alerts. *)
Record State := {
  pc : bool;
  pending : bool;
  connected : bool;
  btnDisabled : bool;
  btnActiveText : bool;          (* the text is 'WebRTC active' *)
  micRequests : nat;
  alerts : nat
}.

Definition boot : State :=
  {| pc := false; pending := false; connected := false;
     btnDisabled := false; btnActiveText := false;
     micRequests := 0; alerts := 0 |}.

(** The handler after [await startWebRTCSession()] returned. *)
Definition mark_active (st : State) : State :=
  {| pc := pc st; pending := pending st; connected := connected st;
     btnDisabled := true; btnActiveText := true;
     micRequests := micRequests st; alerts := alerts st |}.

(** The handler's [catch]. *)
Definition alert (st : State) : State :=
  {| pc := pc st; pending := pending st; connected := connected st;
     btnDisabled := btnDisabled st; btnActiveText := btnActiveText st;
     micRequests := micRequests st; alerts := S (alerts st) |}.

Inductive Event :=
| Click (ctorOk : bool)   (* [new RTCPeerConnection()] returns or throws *)
| Settle (ok : bool).     (* the waiting call runs to its end: every
                             await fulfilled and an answer with an SDP,
                             or one of them failed *)

Definition step (st : State) (e : Event) : State :=
  match e with
  | Click ctorOk =>
      if btnDisabled st then st          (* a disabled button is inert *)
      else if pc st then mark_active st  (* [if (pc) return] *)
      else if ctorOk then
        {| pc := true; pending := true; connected := connected st;
           btnDisabled := btnDisabled st; btnActiveText := btnActiveText st;
           micRequests := S (micRequests st); alerts := alerts st |}
      else alert st
  | Settle ok =>
      if pending st then
        if ok then
          mark_active
            {| pc := pc st; pending := false; connected := true;
               btnDisabled := btnDisabled st;
               btnActiveText := btnActiveText st;
               micRequests := micRequests st; alerts := alerts st |}
        else
          alert
            {| pc := pc st; pending := false; connected := connected st;
               btnDisabled := btnDisabled st;
               btnActiveText := btnActiveText st;
               micRequests := micRequests st; alerts := alerts st |}
      else st
  end.

Definition run (st : State) (events : list Event) : State :=
  fold_left step events st.

Definition is_click (e : Event) : bool :=
  match e with Click _ => true | Settle _ => false end.

(** The one attempt has failed. *)
Definition failed (st : State) : bool :=
  pc st && negb (pending st) && negb (connected st).

(** The button is disabled exactly when it carries the active text. *)
Definition marked (st : State) : Prop :=
  btnDisabled st = btnActiveText st.

End Session.

(* ------------------------------------------------------------------ *)
(** ** What the streaming handler shows and uses                        *)
(* ------------------------------------------------------------------ *)

Module StreamObs.
Import Stream String.

(** The line a frame adds to the dialogue log: the [user_text] and
    [answer] branches of [onmessage]. *)
Definition line_of (f : WireFrame) : list (string * option string) :=
  match f with
  | TextFrame (Obj type text _ _ _) =>
      if (type =? "user_text")%string then [("guest"%string, text)]
      else if (type =? "answer")%string then [("reception"%string, text)]
      else []
  | _ => []
  end.

Definition is_close (e : Event) : bool :=
  match e with Close => true | _ => false end.

(** The lines of the frames among the events, in order. *)
Definition lines_of (events : list Event)
  : list (string * option string) :=
  flat_map (fun e => match e with Receive f => line_of f | _ => [] end)
           events.

End StreamObs.

(* ------------------------------------------------------------------ *)
(** ** The avatar's expression: [AvatarController.setEmotion]           *)
(* ------------------------------------------------------------------ *)

Module Emotion.
Import String.

Local Open Scope float_scope.

(** The expressions of a VRM model that the presets name. *)
Inductive Expression := happy | angry | sad | surprised | relaxed.

Definition Expression_eqb (a b : Expression) : bool :=
  match a, b with
  | happy, happy | angry, angry | sad, sad
  | surprised, surprised | relaxed, relaxed => true
  | _, _ => false
  end.

Definition Preset := list (Expression * float).

Definition neutralPreset : Preset :=
  [(happy, 0); (angry, 0); (sad, 0); (surprised, 0); (relaxed, 0)].

(** [this.emotionPresets], by its own keys. *)
Definition emotionPresets (emotion : string) : option Preset :=
  if (emotion =? "neutral")%string then Some neutralPreset
  else if (emotion =? "happy")%string then
    Some [(happy, 1); (angry, 0); (sad, 0); (surprised, 0); (relaxed, 0)]
  else if (emotion =? "surprised")%string then
    Some [(happy, 0); (angry, 0); (sad, 0); (surprised, 1); (relaxed, 0)]
  else if (emotion =? "sad")%string then
    Some [(happy, 0); (angry, 0); (sad, 1); (surprised, 0); (relaxed, 0)]
  else if (emotion =? "thinking")%string then
    Some [(happy, 0); (angry, 0); (sad, 0); (surprised, 0); (relaxed, 0.5)]
  else None.

(** The values of the expression manager, by expression. *)
Definition Expressions := Expression -> float.

Definition setValue (key : Expression) (v : float) (m : Expressions)
  : Expressions :=
  fun k => if Expression_eqb k key then v else m k.

(** [morphTargetInfluences[i] = v] *)
Definition write (i : nat) (v : float) (influences : nat -> float)
  : nat -> float :=
  fun j => if Nat.eqb j i then v else influences j.

(** A mesh with morph targets: the dictionary from names to indices
    (when there is one) and the influences by index. *)
Record MorphMesh := {
  morphTargetDictionary : option (string -> option nat);
  morphTargetInfluences : nat -> float
}.

Definition emotionTargets : list string :=
  ["mouthSmile"; "mouthFrown"; "browInnerUp"; "eyeWideLeft"; "eyeWideRight"
  ]%string.

(** [if (dict[name] !== undefined) influences[dict[name]] = 0] *)
Definition reset_target (dict : string -> option nat)
  (influences : nat -> float) (name : string) : nat -> float :=
  match dict name with
  | Some i => write i 0 influences
  | None => influences
  end.

(** [if (dict[name]) influences[dict[name]] = v]: the index 0 is falsy. *)
Definition set_if_truthy (dict : string -> option nat) (name : string)
  (v : float) (influences : nat -> float) : nat -> float :=
  match dict name with
  | Some (S i) => write (S i) v influences
  | _ => influences
  end.

(** The branch for a mesh with morph targets and a dictionary. *)
Definition morph_branch (dict : string -> option nat) (emotion : string)
  (influences : nat -> float) : nat -> float :=
  let influences := fold_left (reset_target dict) emotionTargets influences in
  if (emotion =? "happy")%string then
    set_if_truthy dict "mouthSmile" 0.7 influences
  else if (emotion =? "sad")%string then
    set_if_truthy dict "mouthFrown" 0.5 influences
  else if (emotion =? "surprised")%string then
    set_if_truthy dict "mouthOpen" 0.6
      (set_if_truthy dict "eyeWideRight" 0.8
         (set_if_truthy dict "eyeWideLeft" 0.8 influences))
  else if (emotion =? "thinking")%string then
    set_if_truthy dict "browInnerUp" 0.4 influences
  else influences.

(** The parts of the placeholder the function moves. *)
Record Vec3 := { vx : float; vy : float; vz : float }.
Record Mouth := { rotation_x : float; mouth_scale : Vec3 }.
Record Eye := { eye_scale : Vec3; position_y : float }.
Record Placeholder := { mouth : Mouth; leftEye : Eye; rightEye : Eye }.

Definition PI : float := 0x1.921fb54442d18p+1.

Definition ones : Vec3 := {| vx := 1; vy := 1; vz := 1 |}.

(** The face [createPlaceholderAvatar] builds. *)
Definition built : Placeholder :=
  {| mouth := {| rotation_x := PI; mouth_scale := ones |};
     leftEye := {| eye_scale := ones; position_y := 1.53 |};
     rightEye := {| eye_scale := ones; position_y := 1.53 |} |}.

Definition set_scale_y (v : float) (e : Eye) : Eye :=
  {| eye_scale := {| vx := vx (eye_scale e); vy := v; vz := vz (eye_scale e) |};
     position_y := position_y e |}.

Definition set_scale (s : Vec3) (e : Eye) : Eye :=
  {| eye_scale := s; position_y := position_y e |}.

Definition set_position_y (v : float) (e : Eye) : Eye :=
  {| eye_scale := eye_scale e; position_y := v |}.

(** The branch for the placeholder. *)
Definition placeholder_branch (emotion : string) (p : Placeholder)
  : Placeholder :=
  if (emotion =? "happy")%string then
    {| mouth := {| rotation_x := PI * 1.15;
                   mouth_scale := {| vx := 1; vy := 1.3; vz := 1 |} |};
       leftEye := set_scale_y 0.7 (leftEye p);
       rightEye := set_scale_y 0.7 (rightEye p) |}
  else if (emotion =? "sad")%string then
    {| mouth := {| rotation_x := PI * 0.85;
                   mouth_scale := {| vx := 1; vy := 0.8; vz := 1 |} |};
       leftEye := set_position_y 1.52 (leftEye p);
       rightEye := set_position_y 1.52 (rightEye p) |}
  else if (emotion =? "surprised")%string then
    {| mouth := {| rotation_x := PI;
                   mouth_scale := {| vx := 1.5; vy := 1.5; vz := 1 |} |};
       leftEye := set_scale {| vx := 1.3; vy := 1.3; vz := 1 |} (leftEye p);
       rightEye := set_scale {| vx := 1.3; vy := 1.3; vz := 1 |} (rightEye p)
    |}
  else if (emotion =? "thinking")%string then
    {| mouth := {| rotation_x := PI;
                   mouth_scale := {| vx := 0.8; vy := 0.8; vz := 1 |} |};
       leftEye := set_position_y 1.54 (leftEye p);
       rightEye := set_position_y 1.54 (rightEye p) |}
  else
    {| mouth := {| rotation_x := PI; mouth_scale := ones |};
       leftEye := set_position_y 1.53 (set_scale ones (leftEye p));
       rightEye := set_position_y 1.53 (set_scale ones (rightEye p)) |}.

(** The controller's fields the function reads and writes: [vrm] with
    its expression manager (a model may have none), the mesh kept by
    [loadAvatar], and the placeholder. *)
Record State := {
  currentEmotion : string;
  vrm : option (option Expressions);
  morphTargetMesh : option MorphMesh;
  placeholder : option Placeholder
}.

Section Controller.

(** The names every object inherits ([constructor], [toString], ...):
    looked up in [emotionPresets] they give a function or an object,
    which is truthy and has no enumerable key of its own. *)
Variable inherited : string -> bool.

(** [Object.entries] of
    [this.emotionPresets[emotion] || this.emotionPresets.neutral]. *)
Definition preset_of (emotion : string) : Preset :=
  match emotionPresets emotion with
  | Some p => p
  | None => if inherited emotion then [] else neutralPreset
  end.

Definition apply_preset (p : Preset) (m : Expressions) : Expressions :=
  fold_left (fun m kv => setValue (fst kv) (snd kv) m) p m.

Definition setEmotion (emotion : string) (st : State) : State :=
  match vrm st with
  | Some (Some manager) =>
      {| currentEmotion := emotion;
         vrm := Some (Some (apply_preset (preset_of emotion) manager));
         morphTargetMesh := morphTargetMesh st;
         placeholder := placeholder st |}
  | _ =>
      match morphTargetMesh st with
      | Some mesh =>
          {| currentEmotion := emotion; vrm := vrm st;
             morphTargetMesh :=
               Some
                 match morphTargetDictionary mesh with
                 | Some dict =>
                     {| morphTargetDictionary := Some dict;
                        morphTargetInfluences :=
                          morph_branch dict emotion
                            (morphTargetInfluences mesh) |}
                 | None => mesh
                 end;
             placeholder := placeholder st |}
      | None =>
          {| currentEmotion := emotion; vrm := vrm st;
             morphTargetMesh := None;
             placeholder :=
               option_map (placeholder_branch emotion) (placeholder st) |}
      end
  end.

End Controller.

(** The emotions with a case of their own in the two [switch]es. *)
Definition has_case (emotion : string) : bool :=
  ((emotion =? "happy") || (emotion =? "sad") || (emotion =? "surprised")
   || (emotion =? "thinking"))%string.

(** The influence the [switch] gives a target of [emotionTargets]. *)
Definition strength (emotion name : string) : float :=
  if (emotion =? "happy")%string then
    if (name =? "mouthSmile")%string then 0.7 else 0
  else if (emotion =? "sad")%string then
    if (name =? "mouthFrown")%string then 0.5 else 0
  else if (emotion =? "surprised")%string then
    if ((name =? "eyeWideLeft") || (name =? "eyeWideRight"))%string
    then 0.8 else 0
  else if (emotion =? "thinking")%string then
    if (name =? "browInnerUp")%string then 0.4 else 0
  else 0.

(** A dictionary with the six names at the indices 1 to 6. *)
Definition arkit (name : string) : option nat :=
  if (name =? "mouthOpen")%string then Some 1%nat
  else if (name =? "mouthSmile")%string then Some 2%nat
  else if (name =? "mouthFrown")%string then Some 3%nat
  else if (name =? "browInnerUp")%string then Some 4%nat
  else if (name =? "eyeWideLeft")%string then Some 5%nat
  else if (name =? "eyeWideRight")%string then Some 6%nat
  else None.

(** The six names the branch looks up. *)
Definition six : list string := ("mouthOpen" :: emotionTargets)%string.

(** The index [j] is the one the dictionary gives [name]. *)
Definition hits (dict : string -> option nat) (name : string) (j : nat)
  : bool :=
  match dict name with
  | Some i => Nat.eqb i j
  | None => false
  end.

End Emotion.

(* ------------------------------------------------------------------ *)
(** ** The region of interest on the settings page: [loadConfig] and
       [saveConfig]                                                     *)
(* ------------------------------------------------------------------ *)

Module Admin.
Import Audio Presence.

Local Open Scope float_scope.

(** [Math.round] of a finite number: the integer nearest to it, the
    upper one of two that are equally near. *)
Definition round (x : float) : option Z :=
  match Q_of_float x with
  | Some q => Some (Qfloor (q + (1 # 2))%Q)
  | None => None
  end.

(** [Math.round((v ?? dflt) * 100)], the whole number a field of the
    region shows. *)
Definition shown (v : option float) (dflt : float) : option Z :=
  round (nullish v dflt * 100).

(** [parseFloat(field.value) / 100] for a field holding a whole number. *)
Definition saved (field : Z) : float := float_of_Z field / 100.

(** The four fields of the region. *)
Record Fields := {
  roi_top : Z; roi_left : Z; roi_width : Z; roi_height : Z
}.

(** [const roi = p.roi || {}], then the four fields. *)
Definition loadConfig (roi : option Roi) : option Fields :=
  match shown (option_map top roi) 0, shown (option_map left roi) 0,
        shown (option_map width roi) 1, shown (option_map height roi) 1 with
  | Some t, Some l, Some w, Some h =>
      Some {| roi_top := t; roi_left := l; roi_width := w; roi_height := h |}
  | _, _, _, _ => None
  end.

Definition saveConfig (f : Fields) : Roi :=
  {| top := saved (roi_top f); left := saved (roi_left f);
     width := saved (roi_width f); height := saved (roi_height f) |}.

(** A whole number of percent is shown again as it was saved. *)
Definition round_trip (p : Z) : bool :=
  match shown (Some (saved p)) 0 with
  | Some p' => (p' =? p)%Z
  | None => false
  end.

Definition percent (p : Z) : Prop := (0 <= p < 1024)%Z.

End Admin.

(* ------------------------------------------------------------------ *)
(** ** The order of the distance tiers                                  *)
(* ------------------------------------------------------------------ *)

Module PresenceObs.
Import Presence.

(** How close a tier is: [far], then [medium], then [near]. *)
Definition closeness (t : Tier) : nat :=
  match t with far => 0 | medium => 1 | near => 2 end.

End PresenceObs.

(* ------------------------------------------------------------------ *)
(** ** The photo avatar's blink: [SimpleAvatarAnimator.updateBlink]     *)
(* ------------------------------------------------------------------ *)

Module Blink.

Local Open Scope float_scope.

(** [this.blink], without its constant [durationsMs]. *)
Record State := {
  active : bool;
  stage : nat;
  stageStart : float;
  nextAt : float
}.

Definition durationsMs : list float := [120; 110; 120; 80].

(** The constructor; [random] is what [Math.random()] returns. *)
Definition init (random : float) : State :=
  {| active := false; stage := 0; stageStart := 0;
     nextAt := 3 + random * 5 |}.

(** [durationsMs[stage]]: [undefined], a NaN in arithmetic, out of
    range. *)
Definition duration_of (stage : nat) : float := nth stage durationsMs nan.

(** One call, at [elapsedSec] seconds: the amount by which the eyes are
    closed, and the state left. *)
Definition updateBlink (elapsedSec random : float) (b : State)
  : float * State :=
  if negb (active b) then
    if nextAt b <=? elapsedSec
    then (0, {| active := true; stage := 0; stageStart := elapsedSec;
                nextAt := nextAt b |})
    else (0, b)
  else
    let stageDur := duration_of (stage b) / 1000 in
    let b :=
      if stageDur <=? elapsedSec - stageStart b
      then {| active := active b; stage := S (stage b);
              stageStart := elapsedSec; nextAt := nextAt b |}
      else b in
    if (4 <=? stage b)%nat
    then (0, {| active := false; stage := stage b;
                stageStart := stageStart b;
                nextAt := elapsedSec + 3 + random * 5 |})
    else (match stage b with
          | 0%nat => 0.5
          | 1%nat => 1
          | 2%nat => 0.5
          | _ => 0
          end, b).

(** The frames drawn: the time of each and the random number at hand. *)
Definition Frame := (float * float)%type.

Fixpoint run (b : State) (frames : list Frame) : list float * State :=
  match frames with
  | [] => ([], b)
  | (elapsedSec, random) :: rest =>
      let '(amount, b') := updateBlink elapsedSec random b in
      let '(amounts, b'') := run b' rest in
      (amount :: amounts, b'')
  end.

(** The blinks that came to their end during the frames. *)
Fixpoint blinks (b : State) (frames : list Frame) : nat :=
  match frames with
  | [] => 0
  | (elapsedSec, random) :: rest =>
      let b' := snd (updateBlink elapsedSec random b) in
      (if active b && negb (active b') then 1 else 0) + blinks b' rest
  end.

(** The eyes are drawn closed. *)
Definition closed (amount : float) : bool := amount =? 1.

Definition amount_ok (amount : float) : bool :=
  (amount =? 0) || (amount =? 0.5) || (amount =? 1).

(** The current blink has already shown the eyes closed. *)
Definition credit (b : State) : nat :=
  if active b && (1 <=? stage b)%nat then 1 else 0.

End Blink.

(* ================================================================== *)
(** * Properties                                                        *)
(* ================================================================== *)

Module SubtitleFacts.
Import Subtitle.

(** *** Words *)

Lemma drop_space_suffix (s : jsstring) :
  exists p, s = p ++ drop_space s /\ forallb is_space p = true.
Proof.
  induction s as [|c s IH]; simpl.
  - exists []. auto.
  - destruct (is_space c) eqn:E.
    + destruct IH as (p & Hp & Hsp). exists (c :: p). simpl.
      rewrite E, Hsp. split; [congruence | reflexivity].
    + exists []. auto.
Qed.

Lemma drop_space_head (s : jsstring) :
  match drop_space s with [] => True | c :: _ => is_space c = false end.
Proof.
  induction s as [|c s IH]; simpl; auto.
  destruct (is_space c) eqn:E; auto.
Qed.

Lemma ends_ok_snoc (s : jsstring) (c : char16) :
  is_space c = false -> ends_ok (s ++ [c]) = true.
Proof.
  intros Hc. induction s as [|a s IH]; simpl.
  - now rewrite Hc.
  - destruct (s ++ [c]) eqn:E; [now destruct s | exact IH].
Qed.

Lemma trim_shape (s : jsstring) :
  trim s = [] \/
  (ends_ok (trim s) = true /\
   exists c t, trim s = c :: t /\ is_space c = false).
Proof.
  unfold trim.
  destruct (drop_space_suffix (rev (drop_space s))) as (p & Hp & _).
  pose proof (drop_space_head (rev (drop_space s))) as Hh.
  destruct (drop_space (rev (drop_space s))) as [|c v] eqn:E; [now left|].
  right. simpl. split; [now apply ends_ok_snoc|].
  assert (Hu : drop_space s = (rev v ++ [c]) ++ rev p).
  { rewrite <- (rev_involutive (drop_space s)), Hp, rev_app_distr.
    reflexivity. }
  pose proof (drop_space_head s) as Hs. rewrite Hu in Hs.
  destruct (rev v ++ [c]) as [|a t] eqn:Et.
  - now destruct (rev v).
  - exists a, t. split; [reflexivity | exact Hs].
Qed.

Lemma tokens_go_drop (s : jsstring) :
  tokens_go [] (drop_space s) = tokens_go [] s.
Proof.
  induction s as [|c s IH]; simpl; auto.
  destruct (is_space c) eqn:E; auto. simpl. now rewrite E.
Qed.

Lemma tokens_go_spaces (p cur : jsstring) :
  forallb is_space p = true ->
  tokens_go cur p = match cur with [] => [] | _ => [rev cur] end.
Proof.
  revert cur. induction p as [|c p IH]; intros cur H; simpl in *; auto.
  apply andb_prop in H as [Hc Hp]. rewrite Hc.
  rewrite (IH [] Hp). now destruct cur.
Qed.

Lemma tokens_go_trailing (s p cur : jsstring) :
  forallb is_space p = true ->
  tokens_go cur (s ++ p) = tokens_go cur s.
Proof.
  intros Hp. revert cur. induction s as [|c s IH]; intros cur; simpl.
  - now apply tokens_go_spaces.
  - destruct (is_space c); [destruct cur|]; now rewrite IH.
Qed.

Lemma forallb_rev {A} (f : A -> bool) (l : list A) :
  forallb f (rev l) = forallb f l.
Proof.
  induction l as [|a l IH]; simpl; auto.
  rewrite forallb_app, IH. simpl. rewrite andb_true_r. apply andb_comm.
Qed.

Lemma tokens_trim (s : jsstring) : tokens (trim s) = tokens s.
Proof.
  unfold tokens, trim.
  destruct (drop_space_suffix (rev (drop_space s))) as (p & Hp & Hsp).
  rewrite <- (tokens_go_drop s).
  rewrite <- (rev_involutive (drop_space s)) at 2.
  rewrite Hp at 2. rewrite rev_app_distr.
  rewrite tokens_go_trailing; [reflexivity|].
  now rewrite forallb_rev.
Qed.

(** On a string whose ends are not whitespace, [split] reads the words. *)
Lemma split_go_tokens (s : jsstring) : forall inrun cur,
  ends_ok s = true ->
  (inrun = true -> cur = []) ->
  (cur = [] -> match s with
               | [] => False
               | c :: _ => inrun = true \/ is_space c = false
               end) ->
  split_go inrun cur s = tokens_go cur s.
Proof.
  induction s as [|c s IH]; intros inrun cur He Hrun Hcur; simpl.
  - destruct cur; [now exfalso; apply Hcur | reflexivity].
  - assert (He' : ends_ok s = true).
    { simpl in He. destruct s; [reflexivity | exact He]. }
    destruct (is_space c) eqn:E.
    + assert (Hs : s <> []).
      { intros ->. simpl in He. rewrite E in He. discriminate. }
      assert (IH' : split_go true [] s = tokens_go [] s).
      { apply IH; auto. intros _. destruct s; [congruence | now left]. }
      destruct inrun.
      * rewrite (Hrun eq_refl). exact IH'.
      * destruct cur as [|a cur].
        { destruct (Hcur eq_refl); congruence. }
        now rewrite IH'.
    + apply IH; auto; discriminate.
Qed.

Lemma tokens_go_cons_ne (t : jsstring) : forall c cur,
  tokens_go (c :: cur) t <> [].
Proof.
  induction t as [|a t IH]; intros c cur; simpl; [discriminate|].
  destruct (is_space a); [discriminate | apply IH].
Qed.

Lemma words_tokens (text : option jsstring) :
  words text =
  match tokens (match text with Some s => s | None => [] end) with
  | [] => [[]]
  | l => l
  end.
Proof.
  unfold words. set (s := match text with Some s => s | None => [] end).
  rewrite <- (tokens_trim s).
  destruct (trim_shape s) as [H | (He & c & t & Hct & Hc)].
  - rewrite H. reflexivity.
  - unfold split_ws, tokens. rewrite split_go_tokens; auto.
    + rewrite Hct. simpl. rewrite Hc.
      pose proof (@tokens_go_cons_ne t c []) as Hne.
      now destruct (tokens_go [c] t).
    + rewrite Hct. intros _. now right.
Qed.

Lemma tokens_go_words (s : jsstring) : forall cur,
  forallb (fun c => negb (is_space c)) cur = true ->
  Forall is_word (tokens_go cur s).
Proof.
  assert (Hrev : forall cur : jsstring, cur <> [] ->
            forallb (fun c => negb (is_space c)) cur = true ->
            is_word (rev cur)).
  { intros cur Hne Hc. split.
    - intros E. apply Hne. now rewrite <- (rev_involutive cur), E.
    - now rewrite forallb_rev. }
  induction s as [|c s IH]; intros cur Hcur; simpl.
  - destruct cur; constructor; [apply Hrev; [discriminate | exact Hcur] | constructor].
  - destruct (is_space c) eqn:E.
    + destruct cur; [now apply IH|].
      constructor; [apply Hrev; [discriminate | exact Hcur] | now apply IH].
    + apply IH. simpl. now rewrite E, Hcur.
Qed.

Lemma tokens_words (s : jsstring) : Forall is_word (tokens s).
Proof. now apply tokens_go_words. Qed.

(** *** Lines *)

Lemma join_sp_snoc (g : list jsstring) (w : jsstring) :
  g <> [] -> join_sp (g ++ [w]) = join_sp g ++ SP :: w.
Proof.
  induction g as [|a g IH]; intros Hg; [congruence|].
  destruct g as [|b g]; [reflexivity|].
  change (join_sp ((a :: b :: g) ++ [w]))
    with (a ++ SP :: join_sp ((b :: g) ++ [w])).
  rewrite IH by discriminate.
  change (join_sp (a :: b :: g)) with (a ++ SP :: join_sp (b :: g)).
  now rewrite <- app_assoc.
Qed.

Lemma join_sp_nil (g : list jsstring) :
  Forall (fun w => w <> []) g -> join_sp g = [] -> g = [].
Proof.
  intros Hg Hj. destruct g as [|a g]; [reflexivity|].
  inversion Hg as [|? ? Ha _]; subst. exfalso. apply Ha.
  destruct g; simpl in Hj; [exact Hj|].
  now destruct a.
Qed.

Section Wrap.
Variable maxCharsPerLine : nat.

Lemma wrap_fold (ws : list jsstring) :
  Forall (fun w => w <> []) ws ->
  forall groups g,
    Forall (fun g => g <> []) groups ->
    Forall (fits maxCharsPerLine) groups ->
    fits maxCharsPerLine g ->
    Forall (fun w => w <> []) g ->
    exists groups' g',
      fold_left (wrap_step maxCharsPerLine) ws
        (map join_sp groups, join_sp g) = (map join_sp groups', join_sp g')
      /\ concat groups' ++ g' = (concat groups ++ g) ++ ws
      /\ Forall (fun g => g <> []) groups'
      /\ Forall (fits maxCharsPerLine) groups'
      /\ fits maxCharsPerLine g'
      /\ Forall (fun w => w <> []) g'.
Proof.
  induction 1 as [|w ws Hw Hws IH]; intros groups g Hne Hfit Hg Hgw.
  - exists groups, g. rewrite app_nil_r. auto 10.
  - simpl. destruct (length (join_sp g) =? 0) eqn:E0.
    + apply Nat.eqb_eq, length_zero_iff_nil, join_sp_nil in E0; auto.
      subst g. rewrite app_nil_r.
      destruct (IH groups [w]) as (gs' & g' & H1 & H2 & H3); auto.
      { intros Hl. simpl in Hl. lia. }
      exists gs', g'. split; [exact H1|]. split; [|exact H3].
      rewrite H2, <- app_assoc. reflexivity.
    + assert (Hgne : g <> []).
      { intros ->. discriminate. }
      destruct (length (join_sp g ++ SP :: w) <=? maxCharsPerLine) eqn:E1.
      * rewrite <- join_sp_snoc by exact Hgne.
        destruct (IH groups (g ++ [w])) as (gs' & g' & H1 & H2 & H3); auto.
        { intros _. rewrite join_sp_snoc by exact Hgne.
          now apply Nat.leb_le. }
        { apply Forall_app. auto. }
        exists gs', g'. split; [exact H1|]. split; [|exact H3].
        rewrite H2, <- !app_assoc. reflexivity.
      * change (map join_sp groups ++ [join_sp g])
          with (map join_sp groups ++ map join_sp [g]).
        rewrite <- map_app.
        destruct (IH (groups ++ [g]) [w]) as (gs' & g' & H1 & H2 & H3); auto.
        { apply Forall_app. auto. }
        { apply Forall_app. auto. }
        { intros Hl. simpl in Hl. lia. }
        exists gs', g'. split; [exact H1|]. split; [|exact H3].
        rewrite H2, concat_app. simpl. rewrite !app_nil_r, <- !app_assoc.
        reflexivity.
Qed.

(** The lines before the cap to three. *)
Lemma wrap_all (ws : list jsstring) :
  Forall (fun w => w <> []) ws ->
  exists groups,
    (let '(lines, current) :=
       fold_left (wrap_step maxCharsPerLine) ws ([], []) in
     if length current =? 0 then lines else lines ++ [current])
    = map join_sp groups
    /\ concat groups = ws
    /\ Forall (fun g => g <> []) groups
    /\ Forall (fits maxCharsPerLine) groups.
Proof.
  intros Hws.
  destruct (@wrap_fold ws Hws [] []) as (gs & g & H1 & H2 & H3 & H4 & H5 & H6);
    auto.
  { intros Hl. simpl in Hl. lia. }
  simpl in H2.
  change (map join_sp [], join_sp [])
    with (@nil jsstring, @nil char16) in H1.
  rewrite H1.
  destruct (length (join_sp g) =? 0) eqn:E0.
  - apply Nat.eqb_eq, length_zero_iff_nil, join_sp_nil in E0; auto.
    subst g. rewrite app_nil_r in H2. exists gs. auto.
  - assert (Hgne : g <> []) by (intros ->; discriminate).
    exists (gs ++ [g]). rewrite map_app, concat_app. simpl.
    rewrite app_nil_r. repeat split; auto; apply Forall_app; auto.
Qed.

End Wrap.

Lemma firstn_concat_prefix {A} (n : nat) (groups : list (list A)) :
  prefix_of (concat (firstn n groups)) (concat groups).
Proof.
  exists (concat (skipn n groups)).
  now rewrite <- concat_app, firstn_skipn.
Qed.

Lemma Forall_firstn {A} (P : A -> Prop) (n : nat) (l : list A) :
  Forall P l -> Forall P (firstn n l).
Proof.
  intros H. rewrite <- (firstn_skipn n l) in H.
  now apply Forall_app in H.
Qed.

(** C10. For every input string (or a missing one) and every limit,
    [formatSubtitle] returns at most three lines; the lines are groups of
    whole whitespace-separated words of the input, joined by single spaces,
    taken in the input's order (the groups, laid end to end, are an initial
    segment of the input's words); a line of more than one word is no
    longer than the limit, and a line longer than the limit is one single
    word that is itself longer than the limit. *)
Theorem formatSubtitle_lines (text : option jsstring) (maxCharsPerLine : nat) :
  let input := match text with Some s => s | None => [] end in
  let lines := formatSubtitle text maxCharsPerLine in
  length lines <= 3 /\
  Forall is_word (tokens input) /\
  exists groups,
    lines = map join_sp groups /\
    Forall (fun g => g <> []) groups /\
    prefix_of (concat groups) (tokens input) /\
    Forall (fun g => 1 < length g ->
                     length (join_sp g) <= maxCharsPerLine) groups /\
    Forall (fun g => maxCharsPerLine < length (join_sp g) ->
                     exists w, g = [w] /\ maxCharsPerLine < length w) groups.
Proof.
  intros input lines.
  split.
  { subst lines. unfold formatSubtitle.
    destruct (fold_left (wrap_step maxCharsPerLine) (words text) ([], [])).
    apply firstn_le_length. }
  split; [apply tokens_words|].
  assert (Hlong : forall gs : list (list jsstring),
            Forall (fun g => g <> []) gs ->
            Forall (fits maxCharsPerLine) gs ->
            Forall (fun g => maxCharsPerLine < length (join_sp g) ->
                     exists w, g = [w] /\ maxCharsPerLine < length w) gs).
  { intros gs Hne Hfit. rewrite Forall_forall in *. intros g Hin Hlen.
    specialize (Hne g Hin). specialize (Hfit g Hin). unfold fits in Hfit.
    destruct g as [|w [|w' g]]; [congruence | |].
    2:{ assert (Hl : 1 < length (w :: w' :: g)) by (simpl; lia).
        specialize (Hfit Hl). lia. }
    exists w. split; [reflexivity | exact Hlen]. }
  subst lines. unfold formatSubtitle. rewrite words_tokens. fold input.
  destruct (tokens input) as [|w ws] eqn:Et.
  - exists []. simpl. repeat split; auto. exists []. reflexivity.
  - assert (Hws : Forall (fun w => w <> []) (w :: ws)).
    { rewrite <- Et. eapply Forall_impl; [|apply tokens_words].
      now intros a [Ha _]. }
    destruct (wrap_all maxCharsPerLine Hws) as (gs & H1 & H2 & H3 & H4).
    exists (firstn 3 gs).
    destruct (fold_left (wrap_step maxCharsPerLine) (w :: ws) ([], []))
      as [ls current].
    rewrite H1, firstn_map. split; [reflexivity|].
    split; [now apply Forall_firstn|].
    split; [rewrite <- H2; apply firstn_concat_prefix|].
    split; [now apply Forall_firstn|].
    apply Hlong; now apply Forall_firstn.
Qed.

Example is_space_samples :
  map is_space [9; 13; 14; 32; 65; 160; 8192; 8202; 8203; 12288; 65279]%N
  = [true; true; false; true; false; true; true; true; false; true; true].
Proof. reflexivity. Qed.

Example split_keeps_empty_ends :
  split_ws [32; 97; 32; 9; 98; 32]%N = [[]; [97]; [98]; []]%N
  /\ split_ws [] = [[]]
  /\ words (Some [32; 97; 32; 9; 98; 32]%N) = [[97]; [98]]%N.
Proof. repeat split. Qed.

Import String.

(** A reply of nine words wrapped at 16 characters: three lines, the
    rest is cut; and a word longer than the limit alone on its line. *)
Example formatSubtitle_wraps :
  formatSubtitle
    (Some (of_string "  the  office is on the second floor, room 12 "%string))
    16
  = map of_string ["the office is on"; "the second"; "floor, room 12"]%string.
Proof. vm_compute. reflexivity. Qed.

Example formatSubtitle_long_word :
  formatSubtitle (Some (of_string "a extraordinarily b"%string)) 5
  = map of_string ["a"; "extraordinarily"; "b"]%string.
Proof. vm_compute. reflexivity. Qed.

Example formatSubtitle_blank :
  formatSubtitle (Some (of_string "   "%string)) DEFAULT_MAX_CHARS = []
  /\ formatSubtitle None DEFAULT_MAX_CHARS = [].
Proof. split; reflexivity. Qed.

End SubtitleFacts.

(* ------------------------------------------------------------------ *)

Module AudioFacts.
Import Audio.

(** *** The streaming trigger *)

Lemma check_loud (c : nat) (w : list float) :
  loud w = true -> check c w = (S c, (REQUIRED_FRAMES <=? S c)).
Proof. unfold check, loud. now intros ->. Qed.

Lemma check_quiet (c : nat) (w : list float) :
  loud w = false -> check c w = (0, false).
Proof. unfold check, loud. now intros ->. Qed.

(** When the wait resolves after [k] windows, either every window
    sampled since the count stood at [c] reached the threshold, or the
    last three did. *)
Lemma await_trigger_some (windows : list (list float)) : forall c k,
  await_trigger c windows = Some k ->
  1 <= k <= length windows /\
  ((REQUIRED_FRAMES <= c + k /\
    forall i, i < k -> loud (nth i windows []) = true)
   \/ (3 <= k /\
       forall i, k - 3 <= i < k -> loud (nth i windows []) = true)).
Proof.
  induction windows as [|w rest IH]; intros c k H; [discriminate|].
  cbn [await_trigger] in H.
  destruct (loud w) eqn:Hw.
  - rewrite (check_loud c Hw) in H.
    destruct (REQUIRED_FRAMES <=? S c) eqn:Hc.
    + injection H as <-. apply Nat.leb_le in Hc. simpl. split; [lia|].
      left. split; [lia|]. intros i Hi. now replace i with 0 by lia.
    + destruct (await_trigger (S c) rest) as [k'|] eqn:Hk; [|discriminate].
      injection H as <-. destruct (IH _ _ Hk) as (Hb & Hd). simpl.
      split; [lia|]. destruct Hd as [(Hn & Hall) | (Hn & Hlast)].
      * left. split; [lia|]. intros [|i] Hi; [exact Hw | apply Hall; lia].
      * right. split; [lia|]. intros [|i] Hi; [exact Hw | apply Hlast; lia].
  - rewrite (check_quiet c Hw) in H.
    destruct (await_trigger 0 rest) as [k'|] eqn:Hk; [|discriminate].
    injection H as <-. destruct (IH _ _ Hk) as (Hb & Hd). simpl.
    split; [lia|]. right.
    destruct Hd as [(Hn & Hall) | (Hn & Hlast)]; unfold REQUIRED_FRAMES in *.
    + split; [lia|]. intros [|i] Hi; [lia | apply Hall; lia].
    + split; [lia|]. intros [|i] Hi; [lia | apply Hlast; lia].
Qed.

(** C4. In streaming mode the recorder emits only once the wait has
    resolved, and the wait resolves only at a window that, with the two
    sampled just before it, makes three consecutive windows of RMS at
    least 0.02; a window below the threshold puts the counter back to
    zero; so a sequence of windows with no three consecutive ones at the
    threshold never starts emission, and in particular a window at the
    threshold followed by one below it does not. *)
Theorem streaming_trigger_three_consecutive :
  (forall windows k,
     await_trigger 0 windows = Some k ->
     3 <= k <= length windows /\
     forall i, k - 3 <= i < k -> loud (nth i windows []) = true) /\
  (forall windows, emitting windows = true ->
     exists k, await_trigger 0 windows = Some k) /\
  (forall c w, loud w = false -> fst (check c w) = 0) /\
  (forall c w, loud w = true -> fst (check c w) = S c) /\
  (forall windows,
     (forall i, i + 3 <= length windows ->
        loud (nth i windows []) && loud (nth (i + 1) windows [])
        && loud (nth (i + 2) windows []) = false) ->
     emitting windows = false) /\
  (forall w1 w2, loud w1 = true -> loud w2 = false ->
     emitting [w1; w2] = false).
Proof.
  assert (H3 : forall windows k,
     await_trigger 0 windows = Some k ->
     3 <= k <= length windows /\
     forall i, k - 3 <= i < k -> loud (nth i windows []) = true).
  { intros windows k H.
    destruct (await_trigger_some _ _ H) as (Hb & [(Hn & Hall) | (Hn & Hl)]);
      unfold REQUIRED_FRAMES in *.
    - split; [lia|]. intros i Hi. apply Hall. lia.
    - split; [lia | exact Hl]. }
  assert (Hnone : forall windows,
     (forall i, i + 3 <= length windows ->
        loud (nth i windows []) && loud (nth (i + 1) windows [])
        && loud (nth (i + 2) windows []) = false) ->
     emitting windows = false).
  { intros windows Hno. unfold emitting.
    destruct (await_trigger 0 windows) as [k|] eqn:Hk; [|reflexivity].
    destruct (H3 _ _ Hk) as (Hb & Hl).
    specialize (Hno (k - 3)). rewrite !Hl in Hno by lia.
    simpl in Hno. assert (k - 3 + 3 <= length windows) by lia. auto. }
  split; [exact H3|]. repeat split.
  - intros windows He. unfold emitting in He.
    destruct (await_trigger 0 windows) as [k|]; [now exists k | discriminate].
  - intros c w Hw. now rewrite (check_quiet c Hw).
  - intros c w Hw. now rewrite (check_loud c Hw).
  - exact Hnone.
  - intros w1 w2 H1 H2. apply Hnone. simpl. intros i Hi. lia.
Qed.

Example trigger_after_three :
  await_trigger 0 [[0.5; -0.5]; [0.5; 0.5]; [0.1; 0.1]]%float = Some 3.
Proof. vm_compute. reflexivity. Qed.

Example trigger_reset_by_quiet_window :
  await_trigger 0
    [[0.5; -0.5]; [0.5; 0.5]; [0.001; 0]; [0.5; 0.5]; [0.5; 0.5]]%float
  = None.
Proof. vm_compute. reflexivity. Qed.

(** *** The PCM decoder *)

Lemma all_in_spec (f : Z -> bool) : forall k lo,
  all_in k lo f = true ->
  forall z, (lo <= z < lo + 2 ^ Z.of_nat k)%Z -> f z = true.
Proof.
  induction k as [|k IH]; intros lo H z Hz; simpl in H.
  - change (2 ^ Z.of_nat 0)%Z with 1%Z in Hz.
    now replace z with lo by lia.
  - apply andb_prop in H as [H1 H2].
    rewrite Nat2Z.inj_succ, Z.pow_succ_r in Hz by lia.
    destruct (Z_lt_ge_dec z (lo + 2 ^ Z.of_nat k)).
    + apply (IH lo H1). lia.
    + apply (IH _ H2). lia.
Qed.

Lemma sample_exact_all : all_in 16 (-32768)%Z sample_exact = true.
Proof. vm_compute. reflexivity. Qed.

(** Every 16-bit sample is stored without rounding. *)
Lemma sample_of_int16_exact (v : Z) :
  is_int16 v ->
  exists q, Q_of_float (sample_of_int16 v) = Some q /\
            (q == v # 32768)%Q /\ (-1 <= q)%Q /\ (q < 1)%Q.
Proof.
  intros Hv.
  assert (H : sample_exact v = true).
  { apply (@all_in_spec sample_exact 16 (-32768)%Z sample_exact_all).
    unfold is_int16 in Hv. change (2 ^ Z.of_nat 16)%Z with 65536%Z. lia. }
  unfold sample_exact in H.
  destruct (Q_of_float (sample_of_int16 v)) as [q|]; [|discriminate].
  apply andb_prop in H as [H H3]. apply andb_prop in H as [H1 H2].
  exists q. split; [reflexivity|].
  split; [now apply Qeq_bool_iff|].
  split; [now apply Qle_bool_iff|].
  apply Qnot_le_lt. intros Hle. apply Qle_bool_iff in Hle.
  now rewrite Hle in H3.
Qed.

Lemma int16_of_bytes_range (lo hi : Byte.byte) :
  is_int16 (int16_of_bytes lo hi).
Proof.
  unfold is_int16, int16_of_bytes.
  pose proof (Byte.to_N_bounded lo). pose proof (Byte.to_N_bounded hi).
  destruct (Z.ltb_spec (Z.of_N (Byte.to_N lo) + 256 * Z.of_N (Byte.to_N hi))
              32768); lia.
Qed.

(** Induction over a byte buffer two bytes at a time. *)
Lemma pair_ind {A} (P : list A -> Prop) :
  P [] -> (forall a, P [a]) ->
  (forall a b l, P l -> P (a :: b :: l)) ->
  forall l, P l.
Proof.
  intros H0 H1 H2.
  assert (H : forall l, P l /\ forall a, P (a :: l)).
  { induction l as [|b l [IH1 IH2]]; split; auto. }
  apply H.
Qed.

Lemma Int16Array_some (buf : list Byte.byte) :
  Nat.even (length buf) = true ->
  exists int16, Int16Array buf = Some int16.
Proof.
  induction buf as [| a | a b l IH] using pair_ind; intros He.
  - now exists [].
  - discriminate.
  - destruct (IH He) as (ws & Hws).
    exists (int16_of_bytes a b :: ws).
    change (Int16Array (a :: b :: l))
      with (option_map (cons (int16_of_bytes a b)) (Int16Array l)).
    now rewrite Hws.
Qed.

Lemma Int16Array_words (buf : list Byte.byte) : forall int16,
  Int16Array buf = Some int16 ->
  2 * length int16 = length buf /\ Forall is_int16 int16.
Proof.
  induction buf as [| a | a b l IH] using pair_ind; intros ws H.
  - injection H as <-. split; [reflexivity | constructor].
  - discriminate.
  - change (Int16Array (a :: b :: l))
      with (option_map (cons (int16_of_bytes a b)) (Int16Array l)) in H.
    destruct (Int16Array l) as [ws'|]; [|discriminate].
    injection H as <-. destruct (IH ws' eq_refl) as (Hl & Hr).
    split; [simpl; lia|].
    constructor; [apply int16_of_bytes_range | exact Hr].
Qed.

Section Decoder.
Variable supportedRate : float -> bool.
Variable startThrows : AudioBuffer -> bool.
Hypothesis start_runs : forall b, startThrows b = false.

(** What [playPcmChunk] does with a buffer of whole 16-bit words, played
    straight to the destination: the buffer it starts has one channel,
    the given rate and one sample per word, and sample [i] is exactly
    [int16[i] / 32768]. *)
Lemma playPcmChunk_decodes (arrayBuffer : list Byte.byte) (rate : float) :
  Nat.even (length arrayBuffer) = true -> arrayBuffer <> [] ->
  supportedRate rate = true ->
  exists int16 b,
    Int16Array arrayBuffer = Some int16 /\
    playPcmChunk supportedRate startThrows arrayBuffer rate true NoAnalyser
    = Started b false /\
    numberOfChannels b = 1 /\ sampleRate b = rate /\
    bufferLength b = length int16 /\
    2 * bufferLength b = length arrayBuffer /\
    length (channelData b) = length int16 /\
    forall i, i < length int16 ->
      exists q,
        Q_of_float (nth i (channelData b) 0%float) = Some q /\
        (q == nth i int16 0%Z # 32768)%Q /\ (-1 <= q)%Q /\ (q < 1)%Q.
Proof.
  intros He Hne Hrate.
  destruct (Int16Array_some arrayBuffer He) as (int16 & Hv).
  destruct (Int16Array_words arrayBuffer Hv) as (Hlen & Hrange).
  assert (Hn : length int16 <> 0).
  { destruct arrayBuffer; [congruence | simpl in Hlen; lia]. }
  exists int16.
  exists {| numberOfChannels := 1; bufferLength := length int16;
            sampleRate := rate;
            channelData := map sample_of_int16 int16 |}.
  split; [exact Hv|]. split.
  { unfold playPcmChunk, createBuffer. simpl. rewrite Hv, length_map, Hrate.
    apply Nat.eqb_neq in Hn. rewrite Hn. simpl. now rewrite start_runs. }
  simpl. repeat split; auto using length_map.
  intros i Hi.
  change 0%float with (sample_of_int16 0) at 1.
  rewrite map_nth. apply sample_of_int16_exact.
  rewrite Forall_forall in Hrange. apply Hrange. now apply nth_In.
Qed.

Lemma duration_16000 (b : AudioBuffer) :
  sampleRate b = 16000%float ->
  exists q, duration b = Some q /\
            (q == Z.of_nat (bufferLength b) # 16000)%Q.
Proof.
  intros Hr. unfold duration. rewrite Hr.
  change (Q_of_float 16000)
    with (Some (8796093022208000 # 549755813888)%Q).
  eexists. split; [reflexivity|].
  unfold Qeq, Qdiv, Qmult, Qinv, inject_Z. simpl. lia.
Qed.

(** Chunks of whole 16-bit words at 16 kHz: the buffers started last,
    together, as long as the samples received, [N / 16000] seconds. *)
Lemma play_all_duration (chunks : list (list Byte.byte)) :
  supportedRate 16000%float = true ->
  Forall (fun c => Nat.even (length c) = true) chunks ->
  exists q N,
    total_duration (play_all supportedRate startThrows chunks 16000%float)
    = Some q /\
    2 * N = total_bytes chunks /\
    (q == Z.of_nat N # 16000)%Q.
Proof.
  intros Hrate. induction 1 as [|c chunks Hc _ IH].
  - exists 0%Q, 0. repeat split. 
  - destruct IH as (q & N & Hq & HN & Heq).
    destruct c as [|a c'] eqn:Ec.
    + exists q, N. repeat split; assumption.
    + rewrite <- Ec in *.
      assert (Hne : c <> []) by (rewrite Ec; discriminate).
      destruct (@playPcmChunk_decodes c 16000%float Hc Hne Hrate)
        as (int16 & b & _ & Hp & _ & Hr & Hl & Hl2 & _).
      destruct (duration_16000 b Hr) as (d & Hd & Hdq).
      exists (d + q)%Q, (bufferLength b + N).
      split.
      { simpl. rewrite Hp. simpl. now rewrite Hd, Hq. }
      split.
      { unfold total_bytes in *. simpl. lia. }
      rewrite Hdq, Heq. unfold Qeq, Qplus. simpl. lia.
Qed.

End Decoder.

(** Four bytes, two samples: 16384 and -16384, a half and minus a half. *)
Example playPcmChunk_two_samples :
  playPcmChunk (fun _ => true) (fun _ => false)
    [Byte.x00; Byte.x40; Byte.x00; Byte.xc0] 16000%float true NoAnalyser
  = Started {| numberOfChannels := 1; bufferLength := 2;
               sampleRate := 16000%float;
               channelData := [0.5; -0.5]%float |} false.
Proof. vm_compute. reflexivity. Qed.

Example playPcmChunk_odd_length :
  playPcmChunk (fun _ => true) (fun _ => false)
    [Byte.x00; Byte.x40; Byte.x00] 16000%float true NoAnalyser
  = Threw.
Proof. reflexivity. Qed.

End AudioFacts.

(* ------------------------------------------------------------------ *)

Module TurnFacts.
Import Audio Turn.

Lemma resume_busy (pc : Pc) (o : Outcome) (w : World) :
  match resume pc o w with
  | Some (Some _, w') => busy w' = busy w
  | Some (None, w') => busy w' = false /\ currentPhase w' = idle
  | None => True
  end.
Proof.
  destruct pc, o; simpl; auto;
    repeat match goal with
           | |- context [if ?b then _ else _] => destruct b; simpl; auto
           end.
Qed.

Ltac one_turn :=
  right; simpl; split; [congruence | eexists; reflexivity].
Ltac no_turn :=
  left; simpl; split; [first [assumption | tauto] | reflexivity].

Lemma step_exclusive (s : Sys) (e : Event) :
  exclusive s -> exclusive (step s e).
Proof.
  intros [(Hb & Ht) | (Hb & pc & Ht)]; destruct s as [w ts]; simpl in *;
    subst ts.
  - destruct e as [|i o|]; simpl.
    + unfold loopOnce. rewrite Hb. one_turn.
    + destruct i; no_turn.
    + destruct (leftover w); no_turn.
  - destruct e as [|i o|]; simpl.
    + unfold loopOnce. rewrite Hb. one_turn.
    + destruct i as [|i]; simpl; [|destruct i; one_turn].
      pose proof (resume_busy pc o w) as Hr.
      destruct (resume pc o w) as [[[pc'|] w']|]; simpl in *;
        [one_turn | no_turn | one_turn].
    + destruct (leftover w); one_turn.
Qed.

Lemma run_exclusive (events : list Event) : forall s,
  exclusive s -> exclusive (run s events).
Proof.
  induction events as [|e events IH]; intros s Hs; [exact Hs|].
  apply IH. now apply step_exclusive.
Qed.

Lemma boot_exclusive : exclusive boot.
Proof. left. split; reflexivity. Qed.

(** C1. Whatever start attempts, continuations and leftover callbacks
    the event loop runs, and in whatever order, at most one activation
    of [loopOnce] is alive, and one is alive exactly when [busy] is set;
    a start attempt made while [busy] is set changes nothing at all: no
    activation is added (nothing is queued), no error toast is shown, and
    the globals keep their values. *)
Theorem single_turn_under_any_interleaving (events : list Event) :
  let s := run boot events in
  length (turns s) <= 1 /\
  (busy (world s) = true <-> length (turns s) = 1) /\
  (busy (world s) = true ->
     loopOnce (world s) = (None, world s) /\ step s CallLoopOnce = s).
Proof.
  intros s.
  destruct (run_exclusive events boot_exclusive) as [(Hb & Ht) | (Hb & pc & Ht)];
    fold s in Hb, Ht; rewrite Ht; simpl.
  - split; [lia|]. rewrite Hb. split; [split; discriminate | discriminate].
  - split; [lia|]. split; [tauto|]. intros _.
    unfold step, loopOnce. rewrite Hb. split; [reflexivity|].
    destruct s; simpl in *. now subst.
Qed.

(** C3. However an activation of [loopOnce] ends (after the reply was
    played or had no audio, at the early return on quiet audio, or
    through the [catch] after a failed capture, a failed request or an
    exception of the code in between), it leaves [currentPhase] at
    [idle] and [busy] cleared. *)
Theorem turn_exit_releases (pc : Pc) (o : Outcome) (w w' : World) :
  resume pc o w = Some (None, w') ->
  currentPhase w' = idle /\ busy w' = false.
Proof.
  intros H. pose proof (resume_busy pc o w) as Hr. rewrite H in Hr. tauto.
Qed.

(** The exits of an activation, one by one. *)
Lemma turn_exits (w : World) (audioBlob : Blob) (data : Reply) :
  (exists w', resume AwaitRecord RecordRejected w = Some (None, w')) /\
  (forall decoded, checkAudioVolume decoded = false ->
     exists w', resume (AwaitVolume audioBlob) (VolumeChecked decoded) w
                = Some (None, w')) /\
  (exists w', resume (AwaitBackend audioBlob) BackendFailed w
              = Some (None, w')) /\
  (exists w', resume (AwaitBackend audioBlob) (BackendReplied data true) w
              = Some (None, w')) /\
  (truthy (audio_url data) = false ->
     exists w', resume (AwaitBackend audioBlob) (BackendReplied data false) w
                = Some (None, w')) /\
  (forall domThrows,
     exists w', resume AwaitEnded (PlaybackOver domThrows) w
                = Some (None, w')).
Proof.
  repeat split; simpl; eauto.
  - intros decoded ->. simpl. eauto.
  - intros ->. eauto.
Qed.

(** Each continuation moves the activation forward, so it ends after at
    most five of them. *)
Lemma resume_progress (pc pc' : Pc) (o : Outcome) (w w' : World) :
  resume pc o w = Some (Some pc', w') -> rank pc' < rank pc.
Proof.
  destruct pc, o; simpl; try discriminate;
    repeat match goal with
           | |- context [if ?b then _ else _] =>
               destruct b; simpl; try discriminate
           end;
    intros H; injection H as <- _; simpl; lia.
Qed.

(** The sum runs over every sample, in index order. *)
Lemma sum_squares_snoc (data : list float) (x : float) :
  sum_squares (data ++ [x])
  = PrimFloat.add (sum_squares data) (PrimFloat.mul x x).
Proof. unfold sum_squares. now rewrite fold_left_app. Qed.

(** C2, amended.  The gate of the buffered mode computes, over the
    samples of the decoded unit's first channel and of no other, the
    square root of the sum of their squares (added up from 0 in order)
    divided by their number, and lets the unit through unless that value
    is below 0.008; when it is below, the
    activation ends at once: nothing is sent, no error is shown, the
    phase is [idle] and [busy] is cleared; when decoding fails the gate
    answers [true], the unit is handed to [sendAudioToBackend] and the
    turn goes on to the processing phase. *)
Theorem amplitude_gate (w : World) (audioBlob : Blob) :
  (forall audioBuffer,
     let data := channel0 audioBuffer in
     rms_of data
       = PrimFloat.sqrt
           (PrimFloat.div
              (fold_left
                 (fun sum x => PrimFloat.add sum (PrimFloat.mul x x))
                 data 0%float)
              (PrimFloat.of_uint63 (Uint63.of_Z (Z.of_nat (length data)))))
     /\ checkAudioVolume (Some audioBuffer)
        = negb (PrimFloat.ltb (rms_of data) 0.008)) /\
  sum_squares [] = 0%float /\
  (forall data x,
     sum_squares (data ++ [x])
     = PrimFloat.add (sum_squares data) (PrimFloat.mul x x)) /\
  (forall audioBuffer,
     PrimFloat.ltb (rms_of (channel0 audioBuffer)) 0.008 = true ->
     exists w',
       resume (AwaitVolume audioBlob) (VolumeChecked (Some audioBuffer)) w
       = Some (None, w')
       /\ sent w' = sent w /\ toasts w' = toasts w
       /\ currentPhase w' = idle /\ busy w' = false) /\
  (forall audioBuffer,
     PrimFloat.ltb (rms_of (channel0 audioBuffer)) 0.008 = false ->
     exists w',
       resume (AwaitVolume audioBlob) (VolumeChecked (Some audioBuffer)) w
       = Some (Some (AwaitBackend audioBlob), w')
       /\ sent w' = audioBlob :: sent w /\ toasts w' = toasts w
       /\ currentPhase w' = processing) /\
  (checkAudioVolume None = true /\
   exists w',
     resume (AwaitVolume audioBlob) (VolumeChecked None) w
     = Some (Some (AwaitBackend audioBlob), w')
     /\ sent w' = audioBlob :: sent w /\ toasts w' = toasts w
     /\ currentPhase w' = processing /\ busy w' = busy w).
Proof.
  split.
  { intros audioBuffer data. split; [reflexivity|].
    unfold checkAudioVolume. fold data. unfold QUIET_RMS.
    now destruct (PrimFloat.ltb (rms_of data) 0.008). }
  split; [reflexivity|].
  split; [exact sum_squares_snoc|].
  split.
  { intros audioBuffer Hq. simpl. unfold QUIET_RMS. rewrite Hq. simpl.
    eexists. split; [reflexivity|]. repeat split. }
  split.
  { intros audioBuffer Hq. simpl. unfold QUIET_RMS. rewrite Hq. simpl.
    eexists. split; [reflexivity|]. repeat split. }
  split; [reflexivity|]. simpl.
  eexists. split; [reflexivity|]. repeat split.
Qed.

(** C2 as it was written fails for a unit of more than one channel: a
    stereo unit whose first channel is loud enough and whose second is
    silent has, over all its samples, an RMS below 0.008, and is sent
    all the same. *)
Theorem quiet_overall_unit_is_sent :
  let audioBuffer := {| channel0 := [0.01%float];
                        otherChannels := [[0%float]] |} in
  PrimFloat.ltb (rms_of (all_samples audioBuffer)) 0.008 = true /\
  PrimFloat.ltb (rms_of (channel0 audioBuffer)) 0.008 = false /\
  checkAudioVolume (Some audioBuffer) = true /\
  exists w',
    resume (AwaitVolume []) (VolumeChecked (Some audioBuffer)) listening_world
    = Some (Some (AwaitBackend []), w')
    /\ sent w' = [[]] /\ currentPhase w' = processing.
Proof.
  cbv zeta. split; [vm_compute; reflexivity|].
  split; [vm_compute; reflexivity|].
  split; [vm_compute; reflexivity|].
  eexists. split; [vm_compute; reflexivity|]. split; reflexivity.
Qed.

(** *** The theorems at work *)

Lemma amplitude_gate_witness :
  exists w',
    resume (AwaitVolume []) (VolumeChecked (Some silence)) listening_world
    = Some (None, w')
    /\ sent w' = [] /\ toasts w' = 0
    /\ currentPhase w' = idle /\ busy w' = false.
Proof.
  destruct (amplitude_gate listening_world []) as (_ & _ & _ & H & _).
  apply (H silence). vm_compute. reflexivity.
Defined.

Lemma turn_exit_releases_witness :
  (currentPhase (finally_block (set_busy false listening_world)) = idle /\
   busy (finally_block (set_busy false listening_world)) = false) /\
  (currentPhase (finally_block (catch_block listening_world)) = idle /\
   busy (finally_block (catch_block listening_world)) = false).
Proof.
  split.
  - apply (@turn_exit_releases (AwaitVolume [])
             (VolumeChecked (Some silence)) listening_world).
    vm_compute. reflexivity.
  - apply (@turn_exit_releases AwaitRecord RecordRejected listening_world).
    reflexivity.
Defined.

Lemma single_turn_witness :
  step (run boot [CallLoopOnce; Resume 0 (RecordResolved [])]) CallLoopOnce
  = run boot [CallLoopOnce; Resume 0 (RecordResolved [])].
Proof.
  apply (single_turn_under_any_interleaving
           [CallLoopOnce; Resume 0 (RecordResolved [])]).
  reflexivity.
Defined.

End TurnFacts.

(* ------------------------------------------------------------------ *)

Module FloatFacts.

(** Comparisons of JavaScript numbers, through their IEEE 754
    specification. *)

Lemma SFcompare_antisym (x y : spec_float) :
  SFcompare y x = option_map CompOpp (SFcompare x y).
Proof.
  destruct x as [sx| sx | | sx mx ex], y as [sy | sy | | sy my ey];
    simpl; try reflexivity;
    try (destruct sx; reflexivity); try (destruct sy; reflexivity);
    try (destruct sx, sy; reflexivity).
  destruct sx, sy; try reflexivity;
    rewrite (Z.compare_antisym ex ey);
    destruct (ex ?= ey)%Z; simpl; try reflexivity;
    rewrite ?(Pos.compare_cont_antisym mx my Eq); reflexivity.
Qed.

Lemma Prim2SF_not_nan (x : float) :
  PrimFloat.is_nan x = false -> Prim2SF x <> S754_nan.
Proof.
  unfold Prim2SF. intros ->.
  destruct (PrimFloat.is_zero x); [discriminate|].
  destruct (PrimFloat.is_infinity x); [discriminate|].
  destruct (Z.frexp x) as [r e].
  destruct (SpecFloat.shr_fexp prec emax _ _ _) as [shr e'].
  destruct (SpecFloat.shr_m shr); discriminate.
Qed.

(** [x < y] excludes [y <= x]. *)
Lemma ltb_true_leb_false (x y : float) :
  PrimFloat.ltb x y = true -> PrimFloat.leb y x = false.
Proof.
  rewrite ltb_spec, leb_spec. unfold SFltb, SFleb.
  rewrite (SFcompare_antisym (Prim2SF x) (Prim2SF y)).
  destruct (SFcompare (Prim2SF x) (Prim2SF y)) as [[]|];
    simpl; congruence.
Qed.

Lemma leb_true_not_nan (x y : float) :
  PrimFloat.leb x y = true -> Prim2SF y <> S754_nan.
Proof.
  rewrite leb_spec. unfold SFleb. intros H E. rewrite E in H.
  destruct (Prim2SF x); discriminate.
Qed.

(** For two numbers, not [y <= x] is [x < y]. *)
Lemma leb_false_ltb_true (x y : float) :
  Prim2SF x <> S754_nan -> Prim2SF y <> S754_nan ->
  PrimFloat.leb y x = false -> PrimFloat.ltb x y = true.
Proof.
  intros Hx Hy. rewrite ltb_spec, leb_spec. unfold SFltb, SFleb.
  rewrite (SFcompare_antisym (Prim2SF x) (Prim2SF y)).
  destruct (Prim2SF x) as [sx| sx | | sx mx ex];
    destruct (Prim2SF y) as [sy | sy | | sy my ey]; try congruence;
    match goal with
    | |- context [SFcompare ?a ?b] =>
        destruct (SFcompare a b) as [[]|] eqn:E; simpl; try congruence
    end; simpl in E; try discriminate;
    repeat match type of E with
           | context [if ?b then _ else _] => destruct b
           end; discriminate.
Qed.

End FloatFacts.

(* ------------------------------------------------------------------ *)

Module PresenceFacts.
Import Presence FloatFacts.

Local Open Scope float_scope.

(** C6, amended.  For a frame with a face, written out on the
    coordinates of the three landmarks, the size of the picture and the
    configured values (defaults 0.10, 0.07, 80 pixels and the whole
    picture): the normalized distance between the eyes is the length of
    the vector between them in pixels over the width; the tier is [near]
    exactly when that distance is at least the near threshold, [medium]
    exactly when it is not and the distance is at least the medium
    threshold, which is the same as being below the near threshold
    whenever that threshold is a number, and [far] otherwise; attention
    holds exactly when the horizontal and the vertical pixel offset
    between the nose and the middle of the eyes are both below the
    tolerance; the face is inside the region exactly when the nose lies
    within its bounds; and the frame turns presence on exactly when the
    tier is near or medium, attention holds and the face is inside the
    region. *)
Theorem presence_classification (pcfg : Cfg) (presenceVideo : Video)
  (leftEye rightEye nose : Point) (now : Z) (st : State) :
  let W := videoWidth presenceVideo in
  let H := videoHeight presenceVideo in
  let nearT := match nearThreshold pcfg with Some v => v | None => 0.10 end in
  let medT := match mediumThreshold pcfg with Some v => v | None => 0.07 end in
  let tolerance :=
    match attentionTolerancePx pcfg with Some v => v | None => 80 end in
  let region :=
    match roi pcfg with
    | Some r => r
    | None => {| top := 0; left := 0; width := 1; height := 1 |}
    end in
  let dx := (px rightEye - px leftEye) * W in
  let dy := (py rightEye - py leftEye) * H in
  let d := PrimFloat.sqrt (dx * dx + dy * dy) / W in
  let horiz := PrimFloat.abs ((px leftEye + px rightEye) / 2 - px nose) * W in
  let vert := PrimFloat.abs ((py leftEye + py rightEye) / 2 - py nose) * H in
  let att := (horiz <? tolerance) && (vert <? tolerance) in
  let inside :=
    (left region <=? px nose) && (px nose <=? left region + width region)
    && (top region <=? py nose) && (py nose <=? top region + height region) in
  let tier := tier_of pcfg (eyeDistanceNorm presenceVideo leftEye rightEye) in
  let frame := Face leftEye rightEye nose in
  eyeDistanceNorm presenceVideo leftEye rightEye = d /\
  horizOffset presenceVideo leftEye rightEye nose = horiz /\
  vertOffset presenceVideo leftEye rightEye nose = vert /\
  (tier = near <-> (nearT <=? d) = true) /\
  (tier = medium <-> (nearT <=? d) = false /\ (medT <=? d) = true) /\
  (PrimFloat.is_nan nearT = false ->
   (tier = medium <-> (d <? nearT) = true /\ (medT <=? d) = true)) /\
  (tier = far <-> (nearT <=? d) = false /\ (medT <=? d) = false) /\
  attention_of pcfg presenceVideo leftEye rightEye nose = att /\
  inRoi pcfg nose = inside /\
  (qualifies pcfg presenceVideo frame = true <->
   (tier = near \/ tier = medium) /\ att = true /\ inside = true) /\
  presenceDetected (onResults pcfg presenceVideo now st frame)
  = qualifies pcfg presenceVideo frame || presenceDetected st.
Proof.
  intros W H nearT medT tolerance region dx dy d horiz vert att inside
    tier frame.
  assert (En : nearTh pcfg = nearT) by reflexivity.
  assert (Em : medTh pcfg = medT) by reflexivity.
  assert (Ed : eyeDistanceNorm presenceVideo leftEye rightEye = d)
    by reflexivity.
  assert (Hnear : tier = near <-> (nearT <=? d) = true).
  { subst tier. rewrite Ed. unfold tier_of. rewrite En, Em.
    destruct (nearT <=? d); [tauto|].
    destruct (medT <=? d); split; discriminate. }
  assert (Hmed : tier = medium <->
            (nearT <=? d) = false /\ (medT <=? d) = true).
  { subst tier. rewrite Ed. unfold tier_of. rewrite En, Em.
    destruct (nearT <=? d);
      [split; [discriminate | intros [Hx _]; discriminate]|].
    destruct (medT <=? d); [tauto|].
    split; [discriminate | intros [_ Hx]; discriminate]. }
  split; [exact Ed|]. split; [reflexivity|]. split; [reflexivity|].
  split; [exact Hnear|]. split; [exact Hmed|].
  split.
  { intros Hnan. rewrite Hmed. split.
    - intros [Hn Hm]. split; [|exact Hm].
      apply leb_false_ltb_true; auto.
      + eapply leb_true_not_nan; eassumption.
      + now apply Prim2SF_not_nan.
    - intros [Hlt Hm]. split; [|exact Hm].
      now apply ltb_true_leb_false. }
  split.
  { subst tier. rewrite Ed. unfold tier_of. rewrite En, Em.
    destruct (nearT <=? d);
      [split; [discriminate | intros [Hx _]; discriminate]|].
    destruct (medT <=? d);
      [split; [discriminate | intros [_ Hx]; discriminate]|].
    tauto. }
  split; [reflexivity|]. split; [reflexivity|].
  assert (Hq : qualifies pcfg presenceVideo frame
               = is_near_or_medium tier && att && inside) by reflexivity.
  split.
  { rewrite Hq, !andb_true_iff.
    assert (Ht : is_near_or_medium tier = true
                 <-> tier = near \/ tier = medium).
    { clearbody tier. clear.
      destruct tier; simpl; split; intros Hx; auto; try discriminate;
        destruct Hx; discriminate. }
    rewrite Ht. tauto. }
  rewrite Hq. unfold frame. cbn [onResults].
  change (attention_of pcfg presenceVideo leftEye rightEye nose) with att.
  change (inRoi pcfg nose) with inside.
  change (tier_of pcfg (eyeDistanceNorm presenceVideo leftEye rightEye))
    with tier.
  destruct (is_near_or_medium tier && att && inside); reflexivity.
Qed.

(** C6 as it was written fails when the near threshold is no number: a
    face at the distance 0.08 is then [medium], and qualifies, although
    its distance is not below the near threshold. *)
Theorem medium_without_being_below_near :
  let pcfg := {| nearThreshold := Some nan; mediumThreshold := None;
                 attentionTolerancePx := None; roi := None;
                 holdMs := None |} in
  let leftEye := {| px := 0.46; py := 0.5 |} in
  let rightEye := {| px := 0.54; py := 0.5 |} in
  let nose := {| px := 0.5; py := 0.5 |} in
  let d := eyeDistanceNorm camera leftEye rightEye in
  tier_of pcfg d = medium /\
  (d <? nearTh pcfg) = false /\
  (medTh pcfg <=? d) = true /\
  qualifies pcfg camera (Face leftEye rightEye nose) = true.
Proof. vm_compute. repeat split. Qed.

(** *** The hold timer *)

Lemma truncate_Qfloor (x : float) (q : Q) :
  Audio.Q_of_float x = Some q -> (0 <= q)%Q -> truncate x = Qfloor q.
Proof.
  unfold Audio.Q_of_float, truncate.
  destruct (Prim2SF x) as [s|s| |s m e]; try discriminate.
  - intros H _. injection H as <-. reflexivity.
  - intros H Hq. injection H as <-. destruct s.
    + exfalso. simpl in Hq.
      assert (Hn : (inject_Z (Zneg m) * Qpower 2 e < 0)%Q).
      { rewrite <- (Qmult_0_l (Qpower 2 e)).
        apply Qmult_lt_compat_r; [|reflexivity].
        apply Qpower_0_lt. reflexivity. }
      apply (Qlt_not_le _ _ Hn Hq).
    + simpl SpecFloat.cond_Zopp. destruct e as [|p|p].
      * change (Qpower 2 0) with 1%Q.
        rewrite (Qfloor_comp _ _ (Qmult_1_r (inject_Z (Zpos m)))).
        rewrite Qfloor_Z. simpl. lia.
      * change (0 <=? Zpos p)%Z with true. cbv iota.
        assert (E : (inject_Z (Zpos m) * Qpower 2 (Zpos p)
                     == inject_Z (Zpos m * 2 ^ Zpos p))%Q).
        { rewrite inject_Z_mult. rewrite (Zpower_Qpower 2 (Zpos p)); [|lia].
          reflexivity. }
        rewrite (Qfloor_comp _ _ E). now rewrite Qfloor_Z.
      * change (0 <=? Zneg p)%Z with false. cbv iota.
        change (- Zneg p)%Z with (Zpos p).
        rewrite Zdiv_Qdiv. apply Qfloor_comp. unfold Qdiv.
        apply Qmult_comp; [reflexivity|].
        change (Qpower 2 (Zneg p)) with (/ Qpower 2 (Zpos p))%Q.
        apply Qinv_comp.
        rewrite (Zpower_Qpower 2 (Zpos p)); [reflexivity | lia].
Qed.

(** A delay of at least 0 and below 2^31 milliseconds is waited for, up
    to its fraction of a millisecond. *)
Lemma timeout_delay_in_range (ms : float) (q : Q) :
  Audio.Q_of_float ms = Some q -> (0 <= q)%Q -> (q < inject_Z (2 ^ 31))%Q ->
  timeout_delay ms = Qfloor q /\ (0 <= Qfloor q < 2 ^ 31)%Z.
Proof.
  intros Hv H0 H1. unfold timeout_delay.
  rewrite (truncate_Qfloor ms Hv H0).
  assert (Hlo : (0 <= Qfloor q)%Z).
  { change 0%Z with (Qfloor 0). now apply Qfloor_resp_le. }
  assert (Hhi : (Qfloor q < 2 ^ 31)%Z).
  { rewrite Zlt_Qlt. eapply Qle_lt_trans; [apply Qfloor_le | exact H1]. }
  split; [|split; assumption].
  replace ((Qfloor q + 2 ^ 31) mod 2 ^ 32)%Z with (Qfloor q + 2 ^ 31)%Z
    by (symmetry; apply Z.mod_small; lia).
  lia.
Qed.

Section Hold.
Variable pcfg : Cfg.
Variable presenceVideo : Video.

Local Abbreviation onResults := (onResults pcfg presenceVideo).
Local Abbreviation qualifies := (qualifies pcfg presenceVideo).
Local Abbreviation step := (step pcfg presenceVideo).
Local Abbreviation run := (run pcfg presenceVideo).
Local Abbreviation last_qualifying := (last_qualifying pcfg presenceVideo).
Local Abbreviation timer_inv := (timer_inv pcfg).

Lemma onResults_qualifying (now : Z) (st : State) (r : Results) :
  qualifies r = true ->
  presenceDetected (onResults now st r) = true /\
  presenceTimer (onResults now st r)
  = Some (now + timeout_delay (holdOf pcfg))%Z.
Proof.
  destruct r as [|l e n]; simpl; [discriminate|].
  intros ->. split; reflexivity.
Qed.

Lemma onResults_inert (now : Z) (st : State) (r : Results) :
  qualifies r = false ->
  presenceDetected (onResults now st r) = presenceDetected st /\
  presenceTimer (onResults now st r) = presenceTimer st.
Proof.
  destruct r as [|l e n]; simpl; [split; reflexivity|].
  intros ->. split; reflexivity.
Qed.

Lemma step_timer_inv (st st' : State) (e : Event) (lastq : option Z) :
  timer_inv st lastq -> step st e = Some st' ->
  timer_inv st' (last_qualifying lastq [e]).
Proof.
  intros (Hdue & Hon) Hstep. destruct e as [t r | t]; simpl in *.
  - destruct (clock st <=? t)%Z; [|discriminate]. injection Hstep as <-.
    destruct (qualifies r) eqn:Hq.
    + destruct (onResults_qualifying t st r Hq) as (H1 & H2). split.
      * intros due Hd. rewrite H2 in Hd. injection Hd as <-. eauto.
      * intros _. eauto.
    + destruct (onResults_inert t st r Hq) as (H1 & H2). split.
      * intros due Hd. rewrite H2 in Hd. auto.
      * rewrite H1, H2. exact Hon.
  - destruct (presenceTimer st) as [due|]; [|discriminate].
    destruct ((clock st <=? t) && (due <=? t))%Z; [|discriminate].
    injection Hstep as <-. split; simpl; [discriminate | discriminate].
Qed.

Lemma last_qualifying_app (events1 events2 : list Event) : forall acc,
  last_qualifying acc (events1 ++ events2)
  = last_qualifying (last_qualifying acc events1) events2.
Proof.
  induction events1 as [|[t r|t] rest IH]; intros acc; simpl; auto.
Qed.

Lemma run_timer_inv (events : list Event) : forall st st' lastq,
  timer_inv st lastq -> run st events = Some st' ->
  timer_inv st' (last_qualifying lastq events).
Proof.
  induction events as [|e rest IH]; intros st st' lastq Hinv Hrun;
    simpl in Hrun.
  - injection Hrun as <-. exact Hinv.
  - destruct (step st e) as [st1|] eqn:Hs; [|discriminate].
    change (e :: rest) with ([e] ++ rest). rewrite last_qualifying_app.
    eapply IH; [|exact Hrun]. eapply step_timer_inv; eauto.
Qed.

Lemma boot_timer_inv : timer_inv boot None.
Proof. split; simpl; discriminate. Qed.

Variable hold : Q.
Hypothesis hold_value : Audio.Q_of_float (holdOf pcfg) = Some hold.
Hypothesis hold_in_range : (0 <= hold)%Q /\ (hold < inject_Z (2 ^ 31))%Q.

(** C5, amended.  With a hold time of [hold] milliseconds that is at
    least 0 and below 2^31 (the default is 20000), the timer counts
    its whole milliseconds [Qfloor hold]: every qualifying frame turns
    presence on and starts the hold timer afresh, due that many
    milliseconds later; a frame that does not qualify, a frame with no
    face in particular, changes neither presence nor the timer; and in
    every run, presence goes from on to off only when the pending timer
    fires, that timer is the one started by the last qualifying frame of
    the run, and it fires no sooner than the whole milliseconds of the
    hold time after that frame: less than one millisecond short of the
    hold time, and not short at all when the hold time is a whole
    number. *)
Theorem presence_off_lags_by_hold :
  (forall now st r,
     qualifies r = true ->
     presenceDetected (onResults now st r) = true /\
     presenceTimer (onResults now st r) = Some (now + Qfloor hold)%Z) /\
  (forall now st r,
     qualifies r = false ->
     presenceDetected (onResults now st r) = presenceDetected st /\
     presenceTimer (onResults now st r) = presenceTimer st) /\
  (forall now st,
     presenceDetected (onResults now st NoFace) = presenceDetected st /\
     presenceTimer (onResults now st NoFace) = presenceTimer st) /\
  (forall events st e st',
     run boot events = Some st -> step st e = Some st' ->
     presenceDetected st = true -> presenceDetected st' = false ->
     exists t tq,
       e = HoldTimer t /\
       last_qualifying None events = Some tq /\
       presenceTimer st = Some (tq + Qfloor hold)%Z /\
       (tq + Qfloor hold <= t)%Z /\
       (hold < inject_Z (t - tq) + 1)%Q /\
       ((hold == inject_Z (Qfloor hold))%Q ->
        (hold <= inject_Z (t - tq))%Q)) /\
  holdOf no_cfg = 20000.
Proof.
  destruct hold_in_range as (Hlo & Hhi).
  destruct (timeout_delay_in_range (holdOf pcfg) hold_value Hlo Hhi)
    as (Hdelay & _).
  split.
  { intros now st r Hq.
    destruct (onResults_qualifying now st r Hq) as (H1 & H2).
    rewrite Hdelay in H2. now split. }
  split; [exact onResults_inert|].
  split; [intros now st; now apply onResults_inert|].
  split; [|reflexivity].
  intros events st e st' Hrun Hstep Hon Hoff.
  destruct (run_timer_inv events boot_timer_inv Hrun) as (Hdue & _).
  destruct e as [t r | t].
  - exfalso. simpl in Hstep.
    destruct (clock st <=? t)%Z; [|discriminate]. injection Hstep as <-.
    destruct (qualifies r) eqn:Hq.
    + destruct (onResults_qualifying t st r Hq) as (H1 & _). congruence.
    + destruct (onResults_inert t st r Hq) as (H1 & _). congruence.
  - simpl in Hstep.
    destruct (presenceTimer st) as [due|] eqn:Hd; [|discriminate].
    destruct (clock st <=? t)%Z; [|discriminate].
    destruct (due <=? t)%Z eqn:Hle; [|discriminate].
    destruct (Hdue due eq_refl) as (tq & Hl & Hdq).
    rewrite Hdelay in Hdq.
    exists t, tq. apply Z.leb_le in Hle. subst due.
    assert (Hfl : (inject_Z (Qfloor hold) <= inject_Z (t - tq))%Q)
      by (rewrite <- Zle_Qle; lia).
    repeat split; auto.
    + eapply Qlt_le_trans; [apply Qlt_floor|].
      rewrite inject_Z_plus. apply Qplus_le_l. exact Hfl.
    + intros Hw. rewrite Hw. exact Hfl.
Qed.

End Hold.

Lemma presence_off_lags_witness :
  exists t tq,
    HoldTimer 20000 = HoldTimer t /\
    last_qualifying no_cfg camera None [Frame 0 facing; Frame 1000 NoFace]
    = Some tq /\
    (tq + 20000 <= t)%Z.
Proof.
  assert (Hv : Audio.Q_of_float (holdOf no_cfg)
               = Some (5497558138880000 # 274877906944)%Q).
  { vm_compute. reflexivity. }
  assert (Hr : (0 <= 5497558138880000 # 274877906944)%Q /\
               (5497558138880000 # 274877906944 < inject_Z (2 ^ 31))%Q).
  { split; [discriminate | reflexivity]. }
  destruct (@presence_off_lags_by_hold no_cfg camera
              (5497558138880000 # 274877906944)%Q Hv Hr)
    as (_ & _ & _ & H & _).
  destruct (H [Frame 0%Z facing; Frame 1000%Z NoFace]
              (onResults no_cfg camera 1000
                 (onResults no_cfg camera 0 boot facing) NoFace)
              (HoldTimer 20000)
              (onHoldTimeout 20000
                 (onResults no_cfg camera 1000
                    (onResults no_cfg camera 0 boot facing) NoFace)))
    as (t & tq & He & Hl & _ & Hle & _).
  - reflexivity.
  - vm_compute. reflexivity.
  - vm_compute. reflexivity.
  - reflexivity.
  - exists t, tq.
    change (Qfloor (5497558138880000 # 274877906944)) with 20000%Z in Hle.
    auto.
Defined.

(** C5 as it was written fails for a hold time of 2^31 milliseconds or
    more: the timer's delay wraps to a negative number and counts as
    zero, so presence goes off one millisecond after the qualifying
    frame, far less than the hold time. *)
Theorem presence_off_at_once_for_long_hold :
  let pcfg := {| nearThreshold := None; mediumThreshold := None;
                 attentionTolerancePx := None; roi := None;
                 holdMs := Some 2147483648 |} in
  exists st st',
    run pcfg camera boot [Frame 0 facing] = Some st /\
    presenceDetected st = true /\
    step pcfg camera st (HoldTimer 1) = Some st' /\
    presenceDetected st' = false /\
    last_qualifying pcfg camera None [Frame 0 facing] = Some 0%Z /\
    exists hold,
      Audio.Q_of_float (holdOf pcfg) = Some hold /\
      (hold == inject_Z 2147483648)%Q /\
      (inject_Z (1 - 0) < hold)%Q.
Proof.
  cbv zeta. eexists. eexists.
  split; [vm_compute; reflexivity|].
  split; [reflexivity|].
  split; [vm_compute; reflexivity|].
  split; [reflexivity|].
  split; [vm_compute; reflexivity|].
  eexists. split; [vm_compute; reflexivity|].
  split; reflexivity.
Qed.

End PresenceFacts.

(* ------------------------------------------------------------------ *)

Module StreamFacts.
Import Audio Stream String.

Local Open Scope string_scope.

Section Channel.
Variable supportedRate : float -> bool.
Variable startThrows : AudioBuffer -> bool.
Variable StringToNumber : string -> float.
Variable avatarAnalyser : bool.

Local Abbreviation step :=
  (step supportedRate startThrows StringToNumber avatarAnalyser).
Local Abbreviation run :=
  (run supportedRate startThrows StringToNumber avatarAnalyser).
Local Abbreviation ToNumber := (ToNumber StringToNumber).

(** [onclose] makes no call on the avatar and touches no playback. *)
Lemma onclose_leaves_avatar (st : State) :
  avatarCalls (onclose st) = avatarCalls st /\
  started (onclose st) = started st /\
  currentPhase (onclose st) = currentPhase st.
Proof. repeat split. Qed.

(** Once the channel is closed and no handler waits, nothing runs any
    more. *)
Lemma run_closed (events : list Event) : forall st,
  wsStream st = false -> awaitingResume st = [] -> awaitingRead st = [] ->
  run st events = st.
Proof.
  induction events as [|e rest IH]; intros st Hc Hr Hb; [reflexivity|].
  simpl. fold (run (step st e) rest).
  assert (Hs : step st e = st).
  { destruct e as [f | | ok | i]; unfold Stream.step.
    - now rewrite Hc.
    - now rewrite Hc.
    - now rewrite Hr.
    - rewrite Hb. now destruct i. }
  rewrite Hs. now apply IH.
Qed.

(** C7, on the code: the channel closes after [audio_start] and before
    [audio_end].  The close handler stops the recorder and the tracks,
    clears the handle and shows the idle text, and the phase is [idle]
    as it was; but the avatar is left with the emotion [audio_start]
    gave it: the only call it has received is [setEmotion('happy')], and
    whatever follows the close brings no other.  Had [audio_end]
    arrived instead, the avatar would have received
    [setEmotion('neutral')]. *)
Theorem close_mid_turn_leaves_emotion (after : list Event) :
  let closed := run (connected true) [audio_start 16000; Close] in
  let ended := run (connected true) [audio_start 16000; audio_end] in
  avatarCalls closed = [SetEmotion "happy"] /\
  last_emotion None (avatarCalls (run closed after)) = Some "happy" /\
  last_emotion None (avatarCalls ended) = Some "neutral" /\
  wsStream closed = false /\ recorderRecording closed = false /\
  tracksLive closed = false /\ statusText closed = IDLE_TEXT /\
  currentPhase closed = Turn.idle.
Proof.
  intros closed ended.
  assert (Hc : wsStream closed = false) by reflexivity.
  assert (Hr : awaitingResume closed = []) by reflexivity.
  assert (Hb : awaitingRead closed = []) by reflexivity.
  rewrite (run_closed after closed Hc Hr Hb).
  repeat split.
Qed.

(** On the open channel a binary frame reaches the handler as an
    [ArrayBuffer], the call of its [arrayBuffer] method throws, and the
    handler's [catch] logs the error: the frame is dropped. *)
Lemma binary_frame_dropped (st : State) (payload : list Byte.byte) :
  wsStream st = true -> binaryType st = arraybuffer ->
  step st (Receive (BinaryFrame payload)) = log_error st.
Proof.
  intros Ho Hb. unfold Stream.step, deliver. rewrite Ho, Hb. reflexivity.
Qed.

Lemma binary_frames_dropped (payloads : list (list Byte.byte)) : forall st,
  wsStream st = true -> binaryType st = arraybuffer ->
  let st' := run st (map (fun p => Receive (BinaryFrame p)) payloads) in
  started st' = started st /\
  errorsLogged st' = List.length payloads + errorsLogged st.
Proof.
  induction payloads as [|p rest IH]; intros st Ho Hb; [split; reflexivity|].
  cbv zeta. cbn [map]. unfold Stream.run. cbn [fold_left].
  rewrite (@binary_frame_dropped st p Ho Hb).
  destruct (IH (log_error st) Ho Hb) as (H1 & H2).
  cbv zeta in H1, H2. unfold Stream.run in H1, H2. rewrite H1, H2.
  simpl. split; [reflexivity | lia].
Qed.

(** C9, on the code: after [audio_start] at 16 kHz, whatever binary
    frames arrive, none is decoded: no buffer is started, the playback
    scheduled lasts zero seconds, and each frame leaves one logged
    error. *)
Theorem binary_frames_never_decoded (avatar : bool)
  (payloads : list (list Byte.byte)) :
  let st := run (connected avatar)
              (audio_start 16000
               :: map (fun p => Receive (BinaryFrame p)) payloads) in
  binaryType (connected avatar) = arraybuffer /\
  currentAudioSampleRate st = JNumber 16000%float /\
  started st = [] /\
  total_duration (started st) = Some 0%Q /\
  errorsLogged st = List.length payloads.
Proof.
  cbv zeta. unfold Stream.run. cbn [fold_left].
  set (st1 := Stream.step supportedRate startThrows StringToNumber
                avatarAnalyser (connected avatar) (audio_start 16000)).
  assert (Ho : wsStream st1 = true) by (destruct avatar; reflexivity).
  assert (Hb : binaryType st1 = arraybuffer) by (destruct avatar; reflexivity).
  assert (Hs : started st1 = []) by (destruct avatar; reflexivity).
  assert (He : errorsLogged st1 = 0) by (destruct avatar; reflexivity).
  assert (Hr : currentAudioSampleRate st1 = JNumber 16000%float)
    by (destruct avatar; reflexivity).
  destruct (@binary_frames_dropped payloads st1 Ho Hb) as (H1 & H2).
  cbv zeta in H1, H2. unfold Stream.run in H1, H2.
  rewrite H1, H2, Hs, He.
  repeat split; try lia.
  clear H1 H2. revert Hr Ho Hb. generalize st1.
  induction payloads as [|p rest IH]; intros st Hr Ho Hb; [exact Hr|].
  cbn [map fold_left]. rewrite (@binary_frame_dropped st p Ho Hb).
  now apply IH.
Qed.

(** Handed over as a [Blob], with no analyser in the way, the same frame
    would have been decoded as the interface says, once its bytes are
    read. *)
Lemma blob_frame_decoded (st : State) (payload : list Byte.byte) :
  wsStream st = true -> binaryType st = blob -> awaitingRead st = [] ->
  avatarController st && avatarAnalyser = false ->
  (forall b, startThrows b = false) ->
  Nat.even (List.length payload) = true -> payload <> [] ->
  supportedRate (ToNumber (currentAudioSampleRate st)) = true ->
  exists b,
    run st [Receive (BinaryFrame payload); ReadSettled 0]
    = start_buffer b st /\
    sampleRate b = ToNumber (currentAudioSampleRate st) /\
    2 * bufferLength b = List.length payload.
Proof.
  intros Ho Hb Hw Ha Hst He Hne Hrate.
  destruct (@AudioFacts.playPcmChunk_decodes supportedRate startThrows Hst
              payload (ToNumber (currentAudioSampleRate st)) He Hne Hrate)
    as (int16 & b & _ & Hp & _ & Hr & _ & Hl & _).
  exists b. split; [|split; assumption].
  unfold Stream.run. cbn [fold_left]. unfold Stream.step at 2, deliver.
  rewrite Ho, Hb. cbn [onmessage arrayBuffer_method].
  unfold Stream.step, await_read. cbn [awaitingRead]. rewrite Hw.
  cbn [app nth_error Turn.remove_nth]. unfold play_chunk.
  cbn [currentAudioSampleRate avatarController set_awaitingRead].
  rewrite Ha, Hp. destruct st. simpl in *. subst. reflexivity.
Qed.

End Channel.

End StreamFacts.

(* ------------------------------------------------------------------ *)

Module KioskFacts.
Import Kiosk.

Section Denied.
Variable pcfg : Presence.Cfg.
Variable presenceVideo : Presence.Video.

Local Abbreviation step := (step pcfg presenceVideo).
Local Abbreviation run := (run pcfg presenceVideo).

Lemma step_dormant (k : State) (e : Event) : dormant k -> dormant (step k e).
Proof.
  intros (Hm & Hf & Hp & Ht & Hd).
  destruct e as [| | | [t r | t] | i o |]; simpl.
  - unfold tick. rewrite Hm, Hp. simpl. repeat split; assumption.
  - repeat split; assumption.
  - rewrite Hd. simpl. repeat split; assumption.
  - rewrite Hf. repeat split; assumption.
  - rewrite Ht. repeat split; assumption.
  - rewrite Hd. destruct i; simpl; repeat split; assumption.
  - rewrite Hd. simpl. repeat split; assumption.
Qed.

Lemma run_dormant (events : list Event) : forall k,
  dormant k -> dormant (run k events).
Proof.
  induction events as [|e rest IH]; intros k Hk; [exact Hk|].
  apply IH. now apply step_dormant.
Qed.

(** Every start attempt the page can make (a loop iteration, a click on
    a toast's retry button) goes through [loopOnce]: mutual exclusion
    holds on the whole page. *)
Lemma page_step_exclusive (k : State) (e : Event) :
  Turn.exclusive (dialogue k) -> Turn.exclusive (dialogue (step k e)).
Proof.
  intros Hx.
  assert (Hcall : forall k', dialogue k' = dialogue k ->
            Turn.exclusive
              (dialogue (set_dialogue
                           (Turn.step (dialogue k) Turn.CallLoopOnce) k'))).
  { intros k' _. now apply TurnFacts.step_exclusive. }
  destruct e as [| | | [t r | t] | i o |]; unfold Kiosk.step.
  - unfold tick.
    destruct (presence_gated_mode && mainLoopStarted k
              && Presence.presenceDetected (presence k)
              && is_idle (Turn.currentPhase (Turn.world (dialogue k))));
      [now apply Hcall | assumption].
  - assumption.
  - destruct (Turn.toasts (Turn.world (dialogue k)));
      [assumption | now apply Hcall].
  - destruct (faceMesh k); [|assumption].
    now destruct (Presence.step pcfg presenceVideo (presence k)
                    (Presence.Frame t r)).
  - now destruct (Presence.step pcfg presenceVideo (presence k)
                    (Presence.HoldTimer t)).
  - now apply TurnFacts.step_exclusive.
  - now apply TurnFacts.step_exclusive.
Qed.

Lemma page_run_exclusive (events : list Event) : forall k,
  Turn.exclusive (dialogue k) -> Turn.exclusive (dialogue (run k events)).
Proof.
  induction events as [|e rest IH]; intros k Hk; [exact Hk|].
  apply IH. now apply page_step_exclusive.
Qed.

(** C8, on the code: when the camera is refused the page goes on
    ([mainLoop] is started), but whatever happens next (loop
    iterations, timers, clicks), presence never comes on and [loopOnce]
    is never started: no activation, nothing sent, the phase stays
    [idle]. *)
Theorem camera_denied_never_listens (events : list Event) :
  let k := run (startPresenceDetection false loaded) events in
  mainLoopStarted k = true /\
  USE_WEBSOCKET_STREAM = false /\ USE_WEBRTC_OPUS = false /\
  Presence.presenceDetected (presence k) = false /\
  Turn.turns (dialogue k) = [] /\
  Turn.sent (Turn.world (dialogue k)) = [] /\
  Turn.currentPhase (Turn.world (dialogue k)) = Turn.idle /\
  step k Tick = k.
Proof.
  intros k.
  assert (Hk : dormant k).
  { apply run_dormant. repeat split. }
  destruct Hk as (Hm & Hf & Hp & Ht & Hd).
  rewrite Hd. repeat split; try assumption.
  simpl. unfold tick. rewrite Hm, Hp. reflexivity.
Qed.

End Denied.

End KioskFacts.

(* ------------------------------------------------------------------ *)

Module HtmlFacts.
Import Subtitle Html String.

Lemma replaceAll_app (c : char16) (by_ s1 s2 : jsstring) :
  replaceAll c by_ (s1 ++ s2) = replaceAll c by_ s1 ++ replaceAll c by_ s2.
Proof.
  induction s1 as [|x s1 IH]; simpl; [reflexivity|].
  destruct (x =? c)%N; rewrite IH; [now rewrite app_assoc | reflexivity].
Qed.

(** The four later passes leave what an earlier pass wrote as it is, and
    the first pass comes before any [&] is written: together the five
    passes rewrite each character of the input once. *)
Lemma escapeHtml_cons (x : char16) (s : jsstring) :
  escapeHtml (x :: s) = escape_char x ++ escapeHtml s.
Proof.
  unfold escapeHtml, escape_char.
  change (replaceAll AMP (of_string "&amp;"%string) (x :: s))
    with (if (x =? AMP)%N
          then of_string "&amp;"%string ++ replaceAll AMP (of_string "&amp;"%string) s
          else x :: replaceAll AMP (of_string "&amp;"%string) s).
  destruct (N.eqb_spec x AMP) as [->|Ha].
  { now rewrite !replaceAll_app. }
  change (x :: ?r) with ([x] ++ r). rewrite !replaceAll_app.
  f_equal. simpl.
  destruct (N.eqb_spec x LT) as [->|Hl]; [reflexivity|].
  simpl.
  destruct (N.eqb_spec x GT) as [->|Hg]; [reflexivity|].
  simpl.
  destruct (N.eqb_spec x QUOT) as [->|Hq]; [reflexivity|].
  simpl.
  destruct (N.eqb_spec x APOS) as [->|Hp]; reflexivity.
Qed.

Lemma escapeHtml_flat_map (s : jsstring) :
  escapeHtml s = flat_map escape_char s.
Proof.
  induction s as [|x s IH]; [reflexivity|].
  rewrite escapeHtml_cons, IH. reflexivity.
Qed.

Lemma escape_char_clean (x : char16) :
  forallb (fun c => negb (markup_char c)) (escape_char x) = true.
Proof.
  unfold escape_char.
  destruct (N.eqb_spec x AMP); [reflexivity|].
  destruct (N.eqb_spec x LT) as [|Hl]; [reflexivity|].
  destruct (N.eqb_spec x GT) as [|Hg]; [reflexivity|].
  destruct (N.eqb_spec x QUOT) as [|Hq]; [reflexivity|].
  destruct (N.eqb_spec x APOS) as [|Hp]; [reflexivity|].
  simpl. unfold markup_char.
  apply N.eqb_neq in Hl, Hg, Hq, Hp. now rewrite Hl, Hg, Hq, Hp.
Qed.

(** X1. Whatever the text, the five replacements of [escapeHtml] amount
    to rewriting each of its characters once ([&], [<], [>], the double
    and the single quote into their entities, any other character into
    itself: an entity written by one replacement is never rewritten by a
    later one), and the result holds no [<], [>], double quote or single
    quote at all. *)
Theorem escapeHtml_no_markup (s : jsstring) :
  escapeHtml s = flat_map escape_char s /\
  forallb (fun c => negb (markup_char c)) (escapeHtml s) = true.
Proof.
  split; [apply escapeHtml_flat_map|].
  rewrite escapeHtml_flat_map.
  induction s as [|x s IH]; [reflexivity|].
  simpl. rewrite forallb_app, escape_char_clean, IH. reflexivity.
Qed.

(** The first character of what [x] becomes is [x] itself or [&], and an
    entity is told from the others by its second character. *)
Lemma escape_char_cases (x : char16) :
  (escape_char x = [x] /\ x <> AMP) \/
  (exists k tl, escape_char x = AMP :: k :: tl /\
     (k = 97 /\ x = AMP \/ k = 108 /\ x = LT \/ k = 103 /\ x = GT \/
      k = 113 /\ x = QUOT \/ k = 35 /\ x = APOS)%N /\
     forall y, escape_char y = AMP :: k :: tl -> y = x).
Proof.
  assert (Hinv : forall y k tl, escape_char y = AMP :: k :: tl ->
            (k = 97 /\ y = AMP \/ k = 108 /\ y = LT \/ k = 103 /\ y = GT \/
             k = 113 /\ y = QUOT \/ k = 35 /\ y = APOS)%N).
  { intros y k tl. unfold escape_char.
    destruct (N.eqb_spec y AMP) as [->|]; [intros H; injection H; auto|].
    destruct (N.eqb_spec y LT) as [->|];
      [intros H; injection H; intros; auto|].
    destruct (N.eqb_spec y GT) as [->|];
      [intros H; injection H; intros; auto 6|].
    destruct (N.eqb_spec y QUOT) as [->|];
      [intros H; injection H; intros; auto 7|].
    destruct (N.eqb_spec y APOS) as [->|];
      [intros H; injection H; intros; auto 8|].
    discriminate. }
  assert (Hone : forall x1 x2 k tl1 tl2,
            escape_char x1 = AMP :: k :: tl1 ->
            escape_char x2 = AMP :: k :: tl2 -> x1 = x2).
  { intros x1 x2 k tl1 tl2 H1 H2.
    apply Hinv in H1, H2. unfold AMP, LT, GT, QUOT, APOS in *. lia. }
  unfold escape_char at 1 2.
  destruct (N.eqb_spec x AMP) as [->|Ha].
  { right. do 2 eexists. split; [reflexivity|]. split; [auto|].
    intros y Hy. eapply Hone; [exact Hy | reflexivity]. }
  destruct (N.eqb_spec x LT) as [->|Hl].
  { right. do 2 eexists. split; [reflexivity|]. split; [auto|].
    intros y Hy. eapply Hone; [exact Hy | reflexivity]. }
  destruct (N.eqb_spec x GT) as [->|Hg].
  { right. do 2 eexists. split; [reflexivity|]. split; [auto 6|].
    intros y Hy. eapply Hone; [exact Hy | reflexivity]. }
  destruct (N.eqb_spec x QUOT) as [->|Hq].
  { right. do 2 eexists. split; [reflexivity|]. split; [auto 7|].
    intros y Hy. eapply Hone; [exact Hy | reflexivity]. }
  destruct (N.eqb_spec x APOS) as [->|Hp].
  { right. do 2 eexists. split; [reflexivity|]. split; [auto 8|].
    intros y Hy. eapply Hone; [exact Hy | reflexivity]. }
  left. split; [reflexivity | exact Ha].
Qed.

(** X2. [escapeHtml] loses nothing: two texts with the same escaped form
    are the same text. *)
Theorem escapeHtml_injective (s1 s2 : jsstring) :
  escapeHtml s1 = escapeHtml s2 -> s1 = s2.
Proof.
  rewrite !escapeHtml_flat_map. revert s2.
  induction s1 as [|x1 s1 IH]; intros [|x2 s2] H.
  - reflexivity.
  - exfalso. simpl in H.
    destruct (escape_char_cases x2) as [(E & _) | (k & tl & E & _)];
      rewrite E in H; discriminate.
  - exfalso. simpl in H.
    destruct (escape_char_cases x1) as [(E & _) | (k & tl & E & _)];
      rewrite E in H; discriminate.
  - simpl in H.
    destruct (escape_char_cases x1) as [(E1 & N1) | (k1 & tl1 & E1 & _ & U1)];
      destruct (escape_char_cases x2) as [(E2 & N2) | (k2 & tl2 & E2 & _ & U2)].
    + rewrite E1, E2 in H. injection H as -> H. f_equal. now apply IH.
    + rewrite E1, E2 in H. injection H as -> _. congruence.
    + rewrite E1, E2 in H. injection H as <- _. congruence.
    + assert (Hx : x2 = x1).
      { apply U1. rewrite E1, E2 in H. simpl in H.
        injection H as <- H.
        (* the entities have different second characters, and the one
           that starts with a given character is known *)
        rewrite E2. f_equal. f_equal.
        clear IH U2.
        destruct (escape_char_cases x1) as [(E & _) | (k & tl & E & Hk & _)];
          [rewrite E in E1; discriminate|].
        rewrite E in E1. injection E1 as -> ->.
        destruct (escape_char_cases x2) as [(E' & _) | (k' & tl' & E' & Hk' & _)];
          [rewrite E' in E2; discriminate|].
        rewrite E' in E2. injection E2 as -> ->.
        unfold escape_char, AMP, LT, GT, QUOT, APOS in *.
        destruct Hk as [(Hk & ->) | [(Hk & ->) | [(Hk & ->) | [(Hk & ->) | (Hk & ->)]]]];
          destruct Hk' as [(Hk' & ->) | [(Hk' & ->) | [(Hk' & ->) | [(Hk' & ->) | (Hk' & ->)]]]];
          try lia; simpl in E, E'; congruence. }
      subst x2. f_equal. apply IH.
      eapply app_inv_head. exact H.
Qed.

Lemma escapeHtml_injective_witness :
  [65; 38; 66]%N = [65; 38; 66]%N.
Proof.
  apply (@escapeHtml_injective [65; 38; 66]%N [65; 38; 66]%N). reflexivity.
Defined.

End HtmlFacts.

(* ------------------------------------------------------------------ *)

Module LayoutFacts.
Import Subtitle Layout SubtitleFacts.

Section Greedy.
Variable maxCharsPerLine : nat.

Local Abbreviation wrap_step := (wrap_step maxCharsPerLine).
Local Abbreviation layout_step := (layout_step maxCharsPerLine).
Local Abbreviation breaks_forced := (breaks_forced maxCharsPerLine).
Local Abbreviation layout_inv := (layout_inv maxCharsPerLine).

(** The loop on characters follows the loop on words. *)
Lemma wrap_step_layout (groups : list (list jsstring)) (g : list jsstring)
  (w : jsstring) :
  Forall (fun w => w <> []) g ->
  wrap_step (map join_sp groups, join_sp g) w
  = (map join_sp (fst (layout_step (groups, g) w)),
     join_sp (snd (layout_step (groups, g) w))).
Proof.
  intros Hg. unfold Subtitle.wrap_step, Layout.layout_step.
  destruct g as [|a g'].
  - reflexivity.
  - assert (Hne : join_sp (a :: g') <> []).
    { intros E. now apply join_sp_nil in E. }
    destruct (length (join_sp (a :: g')) =? 0) eqn:E0.
    { apply Nat.eqb_eq, length_zero_iff_nil in E0. contradiction. }
    destruct (length (join_sp (a :: g') ++ SP :: w) <=? maxCharsPerLine).
    + cbn [fst snd]. rewrite join_sp_snoc by discriminate. reflexivity.
    + cbn [fst snd]. now rewrite map_app.
Qed.

Lemma wrap_fold_layout (ws : list jsstring) :
  Forall (fun w : jsstring => w <> []) ws ->
  forall (groups : list (list jsstring)) (g : list jsstring),
    Forall (fun w : jsstring => w <> []) g ->
    fold_left wrap_step ws (map join_sp groups, join_sp g)
    = (map join_sp (fst (fold_left layout_step ws (groups, g))),
       join_sp (snd (fold_left layout_step ws (groups, g)))).
Proof.
  induction 1 as [|w ws Hw Hws IH]; intros groups g Hg; [reflexivity|].
  cbn [fold_left]. rewrite wrap_step_layout by exact Hg.
  assert (Hg1 : Forall (fun w => w <> [])
                  (snd (layout_step (groups, g) w))).
  { unfold Layout.layout_step. destruct g as [|a g']; [simpl; auto|].
    destruct (length (join_sp (a :: g') ++ SP :: w) <=? maxCharsPerLine);
      cbn [snd]; [apply Forall_app|]; auto. }
  rewrite (IH _ _ Hg1). now rewrite <- surjective_pairing.
Qed.

Lemma breaks_forced_last (groups : list (list jsstring))
  (g g' : list jsstring) :
  hd_error g = hd_error g' ->
  breaks_forced (groups ++ [g]) -> breaks_forced (groups ++ [g']).
Proof.
  intros Hh. induction groups as [|a groups IH]; simpl.
  - auto.
  - intros (H1 & H2). split; [|now apply IH].
    destruct groups as [|b groups]; simpl in *; [|exact H1].
    destruct g as [|x g], g' as [|x' g']; simpl in Hh; try discriminate; auto.
    now injection Hh as <-.
Qed.

Lemma breaks_forced_snoc (groups : list (list jsstring))
  (g : list jsstring) (w : jsstring) :
  g <> [] ->
  maxCharsPerLine < length (join_sp g ++ SP :: w) ->
  breaks_forced (groups ++ [g]) ->
  breaks_forced ((groups ++ [g]) ++ [[w]]).
Proof.
  intros Hg Hw. induction groups as [|a groups IH]; simpl.
  - intros _. repeat split. exact Hw.
  - intros (H1 & H2). split; [|now apply IH].
    destruct groups as [|b groups]; simpl in *.
    + destruct g; [congruence | exact H1].
    + exact H1.
Qed.

Lemma layout_step_inv (ws_done : list jsstring)
  (st : list (list jsstring) * list jsstring) (w : jsstring) :
  layout_inv ws_done st -> layout_inv (ws_done ++ [w]) (layout_step st w).
Proof.
  destruct st as [groups g]. intros (Hc & Hne & Hf).
  unfold Layout.layout_step. destruct g as [|a g'].
  - subst groups. simpl in *. subst ws_done. repeat split. constructor.
  - destruct (length (join_sp (a :: g') ++ SP :: w) <=? maxCharsPerLine)
      eqn:E.
    + split; [now rewrite <- Hc, <- !app_assoc|]. split; [exact Hne|].
      change ((a :: g') ++ [w]) with (a :: (g' ++ [w])).
      eapply breaks_forced_last; [|exact Hf]. reflexivity.
    + apply Nat.leb_gt in E.
      split; [rewrite concat_app; simpl; now rewrite <- Hc, app_nil_r|].
      split; [apply Forall_app; split; [exact Hne | repeat constructor; discriminate]|].
      apply breaks_forced_snoc; [discriminate | exact E | exact Hf].
Qed.

Lemma layout_fold_inv (ws : list jsstring) : forall ws_done st,
  layout_inv ws_done st ->
  layout_inv (ws_done ++ ws) (fold_left layout_step ws st).
Proof.
  induction ws as [|w ws IH]; intros ws_done st H; simpl.
  - now rewrite app_nil_r.
  - replace (ws_done ++ w :: ws) with ((ws_done ++ [w]) ++ ws)
      by now rewrite <- app_assoc.
    apply IH. now apply layout_step_inv.
Qed.

Lemma layout_spec (ws : list jsstring) :
  concat (layout maxCharsPerLine ws) = ws /\
  Forall (fun g => g <> []) (layout maxCharsPerLine ws) /\
  breaks_forced (layout maxCharsPerLine ws).
Proof.
  unfold layout.
  pose proof (@layout_fold_inv ws [] ([], [])) as H.
  destruct (fold_left (Layout.layout_step maxCharsPerLine) ws ([], []))
    as [groups g].
  destruct H as (Hc & Hne & Hf); [repeat split; constructor|].
  simpl in Hc. destruct g as [|a g'].
  - subst groups. subst ws. repeat split. constructor.
  - split; [rewrite concat_app; simpl; now rewrite app_nil_r|].
    split; [apply Forall_app; split; [exact Hne | repeat constructor; discriminate]|].
    exact Hf.
Qed.

End Greedy.

(** X3. The lines [formatSubtitle] returns are the first three of a
    layout of all the words of the text, in order and none left out, in
    which every line break is forced (the first word of a line would not
    have fitted, after a space, at the end of the line before); so a text
    whose layout has at most three lines is shown whole, and of a longer
    one exactly the first three lines are shown and the rest is dropped
    without a mark. *)
Theorem formatSubtitle_greedy (text : option jsstring)
  (maxCharsPerLine : nat) :
  let input := match text with Some s => s | None => [] end in
  let groups := layout maxCharsPerLine (tokens input) in
  formatSubtitle text maxCharsPerLine = map join_sp (firstn 3 groups) /\
  concat groups = tokens input /\
  Forall (fun g => g <> []) groups /\
  breaks_forced maxCharsPerLine groups /\
  (length groups <= 3 ->
     formatSubtitle text maxCharsPerLine = map join_sp groups) /\
  (3 < length groups ->
     length (formatSubtitle text maxCharsPerLine) = 3).
Proof.
  intros input groups.
  destruct (layout_spec maxCharsPerLine (tokens input)) as (Hc & Hne & Hf).
  fold groups in Hc, Hne, Hf.
  assert (Heq : formatSubtitle text maxCharsPerLine
                = map join_sp (firstn 3 groups)).
  { unfold formatSubtitle. rewrite words_tokens. fold input.
    subst groups. unfold layout.
    destruct (tokens input) as [|w ws] eqn:Et; [reflexivity|].
    assert (Hws : Forall (fun w : jsstring => w <> []) (w :: ws)).
    { rewrite <- Et. eapply Forall_impl; [|apply tokens_words].
      now intros a [Ha _]. }
    pose proof (@wrap_fold_layout maxCharsPerLine (w :: ws) Hws [] []
                  (Forall_nil (fun w : jsstring => w <> []))) as Hfold.
    change (map join_sp [], join_sp []) with (@nil jsstring, @nil char16)
      in Hfold.
    rewrite Hfold.
    pose proof (@layout_fold_inv maxCharsPerLine (w :: ws) [] ([], [])) as Hi.
    destruct (fold_left (Layout.layout_step maxCharsPerLine) (w :: ws)
                ([], [])) as [gs g].
    cbn [fst snd].
    destruct Hi as (Hcat & _ & _); [repeat split; constructor|].
    simpl in Hcat. rewrite <- Hcat in Hws. apply Forall_app in Hws as [_ Hg].
    destruct g as [|a g'].
    - change (join_sp (@nil jsstring)) with (@nil char16).
      cbn [length Nat.eqb]. now rewrite firstn_map.
    - assert (Hj : join_sp (a :: g') <> []).
      { intros E. now apply join_sp_nil in E. }
      destruct (length (join_sp (a :: g')) =? 0) eqn:E0.
      { apply Nat.eqb_eq, length_zero_iff_nil in E0. contradiction. }
      change [join_sp (a :: g')] with (map join_sp [a :: g']).
      now rewrite <- map_app, firstn_map. }
  split; [exact Heq|]. split; [exact Hc|]. split; [exact Hne|].
  split; [exact Hf|]. split.
  - intros Hl. rewrite Heq. now rewrite firstn_all2.
  - intros Hl. rewrite Heq, length_map, length_firstn. lia.
Qed.

Lemma formatSubtitle_greedy_witness :
  formatSubtitle (Some [97; 32; 98]%N) 1 = map join_sp [[[97]]; [[98]]]%N.
Proof.
  destruct (@formatSubtitle_greedy (Some [97; 32; 98]%N) 1)
    as (_ & _ & _ & _ & H & _).
  apply H. simpl. lia.
Defined.

End LayoutFacts.

(* ------------------------------------------------------------------ *)

Module AudioMore.
Import Audio AudioFacts.

Local Unset Implicit Arguments.

(** From a count of [c], [n] loud windows in a row that bring the count
    to three resolve the wait within those windows. *)
Lemma await_trigger_run (ws : list (list float)) : forall c n,
  1 <= n <= length ws -> REQUIRED_FRAMES <= c + n ->
  (forall j, j < n -> loud (nth j ws []) = true) ->
  exists k, await_trigger c ws = Some k /\ k <= n.
Proof.
  induction ws as [|w rest IH]; intros c n Hn Hc Hl; [simpl in Hn; lia|].
  cbn [await_trigger].
  assert (Hw : loud w = true) by (apply (Hl 0); lia).
  rewrite (@check_loud c w Hw).
  destruct (REQUIRED_FRAMES <=? S c) eqn:E.
  - exists 1. split; [reflexivity | lia].
  - apply Nat.leb_gt in E. simpl in Hn.
    destruct (IH (S c) (n - 1)) as (k & Hk & Hle); [lia | lia | |].
    + intros j Hj. apply (Hl (S j)). lia.
    + exists (S k). rewrite Hk. split; [reflexivity | lia].
Qed.

Lemma await_trigger_resolves (i : nat) : forall windows c,
  i + 3 <= length windows ->
  (forall j, i <= j < i + 3 -> loud (nth j windows []) = true) ->
  exists k, await_trigger c windows = Some k /\ k <= i + 3.
Proof.
  induction i as [|i IH]; intros windows c Hlen Hl.
  - apply await_trigger_run; [lia | unfold REQUIRED_FRAMES; lia |].
    intros j Hj. apply Hl. lia.
  - destruct windows as [|w rest]; [simpl in Hlen; lia|].
    cbn [await_trigger]. destruct (check c w) as [c' resolved].
    destruct resolved.
    + exists 1. split; [reflexivity | lia].
    + destruct (IH rest c') as (k & Hk & Hle).
      * simpl in Hlen. lia.
      * intros j Hj. apply (Hl (S j)). lia.
      * exists (S k). rewrite Hk. split; [reflexivity | lia].
Qed.

(** X4. Three consecutive windows with RMS at least 0.02 do start the
    emission: whenever the windows [i], [i + 1] and [i + 2] all reach the
    threshold, the wait resolves, at the window [i + 2] at the latest
    and never before three windows were sampled, and the three windows
    it ends on are themselves all at the threshold. *)
Theorem streaming_trigger_fires (windows : list (list float)) (i : nat) :
  i + 3 <= length windows ->
  (forall j, i <= j < i + 3 -> loud (nth j windows []) = true) ->
  emitting windows = true /\
  exists k, await_trigger 0 windows = Some k /\ 3 <= k <= i + 3 /\
            forall j, k - 3 <= j < k -> loud (nth j windows []) = true.
Proof.
  intros Hlen Hl.
  destruct (await_trigger_resolves i windows 0 Hlen Hl) as (k & Hk & Hle).
  split; [unfold emitting; now rewrite Hk|].
  exists k. split; [exact Hk|].
  destruct (@await_trigger_some windows 0 k Hk) as (Hb & [(Hn & Hall) | (Hn & Hlast)]);
    unfold REQUIRED_FRAMES in *.
  - split; [lia|]. intros j Hj. apply Hall. lia.
  - split; [lia | exact Hlast].
Qed.

Lemma streaming_trigger_fires_witness :
  emitting [[0.001; 0]; [0.5; 0.5]; [0.5; -0.5]; [0.1; 0.1]; [0; 0]]%float
  = true.
Proof.
  apply (@streaming_trigger_fires
           [[0.001; 0]; [0.5; 0.5]; [0.5; -0.5]; [0.1; 0.1]; [0; 0]]%float 1).
  - simpl. lia.
  - intros j Hj.
    assert (Hc : j = 1 \/ j = 2 \/ j = 3) by lia.
    destruct Hc as [-> | [-> | ->]]; vm_compute; reflexivity.
Defined.

(** *** When [playPcmChunk] starts a buffer *)

Lemma Int16Array_odd (buf : list Byte.byte) :
  Nat.even (length buf) = false -> Int16Array buf = None.
Proof.
  induction buf as [| a | a b l IH] using pair_ind; intros He.
  - discriminate.
  - reflexivity.
  - change (Int16Array (a :: b :: l))
      with (option_map (cons (int16_of_bytes a b)) (Int16Array l)).
    now rewrite IH.
Qed.

Section Chunk.
Variable supportedRate : float -> bool.
Variable startThrows : AudioBuffer -> bool.

Local Abbreviation chunk_buffer := (chunk_buffer supportedRate).
Local Abbreviation playPcmChunk := (playPcmChunk supportedRate startThrows).

Lemma playPcmChunk_unfold (arrayBuffer : list Byte.byte) (rate : float)
  (audioCtx : bool) (analyser : Analyser) :
  playPcmChunk arrayBuffer rate audioCtx analyser
  = if negb audioCtx then NoContext
    else match chunk_buffer arrayBuffer rate with
         | None => Threw
         | Some b =>
             match analyser with
             | ForeignAnalyser => Threw
             | OwnAnalyser =>
                 if startThrows b then StartThrew b true else Started b true
             | NoAnalyser =>
                 if startThrows b then StartThrew b false
                 else Started b false
             end
         end.
Proof.
  unfold Audio.playPcmChunk, Audio.chunk_buffer.
  destruct audioCtx; [|reflexivity]. simpl.
  destruct (Int16Array arrayBuffer); reflexivity.
Qed.

Lemma chunk_buffer_some (arrayBuffer : list Byte.byte) (rate : float) :
  Nat.even (length arrayBuffer) = true -> arrayBuffer <> [] ->
  supportedRate rate = true ->
  exists b, chunk_buffer arrayBuffer rate = Some b.
Proof.
  intros He Hne Hr.
  destruct (Int16Array_some arrayBuffer He) as (int16 & Hv).
  destruct (Int16Array_words arrayBuffer Hv) as (Hlen & _).
  assert (Hn : length int16 <> 0).
  { destruct arrayBuffer; [congruence | simpl in Hlen; lia]. }
  unfold Audio.chunk_buffer, createBuffer. rewrite Hv. cbv zeta.
  rewrite length_map, Hr. apply Nat.eqb_neq in Hn. rewrite Hn. simpl. eauto.
Qed.

Lemma chunk_buffer_shape (arrayBuffer : list Byte.byte) (rate : float)
  (b : AudioBuffer) :
  chunk_buffer arrayBuffer rate = Some b ->
  Nat.even (length arrayBuffer) = true /\ arrayBuffer <> [] /\
  supportedRate rate = true /\
  numberOfChannels b = 1 /\ sampleRate b = rate /\
  2 * bufferLength b = length arrayBuffer /\
  length (channelData b) = bufferLength b /\
  exists int16, Int16Array arrayBuffer = Some int16 /\
                channelData b = map sample_of_int16 int16.
Proof.
  unfold Audio.chunk_buffer, createBuffer. intros H.
  destruct (Nat.even (length arrayBuffer)) eqn:He;
    [|now rewrite (Int16Array_odd arrayBuffer He) in H].
  destruct (Int16Array arrayBuffer) as [int16|] eqn:Hv; [|discriminate].
  destruct (Int16Array_words arrayBuffer Hv) as (Hlen & _).
  cbv zeta in H. rewrite length_map in H.
  destruct (length int16 =? 0) eqn:Hn; [discriminate|].
  destruct (supportedRate rate); [|discriminate].
  simpl in H. injection H as <-. simpl. apply Nat.eqb_neq in Hn.
  repeat split; auto.
  - intros ->. simpl in Hlen. lia.
  - now rewrite length_map.
  - eauto.
Qed.

Ltac pcm_cases :=
  split; intros;
  repeat match goal with
         | H : _ /\ _ |- _ => destruct H
         | H : _ \/ _ |- _ => destruct H
         | H : Started _ _ = Started _ _ |- _ => injection H as <- <-
         | H : StartThrew _ _ = StartThrew _ _ |- _ => injection H as <- <-
         | H : Some _ = Some _ |- _ => injection H as <-
         end;
  try discriminate; try congruence;
  repeat split; auto; try congruence.

(** X5. [playPcmChunk] starts a buffer exactly when it is given an audio
    context and a chunk it can make a buffer of (a positive even number
    of bytes and a sample rate the browser accepts; the buffer then has
    one channel, half as many samples as there are bytes, the given rate
    and the decoded samples), when the avatar's analyser, if there is
    one, is a node of that same context, and when [start()] does not
    throw; the source is then routed through the analyser exactly when
    there is one.  Without a context nothing happens.  The call throws
    exactly when no buffer can be made or the analyser belongs to
    another context: with such an analyser no chunk is ever started.
    When [start()] itself throws the error is caught and the call
    returns. *)
Theorem playPcmChunk_starts_iff (arrayBuffer : list Byte.byte)
  (rate : float) (audioCtx : bool) (analyser : Analyser) :
  let r := playPcmChunk arrayBuffer rate audioCtx analyser in
  ((exists b, chunk_buffer arrayBuffer rate = Some b) <->
   Nat.even (length arrayBuffer) = true /\ arrayBuffer <> [] /\
   supportedRate rate = true) /\
  (forall b, chunk_buffer arrayBuffer rate = Some b ->
     numberOfChannels b = 1 /\ sampleRate b = rate /\
     2 * bufferLength b = length arrayBuffer /\
     length (channelData b) = bufferLength b /\
     exists int16, Int16Array arrayBuffer = Some int16 /\
                   channelData b = map sample_of_int16 int16) /\
  (forall b lipsync,
     r = Started b lipsync <->
     audioCtx = true /\ chunk_buffer arrayBuffer rate = Some b /\
     startThrows b = false /\
     (analyser = NoAnalyser /\ lipsync = false \/
      analyser = OwnAnalyser /\ lipsync = true)) /\
  (forall b lipsync,
     r = StartThrew b lipsync <->
     audioCtx = true /\ chunk_buffer arrayBuffer rate = Some b /\
     startThrows b = true /\
     (analyser = NoAnalyser /\ lipsync = false \/
      analyser = OwnAnalyser /\ lipsync = true)) /\
  (r = NoContext <-> audioCtx = false) /\
  (r = Threw <->
   audioCtx = true /\
   (chunk_buffer arrayBuffer rate = None \/ analyser = ForeignAnalyser)) /\
  (analyser = ForeignAnalyser -> forall b lipsync, r <> Started b lipsync).
Proof.
  cbv zeta. rewrite playPcmChunk_unfold.
  split.
  { split.
    - intros (b & Hb).
      destruct (chunk_buffer_shape _ _ _ Hb) as (H1 & H2 & H3 & _). auto.
    - intros (H1 & H2 & H3). now apply chunk_buffer_some. }
  split.
  { intros b Hb. destruct (chunk_buffer_shape _ _ _ Hb)
      as (_ & _ & _ & H4 & H5 & H6 & H7 & H8). auto. }
  destruct audioCtx; simpl;
    [destruct (chunk_buffer arrayBuffer rate) as [b0|] eqn:Hb;
     [destruct analyser; destruct (startThrows b0) eqn:Hs|]|].
  all: split; [intros b lipsync; pcm_cases|].
  all: split; [intros b lipsync; pcm_cases|].
  all: split; [pcm_cases|].
  all: split; [pcm_cases|].
  all: intros; try discriminate; try congruence.
Qed.

End Chunk.

End AudioMore.

(* ------------------------------------------------------------------ *)

Module TurnMore.
Import Audio Turn TurnObs TurnFacts.

Local Unset Implicit Arguments.

(** *** Sends *)

Lemma step_sends (s : Sys) (e : Event) :
  exclusive s ->
  length (sent (world (step s e))) + list_sum (map unsent (turns (step s e)))
  <= length (sent (world s)) + list_sum (map unsent (turns s))
     + accepted s [e].
Proof.
  intros [(Hb & Ht) | (Hb & pc & Ht)]; destruct s as [w ts]; simpl in *;
    subst ts.
  - destruct e as [|i o|]; simpl.
    + unfold loopOnce. rewrite Hb. simpl. lia.
    + destruct i; simpl; lia.
    + destruct (leftover w); simpl; lia.
  - destruct e as [|i o|]; simpl.
    + unfold loopOnce. rewrite Hb. simpl. lia.
    + destruct i as [|i]; simpl; [|destruct i; simpl; lia].
      destruct pc, o; simpl; try lia;
        repeat match goal with
               | |- context [if ?b then _ else _] => destruct b; simpl
               end; lia.
    + destruct (leftover w); simpl; lia.
Qed.

Lemma run_sends (events : list Event) : forall s,
  exclusive s ->
  length (sent (world (run s events)))
  + list_sum (map unsent (turns (run s events)))
  <= length (sent (world s)) + list_sum (map unsent (turns s))
     + accepted s events.
Proof.
  induction events as [|e rest IH]; intros s Hs; [simpl; lia|].
  change (run s (e :: rest)) with (run (step s e) rest).
  pose proof (IH (step s e) (@step_exclusive s e Hs)) as H1.
  pose proof (step_sends s e Hs) as H2.
  change (accepted s (e :: rest))
    with ((match e with
           | CallLoopOnce => if busy (world s) then 0 else 1
           | _ => 0
           end) + accepted (step s e) rest).
  simpl in H2. lia.
Qed.

Lemma In_replace_nth {A} (x a : A) (l : list A) : forall i,
  In x (replace_nth i a l) -> x = a \/ In x l.
Proof.
  induction l as [|b l IH]; intros [|i]; simpl; auto.
  - intros [H|H]; auto.
  - intros [H|H]; auto. destruct (IH i H); auto.
Qed.

Lemma In_remove_nth {A} (x : A) (l : list A) : forall i,
  In x (remove_nth i l) -> In x l.
Proof.
  induction l as [|b l IH]; intros [|i]; simpl; auto.
  intros [H|H]; eauto.
Qed.

Lemma step_holds (s : Sys) (e : Event) (b : Blob) :
  holds (step s e) b ->
  holds s b \/ exists i, e = Resume i (RecordResolved b).
Proof.
  unfold holds. destruct s as [w ts]. destruct e as [|i o|]; simpl.
  - unfold loopOnce. destruct (busy w); simpl; [tauto|].
    rewrite !in_app_iff. simpl. intuition discriminate.
  - destruct (nth_error ts i) as [pc|] eqn:En; [|tauto].
    apply nth_error_In in En.
    destruct (resume pc o w) as [[[pc'|] w']|] eqn:Er; simpl; [| |tauto].
    + assert (Hs : forall x, In x (sent w') ->
                In x (sent w) \/ In (AwaitVolume x) ts).
      { destruct pc, o; simpl in Er; try discriminate;
          repeat match type of Er with
                 | context [if ?c then _ else _] => destruct c; simpl in Er
                 end;
          try discriminate; injection Er as <- <-; simpl; auto;
          intros x [<- | H]; auto. }
      assert (Hp : forall x, pc' = AwaitVolume x ->
                o = RecordResolved x).
      { destruct pc, o; simpl in Er; try discriminate;
          repeat match type of Er with
                 | context [if ?c then _ else _] => destruct c; simpl in Er
                 end;
          try discriminate; injection Er as <- _; intros x Hx;
          try discriminate.
        now injection Hx as ->. }
      assert (Hq : forall x, pc' = AwaitBackend x -> pc = AwaitVolume x).
      { destruct pc, o; simpl in Er; try discriminate;
          repeat match type of Er with
                 | context [if ?c then _ else _] => destruct c; simpl in Er
                 end;
          try discriminate; injection Er as <- _; intros x Hx;
          try discriminate.
        now injection Hx as ->. }
      intros [H | [H | H]].
      * destruct (Hs _ H); auto.
      * apply In_replace_nth in H as [H | H]; auto.
        right. exists i. f_equal. apply Hp. now symmetry.
      * apply In_replace_nth in H as [H | H]; auto.
        left. right. left. rewrite <- (Hq b); [exact En | now symmetry].
    + assert (Hs : sent w' = sent w).
      { destruct pc, o; simpl in Er; try discriminate;
          repeat match type of Er with
                 | context [if ?c then _ else _] => destruct c; simpl in Er
                 end;
          try discriminate; injection Er as <-; reflexivity. }
      rewrite Hs.
      intros [H | [H | H]]; auto; apply In_remove_nth in H; auto.
  - destruct (leftover w); simpl; tauto.
Qed.

Lemma run_holds (events : list Event) : forall s b,
  holds (run s events) b ->
  holds s b \/ exists i, In (Resume i (RecordResolved b)) events.
Proof.
  induction events as [|e rest IH]; intros s b H; [now left|].
  change (run s (e :: rest)) with (run (step s e) rest) in H.
  destruct (IH _ _ H) as [H1 | (i & Hi)].
  - destruct (step_holds s e b H1) as [H2 | (i & ->)]; [now left|].
    right. exists i. now left.
  - right. exists i. now right.
Qed.

(** X6. In any run of the page, the blobs handed to the backend are at
    most as many as the start attempts that found [busy] clear (a turn
    sends once at most), and each of them was recorded in the run: it is
    a blob [recordChunk] resolved to. *)
Theorem sends_one_per_turn_at_most (events : list Event) :
  let s := run boot events in
  length (sent (world s)) <= accepted boot events /\
  forall b, In b (sent (world s)) ->
    exists i, In (Resume i (RecordResolved b)) events.
Proof.
  intros s. split.
  - pose proof (run_sends events boot boot_exclusive) as H.
    fold s in H. simpl in H. lia.
  - intros b Hb.
    destruct (run_holds events boot b) as [[H | [H | H]] | H]; auto;
      try contradiction.
    now left.
Qed.

(** *** Toasts *)

Lemma resume_toasts (pc : Pc) (o : Outcome) (w : World) :
  match resume pc o w with
  | Some (_, w') => toasts w' = toasts w + (if failed o then 1 else 0)
  | None => True
  end.
Proof.
  destruct pc, o; simpl; auto;
    repeat match goal with
           | |- context [if ?b then _ else _] => destruct b; simpl
           end; lia.
Qed.

Lemma step_toasts (s : Sys) (e : Event) :
  toasts (world (step s e))
  <= toasts (world s) + (if failure e then 1 else 0).
Proof.
  destruct s as [w ts]. destruct e as [|i o|]; simpl.
  - unfold loopOnce. destruct (busy w); simpl; lia.
  - destruct (nth_error ts i) as [pc|]; simpl; [|lia].
    pose proof (resume_toasts pc o w) as H.
    destruct (resume pc o w) as [[[pc'|] w']|]; simpl; lia.
  - destruct (leftover w); simpl; lia.
Qed.

(** X7. In any run, the error toasts shown are at most as many as the
    failures that happened (a rejected capture, a failed request, an
    exception in the code that renders the reply or ends the playback, a
    refused playback): a run without failure shows no toast. *)
Theorem toasts_only_on_failure (events : list Event) :
  toasts (world (run boot events)) <= failures events /\
  (failures events = 0 -> toasts (world (run boot events)) = 0).
Proof.
  assert (H : forall evs s,
            toasts (world (run s evs)) <= toasts (world s) + failures evs).
  { induction evs as [|e rest IH]; intros s; [simpl; lia|].
    change (run s (e :: rest)) with (run (step s e) rest).
    pose proof (IH (step s e)) as H1. pose proof (step_toasts s e) as H2.
    unfold failures in *. simpl. destruct (failure e); simpl; lia. }
  pose proof (H events boot) as H0. simpl in H0. split; lia.
Qed.

(** *** Phase and status *)

Lemma step_settled (s : Sys) (e : Event) :
  exclusive s -> settled s -> settled (step s e).
Proof.
  unfold settled.
  intros [(Hb & Ht) | (Hb & pc & Ht)]; destruct s as [w ts]; simpl in *;
    subst ts.
  - intros (Hp & Hpl). destruct e as [|i o|]; simpl.
    + unfold loopOnce. rewrite Hb. simpl. auto.
    + destruct i; simpl; auto.
    + destruct (leftover w); simpl; auto.
  - intros Hpl. destruct e as [|i o|]; simpl.
    + unfold loopOnce. rewrite Hb. simpl. exact Hpl.
    + destruct i as [|i]; simpl; [|destruct i; simpl; exact Hpl].
      destruct pc, o; simpl; auto;
        repeat match goal with
               | |- context [if ?b then _ else _] => destruct b; simpl
               end; auto;
        try (intros [H | (b & H)]; discriminate);
        try (split; [reflexivity|]); try (intros _);
        try (apply Hpl; simpl; eauto).
    + destruct (leftover w); simpl; auto.
Qed.

Lemma run_settled (events : list Event) : forall s,
  exclusive s -> settled s -> settled (run s events).
Proof.
  induction events as [|e rest IH]; intros s Hx Hs; [exact Hs|].
  apply IH; [now apply step_exclusive | now apply step_settled].
Qed.

Lemma step_in_step (s : Sys) (e : Event) :
  is_leftover e = false -> exclusive s -> in_step s -> in_step (step s e).
Proof.
  unfold in_step. intros He.
  intros [(Hb & Ht) | (Hb & pc & Ht)]; destruct s as [w ts]; simpl in *;
    subst ts; intros (Hp & Hpl).
  - destruct e as [|i o|]; simpl; try discriminate.
    + unfold loopOnce. rewrite Hb. simpl. auto.
    + destruct i; simpl; auto.
  - destruct e as [|i o|]; simpl; try discriminate.
    + unfold loopOnce. rewrite Hb. simpl. auto.
    + destruct i as [|i]; simpl; [|destruct i; simpl; auto].
      destruct pc, o; simpl in *; auto;
        repeat match goal with
               | |- context [if ?b then _ else _] => destruct b; simpl
               end; auto.
Qed.

Lemma run_in_step (events : list Event) : forall s,
  forallb (fun e => negb (is_leftover e)) events = true ->
  exclusive s -> in_step s -> in_step (run s events).
Proof.
  induction events as [|e rest IH]; intros s Hl Hx Hs; [exact Hs|].
  simpl in Hl. apply andb_prop in Hl as [He Hl].
  apply negb_true_iff in He.
  apply IH; [exact Hl | now apply step_exclusive | now apply step_in_step].
Qed.

(** X8. In any run: when no activation of [loopOnce] is alive the phase
    is [idle] and the playing flag is clear.  And as long as no leftover
    callback of an earlier turn has run, the phase follows the turn
    exactly: [listening] while it records and checks the volume,
    [processing] while the request is out, [answering] while the reply
    plays, [idle] otherwise; the playing flag is set exactly during
    [answering]. *)
Theorem phase_follows_turn (events : list Event) :
  let s := run boot events in
  (turns s = [] ->
     currentPhase (world s) = idle /\ isPlayingAudio (world s) = false) /\
  (forallb (fun e => negb (is_leftover e)) events = true ->
     currentPhase (world s) = phase_of (turns s) /\
     isPlayingAudio (world s) = playing_of (turns s)).
Proof.
  intros s. split.
  - intros Ht.
    pose proof (run_settled events boot boot_exclusive) as H.
    fold s in H. unfold settled in H. rewrite Ht in H.
    apply H. simpl. auto.
  - intros Hl. apply (run_in_step events boot Hl boot_exclusive).
    split; reflexivity.
Qed.

Lemma phase_follows_turn_witness :
  currentPhase
    (world (run boot [CallLoopOnce; Resume 0 (RecordResolved []);
                      Resume 0 (VolumeChecked None)])) = processing.
Proof.
  apply (phase_follows_turn [CallLoopOnce; Resume 0 (RecordResolved []);
                             Resume 0 (VolumeChecked None)]).
  reflexivity.
Defined.

End TurnMore.

(* ------------------------------------------------------------------ *)

Module KioskMore.
Import Kiosk TurnObs.

Local Unset Implicit Arguments.

Section Page.
Variable pcfg : Presence.Cfg.
Variable presenceVideo : Presence.Video.

Local Abbreviation step := (step pcfg presenceVideo).
Local Abbreviation run := (run pcfg presenceVideo).

(** What the page keeps true of its dialogue. *)
Lemma page_step_settled (k : State) (e : Event) :
  Turn.exclusive (dialogue k) /\ settled (dialogue k) ->
  Turn.exclusive (dialogue (step k e)) /\ settled (dialogue (step k e)).
Proof.
  intros (Hx & Hs).
  split; [now apply KioskFacts.page_step_exclusive|].
  assert (Hcall : forall k', dialogue k' = dialogue k ->
            settled (dialogue (set_dialogue
                       (Turn.step (dialogue k) Turn.CallLoopOnce) k'))).
  { intros k' _. now apply TurnMore.step_settled. }
  destruct e as [| | | [t r | t] | i o |]; unfold Kiosk.step.
  - unfold tick.
    destruct (presence_gated_mode && mainLoopStarted k
              && Presence.presenceDetected (presence k)
              && is_idle (Turn.currentPhase (Turn.world (dialogue k))));
      [now apply Hcall | assumption].
  - assumption.
  - destruct (Turn.toasts (Turn.world (dialogue k)));
      [assumption | now apply Hcall].
  - destruct (faceMesh k); [|assumption].
    now destruct (Presence.step pcfg presenceVideo (presence k)
                    (Presence.Frame t r)).
  - now destruct (Presence.step pcfg presenceVideo (presence k)
                    (Presence.HoldTimer t)).
  - now apply TurnMore.step_settled.
  - now apply TurnMore.step_settled.
Qed.

Lemma page_run_settled (events : list Event) : forall k,
  Turn.exclusive (dialogue k) /\ settled (dialogue k) ->
  Turn.exclusive (dialogue (run k events)) /\
  settled (dialogue (run k events)).
Proof.
  induction events as [|e rest IH]; intros k Hk; [exact Hk|].
  apply IH. now apply page_step_settled.
Qed.

(** X9. What the status indicator shows, in any run of the page started
    with the camera granted or refused: without presence it shows "no
    face, microphone off", whatever the dialogue does; with the camera
    refused it shows that for ever; and with presence on and no turn
    running it shows "ready". *)
Theorem status_indicator (cameraGranted : bool) (events : list Event) :
  let k := run (startPresenceDetection cameraGranted loaded) events in
  let status :=
    updateStatusFromState (Presence.presenceDetected (presence k))
      (Turn.world (dialogue k)) in
  (Presence.presenceDetected (presence k) = false ->
     status = status_noface) /\
  (cameraGranted = false -> status = status_noface) /\
  (Presence.presenceDetected (presence k) = true ->
     Turn.turns (dialogue k) = [] -> status = status_idle).
Proof.
  intros k status.
  assert (Hoff : Presence.presenceDetected (presence k) = false ->
                 status = status_noface).
  { intros H. subst status. unfold updateStatusFromState. now rewrite H. }
  split; [exact Hoff|]. split.
  - intros ->. apply Hoff.
    assert (Hd : dormant (run (startPresenceDetection false loaded) events)).
    { apply KioskFacts.run_dormant. repeat split. }
    apply Hd.
  - intros Hon Ht.
    assert (Hs : settled (dialogue k)).
    { apply page_run_settled.
      destruct cameraGranted; (split; [left | ]); repeat split. }
    unfold settled in Hs. rewrite Ht in Hs. destruct Hs as (Hp & Hpl).
    subst status. unfold updateStatusFromState. now rewrite Hon, Hp, Hpl.
Qed.

End Page.

Lemma status_indicator_witness :
  updateStatusFromState
    (Presence.presenceDetected
       (presence (Kiosk.run Presence.no_cfg Presence.camera
                    (startPresenceDetection false loaded)
                    [Tick; RetryClick; Tick])))
    (Turn.world
       (dialogue (Kiosk.run Presence.no_cfg Presence.camera
                    (startPresenceDetection false loaded)
                    [Tick; RetryClick; Tick])))
  = status_noface.
Proof.
  apply (status_indicator Presence.no_cfg Presence.camera false
           [Tick; RetryClick; Tick]).
  reflexivity.
Defined.

End KioskMore.

(* ------------------------------------------------------------------ *)

Module RecorderFacts.
Import Recorder.

Local Unset Implicit Arguments.

Ltac sound_case :=
  simpl;
  split;
  [ first [ left; split; [assumption || reflexivity | reflexivity]
          | right; split; [assumption || reflexivity | eexists; reflexivity] ]
  | rewrite ?length_app; simpl in *; lia ].

Lemma step_sound (s : State) (e : Event) (n : nat) :
  sound s n -> sound (step s e) (n + calls [e]).
Proof.
  unfold sound, calls.
  intros ([(Hr & Hc) | (Hr & c & Hc)] & Hn); destruct s as [r ch cs st];
    simpl in *; subst cs r.
  - destruct e as [|i g|i d|i l]; simpl.
    + sound_case.
    + destruct i; sound_case.
    + destruct i; sound_case.
    + destruct i; sound_case.
  - destruct e as [|i g|i d|i l]; simpl.
    + sound_case.
    + destruct i as [|i]; [destruct c; [destruct g|]|destruct i]; sound_case.
    + destruct i as [|i]; [destruct c|destruct i]; sound_case.
    + destruct i as [|i]; [destruct c|destruct i]; sound_case.
Qed.

Lemma calls_cons (e : Event) (events : list Event) :
  calls (e :: events) = calls [e] + calls events.
Proof. unfold calls. simpl. destruct (is_call e); reflexivity. Qed.

Lemma run_sound (events : list Event) : forall s n,
  sound s n -> sound (run s events) (n + calls events).
Proof.
  induction events as [|e rest IH]; intros s n H.
  - simpl. unfold calls. simpl. now rewrite Nat.add_0_r.
  - rewrite calls_cons, Nat.add_assoc.
    change (run s (e :: rest)) with (run (step s e) rest).
    apply IH. now apply step_sound.
Qed.

(** X10. Whatever calls of [recordChunk] and whatever microphone and
    recorder events follow one another, at most one capture is under way
    and [isRecording] is set exactly while it is; a call made meanwhile
    is rejected and leaves the data collected so far and the capture
    under way as they are; and every call of the run has been settled
    exactly once, except the one under way. *)
Theorem one_capture_at_a_time (events : list Event) :
  let s := run boot events in
  length (captures s) <= 1 /\
  (isRecording s = true <-> length (captures s) = 1) /\
  length (settled s) + length (captures s) = calls events /\
  (isRecording s = true ->
     chunks (step s Call) = chunks s /\
     captures (step s Call) = captures s /\
     settled (step s Call) = settled s ++ [Rejected]).
Proof.
  intros s.
  assert (H : sound s (0 + calls events)).
  { apply run_sound. split; [left; split; reflexivity | reflexivity]. }
  destruct H as ([(Hr & Hc) | (Hr & c & Hc)] & Hn); rewrite Hc in *;
    simpl in *;
    repeat split; intros; try lia; try congruence;
    try (rewrite Hr in *; discriminate);
    try (rewrite Hr; simpl; auto).
Qed.

Lemma one_capture_witness :
  settled (step (run boot [Call; Mic 0 true]) Call) = [Rejected].
Proof.
  apply (one_capture_at_a_time [Call; Mic 0 true]). reflexivity.
Defined.

(** Dropping the empty chunks does not change the blob. *)
Lemma concat_ondataavailable (data : Blob) (chunks : list Blob) :
  concat (ondataavailable data chunks) = concat chunks ++ data.
Proof.
  destruct data; simpl.
  - now rewrite app_nil_r.
  - rewrite concat_app. simpl. now rewrite app_nil_r.
Qed.

Lemma lone_capture (mid : list Event) : forall ch st,
  forallb call_or_data mid = true ->
  let s := run {| isRecording := true; chunks := ch;
                  captures := [Capturing]; settled := st |} mid in
  isRecording s = true /\ captures s = [Capturing] /\
  concat (chunks s) = concat ch ++ concat (data_of mid) /\
  settled s = st ++ repeat Rejected (calls mid).
Proof.
  induction mid as [|e rest IH]; intros ch st Hm.
  - simpl. unfold calls. simpl. rewrite !app_nil_r. auto.
  - simpl in Hm. apply andb_prop in Hm as [He Hm].
    destruct e as [|i g|[|i] d|i l]; try discriminate.
    + cbv zeta. change (run ?s (Call :: rest)) with (run (step s Call) rest).
      cbn [step isRecording chunks captures settled].
      destruct (IH ch (st ++ [Rejected]) Hm) as (H1 & H2 & H3 & H4).
      cbv zeta in *. rewrite calls_cons.
      split; [exact H1|]. split; [exact H2|]. split; [exact H3|].
      rewrite H4, <- app_assoc. reflexivity.
    + cbv zeta.
      change (run ?s (Data 0 d :: rest)) with (run (step s (Data 0 d)) rest).
      cbn [step isRecording chunks captures settled nth_error].
      destruct (IH (ondataavailable d ch) st Hm) as (H1 & H2 & H3 & H4).
      cbv zeta in *. rewrite calls_cons.
      split; [exact H1|]. split; [exact H2|]. split.
      * rewrite H3, concat_ondataavailable. simpl. now rewrite app_assoc.
      * rewrite H4. reflexivity.
Qed.



End RecorderFacts.

(* ------------------------------------------------------------------ *)

Module ConnectFacts.
Import Connect String.

Local Unset Implicit Arguments.

Section Loop.
Variable attempt : string -> Attempt.

Local Abbreviation try_hosts := (try_hosts attempt).
Local Abbreviation opens := (opens attempt).
Local Abbreviation refused := (refused attempt).

Lemma try_hosts_none (hosts : list string) : forall st,
  forallb (fun h => negb (opens h)) hosts = true ->
  try_hosts hosts st
  = {| wsStream := match hosts with [] => wsStream st | _ => None end;
       tried := tried st ++ hosts;
       closed := closed st ++ filter refused hosts |}.
Proof.
  induction hosts as [|h rest IH]; intros st H.
  - simpl. rewrite !app_nil_r. now destruct st.
  - simpl in H. apply andb_prop in H as [Hh Hr].
    unfold Connect.opens in Hh. simpl. unfold Connect.refused at 1.
    destruct (attempt h); try discriminate;
      rewrite (IH _ Hr); simpl; rewrite <- !app_assoc; simpl;
      destruct rest; reflexivity.
Qed.

Lemma try_hosts_first (pre : list string) (h : string) (post : list string) :
  forall st,
  forallb (fun h => negb (opens h)) pre = true -> opens h = true ->
  try_hosts (pre ++ h :: post) st
  = {| wsStream := Some h; tried := tried st ++ pre ++ [h];
       closed := closed st ++ filter refused pre |}.
Proof.
  induction pre as [|p pre IH]; intros st Hp Hh.
  - simpl. unfold Connect.opens in Hh.
    destruct (attempt h); try discriminate. now rewrite app_nil_r.
  - simpl in Hp. apply andb_prop in Hp as [Hp1 Hp2].
    unfold Connect.opens in Hp1. simpl. unfold Connect.refused at 1.
    destruct (attempt p); try discriminate;
      rewrite (IH _ Hp2 Hh); simpl; now rewrite <- !app_assoc.
Qed.

(** The hosts split at the first one that opens, when there is one. *)
Lemma first_opening (hosts : list string) :
  forallb (fun h => negb (opens h)) hosts = true \/
  exists pre h post,
    hosts = pre ++ h :: post /\
    forallb (fun h => negb (opens h)) pre = true /\ opens h = true.
Proof.
  induction hosts as [|a rest IH]; [now left|].
  destruct (opens a) eqn:Ha.
  - right. exists [], a, rest. auto.
  - destruct IH as [H | (pre & h & post & -> & Hp & Hh)].
    + left. simpl. now rewrite Ha, H.
    + right. exists (a :: pre), h, post. simpl. rewrite Ha. auto.
Qed.

(** X12. [startWebSocketStreaming] on a page without a channel: it ends
    up streaming exactly when some candidate opens, on the first
    candidate that does; the candidates after that one are never
    contacted, and every socket refused before it has been closed.  When
    no candidate opens the handle is left empty, every candidate was
    tried once in order, and the function goes on with the polling
    fallback.  On a page that has a channel already it does nothing. *)
Theorem connects_to_first_host_that_opens (hosts : list string) (st : State) :
  (wsStream st = None ->
   forall pre h post,
     hosts = pre ++ h :: post ->
     forallb (fun h => negb (opens h)) pre = true -> opens h = true ->
     startWebSocketStreaming attempt hosts st
     = (Streaming,
        {| wsStream := Some h; tried := tried st ++ pre ++ [h];
           closed := closed st ++ filter refused pre |})) /\
  (wsStream st = None ->
   forallb (fun h => negb (opens h)) hosts = true ->
   startWebSocketStreaming attempt hosts st
   = (PollingFallback,
      {| wsStream := None; tried := tried st ++ hosts;
         closed := closed st ++ filter refused hosts |})) /\
  (wsStream st = None ->
   (fst (startWebSocketStreaming attempt hosts st) = Streaming <->
    existsb opens hosts = true)) /\
  (wsStream st <> None ->
   startWebSocketStreaming attempt hosts st = (AlreadyOpen, st)).
Proof.
  assert (H1 : wsStream st = None ->
   forall pre h post,
     hosts = pre ++ h :: post ->
     forallb (fun h => negb (opens h)) pre = true -> opens h = true ->
     startWebSocketStreaming attempt hosts st
     = (Streaming,
        {| wsStream := Some h; tried := tried st ++ pre ++ [h];
           closed := closed st ++ filter refused pre |})).
  { intros Hn pre h post -> Hp Hh. unfold startWebSocketStreaming.
    rewrite Hn, (try_hosts_first pre h post st Hp Hh). reflexivity. }
  assert (H2 : wsStream st = None ->
   forallb (fun h => negb (opens h)) hosts = true ->
   startWebSocketStreaming attempt hosts st
   = (PollingFallback,
      {| wsStream := None; tried := tried st ++ hosts;
         closed := closed st ++ filter refused hosts |})).
  { intros Hn Hh. unfold startWebSocketStreaming.
    rewrite Hn, (try_hosts_none hosts st Hh). simpl.
    rewrite Hn. now destruct hosts. }
  split; [exact H1|]. split; [exact H2|]. split.
  - intros Hn.
    destruct (first_opening hosts) as [Hall | (pre & h & post & E & Hp & Hh)].
    + rewrite (H2 Hn Hall). simpl. split; [discriminate|].
      intros Hex. exfalso. apply existsb_exists in Hex as (x & Hx & Hox).
      rewrite forallb_forall in Hall. specialize (Hall x Hx).
      now rewrite Hox in Hall.
    + rewrite (H1 Hn pre h post E Hp Hh). simpl. split; [|reflexivity].
      intros _. apply existsb_exists. exists h. split; [|exact Hh].
      rewrite E. apply in_or_app. right. now left.
  - intros Hs. unfold startWebSocketStreaming.
    destruct (wsStream st); [reflexivity | congruence].
Qed.

End Loop.

Lemma connects_witness :
  startWebSocketStreaming
    (fun h => if (h =? "localhost")%string then Opened else Refused)
    candidates idle_state
  = (Streaming,
     {| wsStream := Some "localhost"%string;
        tried := ["127.0.0.1"; "localhost"]%string;
        closed := ["127.0.0.1"]%string |}).
Proof.
  destruct (connects_to_first_host_that_opens
              (fun h => if (h =? "localhost")%string then Opened else Refused)
              candidates idle_state) as (H & _).
  apply (H eq_refl ["127.0.0.1"%string] "localhost"%string []); reflexivity.
Defined.

End ConnectFacts.

(* ------------------------------------------------------------------ *)

Module AvatarLoadFacts.
Import AvatarLoad String.

Local Unset Implicit Arguments.

Section Loop.
Variable load : string -> Loaded.

Local Abbreviation try_models := (try_models load).
Local Abbreviation loads := (loads load).

Lemma try_models_skip (pre : list string) : forall rest st,
  forallb (fun u => negb (loads u)) pre = true ->
  try_models (pre ++ rest) st = try_models rest st.
Proof.
  induction pre as [|p pre IH]; intros rest st H; [reflexivity|].
  simpl in H. apply andb_prop in H as [Hp Hr].
  unfold AvatarLoad.loads in Hp. simpl.
  destruct (load p); try discriminate. now apply IH.
Qed.

Lemma first_loading (urls : list string) :
  forallb (fun u => negb (loads u)) urls = true \/
  exists pre u post,
    urls = pre ++ u :: post /\
    forallb (fun u => negb (loads u)) pre = true /\ loads u = true.
Proof.
  induction urls as [|a rest IH]; [now left|].
  destruct (loads a) eqn:Ha.
  - right. exists [], a, rest. auto.
  - destruct IH as [H | (pre & u & post & -> & Hp & Hu)].
    + left. simpl. now rewrite Ha, H.
    + right. exists (a :: pre), u, post. simpl. rewrite Ha. auto.
Qed.

Lemma last_morph_mesh_from (meshes : list bool) : forall k kept,
  (last_morph_mesh k kept meshes = kept /\
   forall j, nth_error meshes j <> Some true) \/
  exists i, last_morph_mesh k kept meshes = Some (k + i) /\
            nth_error meshes i = Some true /\
            forall j, i < j -> nth_error meshes j <> Some true.
Proof.
  induction meshes as [|m rest IH]; intros k kept.
  - left. split; [reflexivity|]. intros [|j]; discriminate.
  - cbn [last_morph_mesh].
    destruct (IH (S k) (if m then Some k else kept))
      as [(E & Hno) | (i & E & Hi & Hlast)].
    + destruct m.
      * right. exists 0. rewrite E, Nat.add_0_r.
        split; [reflexivity|]. split; [reflexivity|].
        intros [|j] Hj; [lia|]. apply Hno.
      * left. split; [exact E|]. intros [|j]; [discriminate | apply Hno].
    + right. exists (S i). rewrite E.
      split; [f_equal; lia|]. split; [exact Hi|].
      intros [|j] Hj; [lia|]. apply Hlast. lia.
Qed.

(** The mesh kept is the last one with morph targets. *)
Lemma last_morph_mesh_last (meshes : list bool) :
  (forall i, last_morph_mesh 0 None meshes = Some i <->
     nth_error meshes i = Some true /\
     forall j, i < j -> nth_error meshes j <> Some true) /\
  (last_morph_mesh 0 None meshes = None <->
     forall j, nth_error meshes j <> Some true).
Proof.
  destruct (last_morph_mesh_from meshes 0 None)
    as [(E & Hno) | (i0 & E & Hi & Hlast)]; rewrite E.
  - split.
    + intros i. split; [discriminate|]. intros [Hi _].
      exfalso. exact (Hno i Hi).
    + split; auto.
  - simpl. split.
    + intros i. split.
      * intros Hs. injection Hs as <-. split; assumption.
      * intros [Hi' Hlast']. f_equal.
        destruct (Nat.lt_trichotomy i0 i) as [Hlt | [-> | Hgt]];
          [|reflexivity|].
        -- exfalso. exact (Hlast i Hlt Hi').
        -- exfalso. exact (Hlast' i0 Hgt Hi).
    + split; [discriminate|]. intros Hno. exfalso. exact (Hno i0 Hi).
Qed.


End Loop.


End AvatarLoadFacts.

(* ------------------------------------------------------------------ *)

Module SessionFacts.
Import Session.

Local Unset Implicit Arguments.

Lemma step_failed_marked (st : State) (e : Event) :
  failed st = true -> marked st ->
  failed (step st e) = true /\ marked (step st e) /\
  micRequests (step st e) = micRequests st /\
  alerts (step st e) = alerts st /\
  (btnActiveText st || is_click e = true ->
   btnActiveText (step st e) = true).
Proof.
  unfold failed, marked.
  destruct st as [p pe c d a m al]; simpl. intros H Hm.
  destruct p, pe, c; try discriminate. subst a.
  destruct e as [k | k]; destruct d, k; simpl; auto.
Qed.

Lemma run_failed_marked (events : list Event) : forall st,
  failed st = true -> marked st ->
  failed (run st events) = true /\ marked (run st events) /\
  micRequests (run st events) = micRequests st /\
  alerts (run st events) = alerts st /\
  (btnActiveText st || existsb is_click events = true ->
   btnActiveText (run st events) = true).
Proof.
  induction events as [|e rest IH]; intros st Hf Hm.
  - simpl. rewrite orb_false_r. auto.
  - destruct (step_failed_marked st e Hf Hm) as (Hf1 & Hm1 & Hq & Ha & Hb).
    destruct (IH (step st e) Hf1 Hm1) as (Hf2 & Hm2 & Hq2 & Ha2 & Hb2).
    simpl. fold (run (step st e) rest).
    split; [exact Hf2|]. split; [exact Hm2|].
    split; [congruence|]. split; [congruence|].
    intros H. apply Hb2.
    destruct (btnActiveText st) eqn:Eb; simpl in H.
    + rewrite Hb; reflexivity.
    + apply orb_true_iff in H as [H | H].
      * rewrite Hb; [reflexivity | exact H].
      * rewrite H. apply orb_true_r.
Qed.

Lemma run_marked (events : list Event) : forall st,
  marked st -> marked (run st events).
Proof.
  induction events as [|e rest IH]; intros st Hm; [exact Hm|].
  simpl. apply IH. unfold marked in *.
  destruct st as [p pe c d a m al]; simpl in *. subst a.
  destruct e as [k | k]; destruct d, p, k, pe; reflexivity.
Qed.

Lemma step_once (st : State) (e : Event) :
  (pc st = false -> micRequests st = 0 /\ pending st = false
                    /\ connected st = false) ->
  (pc st = true -> micRequests st = 1) ->
  (pc (step st e) = false ->
     micRequests (step st e) = 0 /\ pending (step st e) = false
     /\ connected (step st e) = false) /\
  (pc (step st e) = true -> micRequests (step st e) = 1).
Proof.
  destruct st as [p pe c d a m al]; simpl. intros H0 H1.
  destruct p.
  - specialize (H1 eq_refl). subst m.
    destruct e as [k | k]; destruct d, k, pe; simpl;
      split; intros; try discriminate; auto.
  - destruct (H0 eq_refl) as (-> & -> & ->).
    destruct e as [k | k]; destruct d, k; simpl;
      split; intros; try discriminate; auto.
Qed.

Lemma run_once (events : list Event) : forall st,
  (pc st = false -> micRequests st = 0 /\ pending st = false
                    /\ connected st = false) ->
  (pc st = true -> micRequests st = 1) ->
  (pc (run st events) = false ->
     micRequests (run st events) = 0 /\ pending (run st events) = false
     /\ connected (run st events) = false) /\
  (pc (run st events) = true -> micRequests (run st events) = 1).
Proof.
  induction events as [|e rest IH]; intros st H0 H1; [now split|].
  destruct (step_once st e H0 H1) as (G0 & G1).
  exact (IH (step st e) G0 G1).
Qed.

(** X14. The WebRTC test button.  On every run from the page's start the
    microphone is requested at most once, and once exactly when the peer
    connection exists: [pc] is never cleared.  So when the one attempt
    has failed, nothing that follows connects or tries again, no further
    alert is shown, and the first click that follows disables the button
    and labels it 'WebRTC active' although nothing is connected. *)
Theorem failed_session_is_never_retried (before after : list Event) :
  let st := run boot before in
  let st' := run st after in
  micRequests st <= 1 /\
  (pc st = true <-> micRequests st = 1) /\
  (failed st = true ->
     connected st' = false /\
     micRequests st' = micRequests st /\
     alerts st' = alerts st /\
     (existsb is_click after = true ->
      btnActiveText st' = true /\ btnDisabled st' = true)).
Proof.
  intros st st'.
  assert (Hm : marked st) by (apply run_marked; reflexivity).
  assert (H0 : pc boot = false ->
               micRequests boot = 0 /\ pending boot = false
               /\ connected boot = false) by (simpl; auto).
  assert (H1 : pc boot = true -> micRequests boot = 1) by discriminate.
  destruct (run_once before boot H0 H1) as (G0 & G1). fold st in G0, G1.
  split.
  { destruct (pc st); [rewrite (G1 eq_refl) | destruct (G0 eq_refl) as (-> & _)];
      auto. }
  split.
  { destruct (pc st); [split; auto|].
    destruct (G0 eq_refl) as (-> & _). split; discriminate. }
  intros Hf.
  assert (Hc : forall s, failed s = true -> connected s = false).
  { intros s. unfold failed. destruct (pc s), (pending s), (connected s);
      simpl; auto; discriminate. }
  destruct (run_failed_marked after st Hf Hm) as (Hf' & Hm' & Hq & Ha & Hb).
  fold st' in Hf', Hm', Hq, Ha, Hb.
  split; [now apply Hc|]. split; [exact Hq|]. split; [exact Ha|].
  intros Hex. unfold marked in Hm'.
  assert (Ht : btnActiveText st' = true)
    by (apply Hb; rewrite Hex; apply orb_true_r).
  split; [exact Ht | congruence].
Qed.

Lemma failed_session_witness :
  let st' := run (run boot [Click true; Settle false]) [Click true] in
  connected st' = false /\ btnActiveText st' = true /\ btnDisabled st' = true.
Proof.
  destruct (failed_session_is_never_retried
              [Click true; Settle false] [Click true])
    as (_ & _ & H).
  destruct (H eq_refl) as (Hc & _ & _ & Hb).
  destruct (Hb eq_refl) as (Ht & Hd).
  repeat split; assumption.
Defined.

End SessionFacts.

(* ------------------------------------------------------------------ *)

Module StreamMore.
Import Audio Stream StreamObs String.

Local Unset Implicit Arguments.

Section Channel.
Variable supportedRate : float -> bool.
Variable startThrows : AudioBuffer -> bool.
Variable StringToNumber : string -> float.
Variable avatarAnalyser : bool.

Local Abbreviation step :=
  (step supportedRate startThrows StringToNumber avatarAnalyser).
Local Abbreviation run :=
  (run supportedRate startThrows StringToNumber avatarAnalyser).

Lemma rate_or_default_truthy (r : JsValue) :
  is_truthy (rate_or_default r) = true.
Proof.
  unfold rate_or_default. destruct (is_truthy r) eqn:E; [exact E | reflexivity].
Qed.

Ltac frame_auto :=
  simpl; rewrite ?app_nil_r; repeat split; auto; try lia; try discriminate;
  try (intros; apply rate_or_default_truthy).

(** What one event other than the close does to an open channel. *)
Lemma receive_event (st : State) (e : Event) :
  wsStream st = true -> is_close e = false ->
  let st' := step st e in
  wsStream st' = true /\
  hasDialogueLog st' = hasDialogueLog st /\
  avatarController st' = avatarController st /\
  recorderRecording st' = recorderRecording st /\
  currentPhase st' = currentPhase st /\
  dialogueLog st'
  = dialogueLog st ++ (if hasDialogueLog st then lines_of [e] else []) /\
  (if hasDialogueLog st then errorsLogged st
   else errorsLogged st + List.length (lines_of [e])) <= errorsLogged st' /\
  (avatarController st = false -> avatarCalls st' = avatarCalls st) /\
  (is_truthy (currentAudioSampleRate st) = true ->
   is_truthy (currentAudioSampleRate st') = true).
Proof.
  intros Ho Hc. cbv zeta.
  destruct e as [f | | ok | i]; [| discriminate | |].
  - unfold Stream.step. rewrite Ho. unfold lines_of. cbn [flat_map].
    rewrite app_nil_r.
    destruct f as [[|type text emotion gesture rate] | payload].
    + destruct (hasDialogueLog st) eqn:El; frame_auto; rewrite ?El; auto.
    + cbn [deliver onmessage line_of].
      destruct (type =? "user_text")%string.
      { destruct (hasDialogueLog st) eqn:El; frame_auto; rewrite El; auto. }
      destruct (type =? "answer")%string.
      { destruct (hasDialogueLog st) eqn:El; [|frame_auto; rewrite El; auto].
        cbn [avatarController log_message].
        destruct (avatarController st) eqn:Ea;
          [|frame_auto; rewrite ?El; auto].
        destruct (truthy emotion), (truthy gesture); frame_auto;
          rewrite ?El; auto. }
      destruct (type =? "audio_start")%string.
      { cbn [audioCtxSuspended set_rate].
        destruct (audioCtxSuspended st);
          [destruct (hasDialogueLog st) eqn:El; frame_auto; rewrite ?El; auto|].
        unfold set_speaking. cbn [avatarController set_rate].
        destruct (avatarController st) eqn:Ea.
        - destruct (truthy emotion); destruct (hasDialogueLog st) eqn:El;
            frame_auto; rewrite ?El; auto.
        - destruct (hasDialogueLog st) eqn:El; frame_auto; rewrite ?El, ?Ea;
            auto. }
      destruct (type =? "audio_end")%string.
      { destruct (avatarController st) eqn:Ea;
          destruct (hasDialogueLog st) eqn:El; frame_auto;
          rewrite ?El, ?Ea; auto. }
      destruct (hasDialogueLog st) eqn:El; frame_auto; rewrite ?El; auto.
    + unfold deliver. destruct (binaryType st);
        cbn [onmessage arrayBuffer_method line_of];
        destruct (hasDialogueLog st) eqn:El; frame_auto; rewrite ?El; auto.
  - unfold Stream.step, lines_of. cbn [flat_map app].
    destruct (awaitingResume st) as [|emotion rest];
      [destruct (hasDialogueLog st) eqn:El; frame_auto; rewrite ?El; auto|].
    destruct ok.
    + unfold set_speaking. cbn [avatarController resumed].
      destruct (avatarController st) eqn:Ea.
      * destruct (truthy emotion); destruct (hasDialogueLog st) eqn:El;
          frame_auto; rewrite ?El; auto.
      * destruct (hasDialogueLog st) eqn:El; frame_auto; rewrite ?El, ?Ea;
          auto.
    + destruct (hasDialogueLog st) eqn:El; frame_auto; rewrite ?El; auto.
  - unfold Stream.step, lines_of. cbn [flat_map app].
    destruct (nth_error (awaitingRead st) i) as [payload|];
      [|destruct (hasDialogueLog st) eqn:El; frame_auto; rewrite ?El; auto].
    unfold play_chunk.
    cbn [currentAudioSampleRate avatarController set_awaitingRead].
    destruct (playPcmChunk supportedRate startThrows payload _ true _);
      destruct (hasDialogueLog st) eqn:El; frame_auto; rewrite ?El; auto.
Qed.

Lemma lines_of_cons (e : Event) (rest : list Event) :
  lines_of (e :: rest) = lines_of [e] ++ lines_of rest.
Proof. unfold lines_of. simpl. now rewrite app_nil_r. Qed.

(** X15. On an open streaming channel, whatever frames arrive and
    whenever the handlers that wait (on the audio context's [resume()],
    on the bytes of a binary frame) go on: on a page that has the
    dialogue log, the log grows by exactly the [user_text] and [answer]
    frames, one line each, in the order of arrival, every other frame
    adding nothing; on a page without it nothing is logged and each of
    those frames ends in the handler's [catch], leaving an error.  The
    channel stays open and the recorder is untouched; the phase of the
    turn is never changed; without an avatar controller no call on the
    avatar is made; and the sample rate kept for the decoder is always
    a truthy value, since [audio_start] keeps the rate it carries when
    that is truthy, a number or not, and 16000 otherwise. *)
Theorem stream_frames_logged_in_order (events : list Event) :
  forall st,
  wsStream st = true -> forallb (fun e => negb (is_close e)) events = true ->
  let st' := run st events in
  wsStream st' = true /\
  dialogueLog st'
  = dialogueLog st ++ (if hasDialogueLog st then lines_of events else []) /\
  (hasDialogueLog st = false ->
   errorsLogged st + List.length (lines_of events) <= errorsLogged st') /\
  (avatarController st = false -> avatarCalls st' = avatarCalls st) /\
  (is_truthy (currentAudioSampleRate st) = true ->
   is_truthy (currentAudioSampleRate st') = true) /\
  (forall text emotion gesture rate,
     currentAudioSampleRate
       (step st (Receive (TextFrame
                            (Obj "audio_start" text emotion gesture rate))))
     = if is_truthy rate then rate else JNumber 16000%float) /\
  recorderRecording st' = recorderRecording st /\
  currentPhase st' = currentPhase st.
Proof.
  induction events as [|e rest IH]; intros st Ho Hnc; cbv zeta.
  - simpl. split; [exact Ho|].
    split; [destruct (hasDialogueLog st); now rewrite app_nil_r|].
    split; [intros _; unfold lines_of; simpl; lia|].
    split; [auto|]. split; [auto|].
    split; [|split; reflexivity].
    intros text emotion gesture rate. rewrite Ho. simpl.
    unfold set_speaking, rate_or_default. simpl.
    destruct (audioCtxSuspended st); [reflexivity|].
    destruct (avatarController st); [destruct (truthy emotion)|];
      reflexivity.
  - simpl in Hnc. apply andb_prop in Hnc as [Hc Hnc].
    apply negb_true_iff in Hc.
    destruct (receive_event st e Ho Hc)
      as (H1 & H2 & H3 & H4 & H5 & H6 & H7 & H8 & H9).
    cbv zeta in H1, H2, H3, H4, H5, H6, H7, H8, H9.
    destruct (IH (step st e) H1 Hnc) as (G1 & G2 & G3 & G4 & G5 & _ & G7 & G8).
    cbv zeta in G1, G2, G3, G4, G5, G7, G8.
    unfold Stream.run in *. cbn [fold_left].
    split; [exact G1|].
    split.
    { rewrite G2, H6, H2, (lines_of_cons e rest).
      destruct (hasDialogueLog st); rewrite ?app_nil_r, ?app_assoc;
        reflexivity. }
    split.
    { intros El. rewrite El in H7. rewrite H2 in G3. specialize (G3 El).
      rewrite (lines_of_cons e rest), length_app. lia. }
    split; [intros Hc'; rewrite G4; [auto | congruence]|].
    split; [auto|].
    split; [|split; congruence].
    destruct (IH st Ho Hnc) as (_ & _ & _ & _ & _ & G6 & _). exact G6.
Qed.

End Channel.

Lemma stream_frames_witness :
  dialogueLog
    (run (fun _ => true) (fun _ => false) (fun _ => nan) false
       (connected false)
       (map Receive
          [TextFrame (Obj "user_text" (Some "hello") None None JAbsent);
           BinaryFrame [];
           TextFrame (Obj "answer" (Some "welcome") (Some "happy") None
                        JAbsent)
          ]%string))
  = [("guest", Some "hello"); ("reception", Some "welcome")]%string.
Proof.
  destruct (stream_frames_logged_in_order (fun _ => true) (fun _ => false)
              (fun _ => nan) false
              (map Receive
                 [TextFrame (Obj "user_text" (Some "hello") None None JAbsent);
                  BinaryFrame [];
                  TextFrame (Obj "answer" (Some "welcome") (Some "happy")
                               None JAbsent)]%string)
              (connected false) eq_refl eq_refl)
    as (_ & H & _).
  exact H.
Defined.

End StreamMore.

(* ------------------------------------------------------------------ *)

Module EmotionFacts.
Import Emotion String.

Local Unset Implicit Arguments.
Local Open Scope float_scope.

Section Morph.
Variable dict : string -> option nat.

Lemma reset_target_at (influences : nat -> float) (name : string) (j : nat) :
  reset_target dict influences name j
  = if hits dict name j then 0 else influences j.
Proof.
  unfold reset_target, hits, write. destruct (dict name) as [i|]; [|reflexivity].
  now rewrite Nat.eqb_sym.
Qed.

Lemma fold_reset_at (names : list string) : forall influences j,
  fold_left (reset_target dict) names influences j
  = if existsb (fun n => hits dict n j) names then 0 else influences j.
Proof.
  induction names as [|n rest IH]; intros influences j; [reflexivity|].
  simpl. rewrite IH, reset_target_at.
  destruct (hits dict n j), (existsb (fun n => hits dict n j) rest);
    reflexivity.
Qed.

Lemma set_if_truthy_at (name : string) (v : float)
  (influences : nat -> float) (j : nat) :
  set_if_truthy dict name v influences j
  = if hits dict name j && negb (Nat.eqb j 0) then v else influences j.
Proof.
  unfold set_if_truthy, hits, write. destruct (dict name) as [[|i]|].
  - destruct j; reflexivity.
  - rewrite (Nat.eqb_sym (S i) j).
    destruct (Nat.eqb_spec j (S i)) as [->|]; reflexivity.
  - reflexivity.
Qed.

Hypothesis dict_injective :
  forall a b i, In a six -> In b six ->
    dict a = Some i -> dict b = Some i -> a = b.

Lemma hits_injective (a name : string) (i : nat) :
  In a six -> In name six -> dict name = Some i ->
  hits dict a i = (a =? name)%string.
Proof.
  intros Ha Hn Hd. unfold hits. destruct (dict a) as [i'|] eqn:Ea.
  - destruct (Nat.eqb_spec i' i) as [->|Hne].
    + rewrite (dict_injective a name i Ha Hn Ea Hd). now rewrite String.eqb_refl.
    + symmetry. apply String.eqb_neq. intros ->. congruence.
  - symmetry. apply String.eqb_neq. intros ->. congruence.
Qed.

Lemma hits_none (a : string) (j : nat) :
  dict a <> Some j -> hits dict a j = false.
Proof.
  intros H. unfold hits. destruct (dict a) as [i|]; [|reflexivity].
  destruct (Nat.eqb_spec i j) as [->|]; [congruence | reflexivity].
Qed.

Ltac hit name i Hn Hd :=
  repeat match goal with
  | |- context [hits dict ?a i] =>
      rewrite (hits_injective a name i) by (simpl; tauto || assumption)
  end.

(** X16. [setEmotion] on a mesh with morph targets whose dictionary gives
    the six names it uses different indices.  Each of the five emotion
    targets that the mesh has ends at the strength the emotion gives it,
    and at 0 when the emotion gives it none, whatever its influence was
    before: expressions do not add up.  A target at index 0 always ends
    at 0, since the code takes that index for a missing target.
    [mouthOpen] is set to 0.6 by 'surprised' and untouched by every
    other emotion, and no other influence is written. *)
Theorem morph_targets_follow_emotion (emotion : string)
  (influences : nat -> float) :
  let influences' := morph_branch dict emotion influences in
  (forall name i, In name emotionTargets -> dict name = Some i ->
     influences' i = if Nat.eqb i 0 then 0 else strength emotion name) /\
  (forall j, dict "mouthOpen"%string = Some j ->
     influences' j
     = if (emotion =? "surprised")%string && negb (Nat.eqb j 0)
       then 0.6 else influences j) /\
  (forall j, (forall name, In name six -> dict name <> Some j) ->
     influences' j = influences j).
Proof.
  cbv zeta. split; [|split].
  - intros name i Hin Hd.
    assert (Hn : In name six) by (right; exact Hin).
    unfold morph_branch, strength.
    destruct (emotion =? "happy")%string;
      [|destruct (emotion =? "sad")%string;
        [|destruct (emotion =? "surprised")%string;
          [|destruct (emotion =? "thinking")%string]]];
      rewrite ?set_if_truthy_at, fold_reset_at; cbn [existsb emotionTargets];
      hit name i Hn Hd;
      simpl in Hin;
      destruct Hin as [<-|[<-|[<-|[<-|[<-|[]]]]]];
      cbn; destruct (Nat.eqb i 0); reflexivity.
  - intros j Hd.
    assert (Hn : In "mouthOpen"%string six) by (left; reflexivity).
    unfold morph_branch.
    destruct (String.eqb_spec emotion "happy") as [->|_];
      [|destruct (String.eqb_spec emotion "sad") as [->|_];
        [|destruct (String.eqb_spec emotion "surprised") as [->|_];
          [|destruct (String.eqb_spec emotion "thinking") as [->|_]]]];
      rewrite ?set_if_truthy_at, fold_reset_at; cbn [existsb emotionTargets];
      hit "mouthOpen"%string j Hn Hd;
      cbn; destruct (Nat.eqb j 0); reflexivity.
  - intros j Hno.
    unfold morph_branch.
    destruct (emotion =? "happy")%string;
      [|destruct (emotion =? "sad")%string;
        [|destruct (emotion =? "surprised")%string;
          [|destruct (emotion =? "thinking")%string]]];
      rewrite ?set_if_truthy_at, fold_reset_at; cbn [existsb emotionTargets];
      rewrite ?hits_none by (apply Hno; simpl; tauto);
      reflexivity.
Qed.

End Morph.

Lemma morph_targets_witness :
  morph_branch arkit "happy" (fun _ => 1) 2%nat = 0.7 /\
  morph_branch arkit "happy" (fun _ => 1) 3%nat = 0.
Proof.
  assert (Hinj : forall a b i, In a (six) -> In b (six) ->
                   arkit a = Some i -> arkit b = Some i -> a = b).
  { intros a b i Ha Hb. simpl in Ha, Hb.
    destruct Ha as [<-|[<-|[<-|[<-|[<-|[<-|[]]]]]]];
      destruct Hb as [<-|[<-|[<-|[<-|[<-|[<-|[]]]]]]];
      cbn; intros H1 H2; try reflexivity; congruence. }
  destruct (morph_targets_follow_emotion arkit Hinj "happy" (fun _ => 1))
    as (H & _).
  split.
  - apply (H "mouthSmile"%string 2%nat); [simpl; tauto | reflexivity].
  - apply (H "mouthFrown"%string 3%nat); [simpl; tauto | reflexivity].
Defined.

Section Neutral.
Variable inherited : string -> bool.

Local Abbreviation setEmotion := (setEmotion inherited).

Lemma apply_neutral (m : Expressions) (k : Expression) :
  apply_preset neutralPreset m k = 0.
Proof. destruct k; reflexivity. Qed.

(** X17. Going back to a calm face.  For an emotion without a case of
    its own that is no inherited property name ('neutral', or any name
    the controller does not know), and whatever the avatar showed
    before: a VRM model has its five expressions at 0; the placeholder
    gets back the face it was built with; a mesh with morph targets has
    every emotion target it knows at 0, but an influence that is not
    among them, [mouthOpen] in particular, stays as it was, so a mouth
    opened by 'surprised' remains open. *)
Theorem calm_emotion_restores_face (emotion : string) (st : State) :
  has_case emotion = false -> inherited emotion = false ->
  let st' := setEmotion emotion st in
  currentEmotion st' = emotion /\
  (forall manager, vrm st = Some (Some manager) ->
     exists manager', vrm st' = Some (Some manager') /\
                      forall k, manager' k = 0) /\
  (vrm st = None \/ vrm st = Some None ->
   forall dict influences,
     morphTargetMesh st
     = Some {| morphTargetDictionary := Some dict;
               morphTargetInfluences := influences |} ->
     exists influences',
       morphTargetMesh st'
       = Some {| morphTargetDictionary := Some dict;
                 morphTargetInfluences := influences' |} /\
       (forall name i, In name emotionTargets -> dict name = Some i ->
          influences' i = 0) /\
       (forall j, (forall name, In name emotionTargets -> dict name <> Some j) ->
          influences' j = influences j)) /\
  (vrm st = None \/ vrm st = Some None ->
   morphTargetMesh st = None ->
   forall p, placeholder st = Some p -> placeholder st' = Some built).
Proof.
  intros Hcase Hinh. cbv zeta.
  unfold has_case in Hcase.
  apply orb_false_iff in Hcase as [Hcase Ht].
  apply orb_false_iff in Hcase as [Hcase Hsu].
  apply orb_false_iff in Hcase as [Hh Hs].
  assert (Hp : preset_of inherited emotion = neutralPreset).
  { unfold preset_of, emotionPresets. rewrite Hh, Hs, Hsu, Ht, Hinh.
    destruct (emotion =? "neutral")%string; reflexivity. }
  split.
  { unfold Emotion.setEmotion.
    destruct (vrm st) as [[m|]|]; [reflexivity| |];
      destruct (morphTargetMesh st); reflexivity. }
  split.
  { intros manager Hv. unfold Emotion.setEmotion. rewrite Hv, Hp. simpl.
    eexists. split; [reflexivity|]. apply apply_neutral. }
  split.
  { intros Hv dict influences Hm.
    exists (morph_branch dict emotion influences).
    split.
    { unfold Emotion.setEmotion. rewrite Hm.
      destruct Hv as [-> | ->]; reflexivity. }
    unfold morph_branch. rewrite Hh, Hs, Hsu, Ht.
    split.
    - intros name i Hin Hd. rewrite fold_reset_at.
      replace (existsb (fun n => hits dict n i) emotionTargets) with true;
        [reflexivity|].
      symmetry. apply existsb_exists. exists name. split; [exact Hin|].
      unfold hits. rewrite Hd. apply Nat.eqb_refl.
    - intros j Hno. rewrite fold_reset_at.
      replace (existsb (fun n => hits dict n j) emotionTargets) with false;
        [reflexivity|].
      symmetry. apply not_true_is_false. intros Hex.
      apply existsb_exists in Hex as (n & Hin & Hhit).
      unfold hits in Hhit. destruct (dict n) as [i|] eqn:En; [|discriminate].
      apply Nat.eqb_eq in Hhit. subst i. exact (Hno n Hin En). }
  intros Hv Hm p Hpl. unfold Emotion.setEmotion. rewrite Hm, Hpl.
  destruct Hv as [-> | ->]; simpl; unfold placeholder_branch;
    rewrite Hh, Hs, Hsu, Ht; reflexivity.
Qed.

End Neutral.

Lemma calm_emotion_witness :
  placeholder
    (setEmotion (fun _ => false) "neutral"
       (setEmotion (fun _ => false) "happy"
          {| currentEmotion := "neutral"; vrm := None;
             morphTargetMesh := None; placeholder := Some built |}))
  = Some built.
Proof.
  destruct (calm_emotion_restores_face (fun _ => false) "neutral"%string
              (setEmotion (fun _ => false) "happy"
                 {| currentEmotion := "neutral"; vrm := None;
                    morphTargetMesh := None; placeholder := Some built |})
              eq_refl eq_refl)
    as (_ & _ & _ & H).
  exact (H (or_introl eq_refl) eq_refl _ eq_refl).
Defined.

End EmotionFacts.

(* ------------------------------------------------------------------ *)

Module AdminFacts.
Import Audio Presence Admin.

Local Unset Implicit Arguments.

Lemma round_trip_all : all_in 10 0%Z round_trip = true.
Proof. vm_compute. reflexivity. Qed.

Lemma shown_saved (p : Z) (dflt : float) :
  percent p -> shown (Some (saved p)) dflt = Some p.
Proof.
  intros Hp.
  assert (H : round_trip p = true).
  { apply (@AudioFacts.all_in_spec round_trip 10 0%Z round_trip_all).
    unfold percent in Hp. simpl. lia. }
  unfold round_trip in H. unfold shown in *. simpl nullish in *.
  destruct (round (saved p * 100)) as [p'|]; [|discriminate].
  apply Z.eqb_eq in H. now subst.
Qed.

(** X18. The settings page and the region of interest.  A region saved
    from fields holding whole percents (from 0 to 1023) is shown again
    with the same four numbers when the page is loaded, so loading and
    saving without touching the fields stores the very region that was
    stored; and a configuration without a region is shown as 0, 0, 100,
    100 and saved as the whole picture. *)
Theorem roi_percent_round_trip (f : Fields) :
  percent (roi_top f) -> percent (roi_left f) ->
  percent (roi_width f) -> percent (roi_height f) ->
  loadConfig (Some (saveConfig f)) = Some f /\
  option_map saveConfig (loadConfig (Some (saveConfig f)))
  = Some (saveConfig f) /\
  loadConfig None
  = Some {| roi_top := 0; roi_left := 0; roi_width := 100;
            roi_height := 100 |} /\
  option_map saveConfig (loadConfig None)
  = Some {| top := 0; left := 0; width := 1; height := 1 |}.
Proof.
  intros Ht Hl Hw Hh.
  assert (H : loadConfig (Some (saveConfig f)) = Some f).
  { unfold loadConfig, saveConfig. simpl option_map.
    rewrite (shown_saved _ _ Ht), (shown_saved _ _ Hl),
      (shown_saved _ _ Hw), (shown_saved _ _ Hh).
    now destruct f. }
  split; [exact H|]. split; [now rewrite H|].
  split; vm_compute; reflexivity.
Qed.

Lemma roi_percent_witness :
  loadConfig
    (Some (saveConfig {| roi_top := 10; roi_left := 20; roi_width := 60;
                         roi_height := 70 |}))
  = Some {| roi_top := 10; roi_left := 20; roi_width := 60;
            roi_height := 70 |}.
Proof.
  apply (roi_percent_round_trip
           {| roi_top := 10; roi_left := 20; roi_width := 60;
              roi_height := 70 |});
    unfold percent; simpl; lia.
Defined.

End AdminFacts.

(* ------------------------------------------------------------------ *)

Module PresenceMore.
Import Presence PresenceObs.

Local Unset Implicit Arguments.
Local Open Scope float_scope.

Lemma SFleb_trans (x y z : spec_float) :
  SFleb x y = true -> SFleb y z = true -> SFleb x z = true.
Proof.
  unfold SFleb.
  destruct x as [sx| sx | | sx mx ex], y as [sy | sy | | sy my ey],
    z as [sz | sz | | sz mz ez]; simpl;
    try discriminate; try reflexivity;
    try (destruct sx; simpl; try discriminate; try reflexivity);
    try (destruct sy; simpl; try discriminate; try reflexivity);
    try (destruct sz; simpl; try discriminate; try reflexivity);
    try (intros; discriminate).
  all: destruct (Z.compare_spec ex ey), (Z.compare_spec ey ez),
         (Z.compare_spec ex ez); try lia; try discriminate;
         try reflexivity; subst;
       fold (Pos.compare mx my); fold (Pos.compare my mz);
       fold (Pos.compare mx mz);
       destruct (Pos.compare_spec mx my), (Pos.compare_spec my mz),
         (Pos.compare_spec mx mz); simpl; try lia; try discriminate;
         try reflexivity; intros; try discriminate.
Qed.

(** [<=] on JavaScript numbers is transitive. *)
Lemma leb_trans (x y z : float) :
  (x <=? y) = true -> (y <=? z) = true -> (x <=? z) = true.
Proof. rewrite !leb_spec. apply SFleb_trans. Qed.

(** X19. Coming closer never lowers the tier: for any thresholds, in any
    order and even when they are not numbers, a face whose eyes are at
    least as far apart in the picture as another's is classified at
    least as close; in particular, when the farther one is [near] or
    [medium], so is the closer one. *)
Theorem tier_grows_with_eye_distance (pcfg : Cfg) (d1 d2 : float) :
  (d1 <=? d2) = true ->
  closeness (tier_of pcfg d1) <= closeness (tier_of pcfg d2) /\
  (is_near_or_medium (tier_of pcfg d1) = true ->
   is_near_or_medium (tier_of pcfg d2) = true).
Proof.
  intros H.
  assert (Hc : closeness (tier_of pcfg d1) <= closeness (tier_of pcfg d2)).
  { unfold tier_of.
    destruct (nearTh pcfg <=? d1) eqn:N1.
    - rewrite (leb_trans _ _ _ N1 H). reflexivity.
    - destruct (medTh pcfg <=? d1) eqn:M1.
      + destruct (nearTh pcfg <=? d2); [simpl; lia|].
        rewrite (leb_trans _ _ _ M1 H). reflexivity.
      + simpl. lia. }
  split; [exact Hc|].
  destruct (tier_of pcfg d1), (tier_of pcfg d2); simpl in *;
    auto; try discriminate; lia.
Qed.

Lemma tier_grows_witness :
  closeness (tier_of no_cfg 0.08) <= closeness (tier_of no_cfg 0.12).
Proof.
  apply (tier_grows_with_eye_distance no_cfg 0.08 0.12). reflexivity.
Defined.

End PresenceMore.

(* ------------------------------------------------------------------ *)

Module BlinkFacts.
Import Blink.

Local Unset Implicit Arguments.

Lemma run_cons (b : State) (elapsedSec random : float) (rest : list Frame) :
  run b ((elapsedSec, random) :: rest)
  = (fst (updateBlink elapsedSec random b)
       :: fst (run (snd (updateBlink elapsedSec random b)) rest),
     snd (run (snd (updateBlink elapsedSec random b)) rest)).
Proof.
  simpl. destruct (updateBlink elapsedSec random b) as [amount b'].
  simpl. now destruct (run b' rest).
Qed.

Ltac blink_cases b :=
  unfold updateBlink, duration_of;
  destruct b as [a s t0 n]; simpl;
  destruct a; simpl;
  [ destruct s as [|[|[|[|s]]]]; simpl;
    match goal with
    | |- context [PrimFloat.leb ?x ?y] => destruct (PrimFloat.leb x y)
    end; simpl
  | match goal with
    | |- context [PrimFloat.leb ?x ?y] => destruct (PrimFloat.leb x y)
    end; simpl ].

(** What one frame does. *)
Lemma updateBlink_frame (elapsedSec random : float) (b : State) :
  let amount := fst (updateBlink elapsedSec random b) in
  let b' := snd (updateBlink elapsedSec random b) in
  amount_ok amount = true /\
  ((active b = true -> stage b <= 3) ->
   (active b' = true -> stage b' <= 3)) /\
  (stage b' <= S (stage b)) /\
  (if active b && negb (active b') then 1 else 0) + credit b'
  <= (if closed amount then 1 else 0) + credit b.
Proof.
  cbv zeta. blink_cases b; unfold credit, closed, amount_ok; simpl;
    repeat split; intros; try lia; try discriminate; auto.
  all: try (match goal with H : true = true -> _ |- _ =>
              specialize (H eq_refl) end; lia).
Qed.

Lemma run_blinks (frames : list Frame) : forall b,
  (active b = true -> stage b <= 3) ->
  let amounts := fst (run b frames) in
  let b' := snd (run b frames) in
  forallb amount_ok amounts = true /\
  (active b' = true -> stage b' <= 3) /\
  blinks b frames <= List.length (filter closed amounts) + credit b.
Proof.
  induction frames as [|[elapsedSec random] rest IH]; intros b Hb; cbv zeta.
  - simpl. repeat split; auto. lia.
  - rewrite run_cons. cbn [fst snd blinks].
    destruct (updateBlink_frame elapsedSec random b) as (Ha & Hs & _ & Hc).
    cbv zeta in Ha, Hs, Hc.
    destruct (IH (snd (updateBlink elapsedSec random b)) (Hs Hb))
      as (IHa & IHs & IHc).
    cbv zeta in IHa, IHs, IHc.
    split; [simpl; now rewrite Ha, IHa|].
    split; [exact IHs|].
    cbn [filter].
    destruct (closed (fst (updateBlink elapsedSec random b)));
      cbn [List.length]; lia.
Qed.

(** X20. The blink of the photo avatar, over any sequence of frames,
    however far apart: every blink that came to its end has shown the
    eyes fully closed on at least one frame, since a call moves on by one
    stage at most; the amount returned is always 0, 0.5 or 1; and while
    a blink is under way its stage is one of the four that have a
    duration. *)
Theorem blink_always_closes_eyes (random : float) (frames : list Frame) :
  let amounts := fst (run (init random) frames) in
  let b := snd (run (init random) frames) in
  blinks (init random) frames <= List.length (filter closed amounts) /\
  forallb amount_ok amounts = true /\
  (active b = true ->
   stage b <= 3 /\ nth_error durationsMs (stage b) <> None).
Proof.
  cbv zeta.
  assert (H0 : active (init random) = true -> stage (init random) <= 3)
    by discriminate.
  destruct (run_blinks frames (init random) H0) as (Ha & Hs & Hc).
  cbv zeta in Ha, Hs, Hc. change (credit (init random)) with 0 in Hc.
  split; [lia|]. split; [exact Ha|].
  intros Hact. specialize (Hs Hact). split; [exact Hs|].
  apply nth_error_Some. simpl. lia.
Qed.

End BlinkFacts.
